(** * atomvision.data.stem: simulated STEM dataset, label masks, mask-to-graph

    A shallow embedding of [atomvision/data/stem.py].

    Conventions of the embedding.
    - Python floats are modelled by exact rationals ([Q]); the one place where
      the code divides by a possibly-zero quantity ([image / image.max()]) is
      modelled by [npfloat], which adds numpy's [nan] and [inf].  The cast of
      the edge vectors to float32 is not modelled.  Where the outcome hangs on
      a comparison of computed floats (the kd-tree's radius test) the
      operations are rounded to binary64 ([b64]).
    - Python exceptions are the constructors of [exn]; a computation that may
      raise has type [result A].
    - numpy 2-D arrays are lists of rows; index assignment is stdpp's list
      update (the code only ever assigns at in-range pixels).
    - Library routines are modelled by their documented contract, and by
      what they compute where the contract is silent (the rounding of the
      kd-tree's radius test, the inputs on which a routine fails):
      [skimage.draw.disk], [skimage.measure.label] and [regionprops_table],
      [scipy.spatial.KDTree.query_pairs], [dgl.from_networkx] and
      [apply_edges].
    - The collaborators whose values the module does not determine (the
      species radius table built from [chem_data], the [dft_2d] table, the
      STEM simulator, torch's and numpy's random generators, the square root
      behind [equivalent_diameter]) are the fields of the class [Externals]
      or, for functions that use a single one, section variables. *)

From Stdlib Require Import Floats Uint63.
From Stdlib Require Import ZArith QArith Qround Qabs Qpower Qreals Reals List
  Permutation Lia Lqa Lra.
From stdpp Require Import base option list gmap strings.

(** ** Exceptions and the error monad *)

Inductive exn : Type :=
| NotImplementedError (msg : string)
| KeyError (key : Z)
| ValueError (msg : string)
| IndexError
| TypeError.

Inductive result (A : Type) : Type :=
| Ok (a : A)
| Raise (e : exn).
Arguments Ok {A} a.
Arguments Raise {A} e.

#[global] Instance result_ret : MRet result := fun _ a => Ok a.
#[global] Instance result_bind : MBind result := fun _ _ f m =>
  match m with
  | Ok a => f a
  | Raise e => Raise e
  end.

Definition raises {A} (m : result A) : Prop := ∃ e, m = Raise e.
Definition returns {A} (m : result A) : Prop := ∃ a, m = Ok a.
Definition is_NotImplementedError {A} (m : result A) : Prop :=
  ∃ msg, m = Raise (NotImplementedError msg).

(** ** Rational helpers *)

Definition Qltb (x y : Q) : bool := negb (Qle_bool y x).
Definition Qsq (x : Q) : Q := (x * x)%Q.
Definition Qnat (n : nat) : Q := inject_Z (Z.of_nat n).

(** ** binary64 arithmetic on finite values

    A finite binary64 number is [m * 2^e] with [|m| < 2^53] and
    [-1074 <= e]; an operation returns the representable number nearest to
    the exact result, ties going to the even significand.  [b64] is that
    rounding on the rationals (values beyond the largest finite number,
    which a float operation turns into [inf], are not modelled), and
    [fadd], [fsub], [fmul] are the operations: they round their operands,
    which leaves a binary64 number as it is and turns a decimal literal such
    as [0.1] into the number the interpreter reads. *)

Definition Qpow2 (e : Z) : Q := (2 ^ e)%Q.

(** [floor (log2 x)] for a positive [x]. *)
Definition Qlog2 (x : Q) : Z :=
  let k := (Z.log2 (Qnum x) - Z.log2 (Zpos (Qden x)))%Z in
  if Qle_bool (Qpow2 k) x then k else (k - 1)%Z.

(** Rounding to the nearest integer, ties to even. *)
Definition round_half_even (q : Q) : Z :=
  let f := Qfloor q in
  match Qcompare (q - inject_Z f) (1 # 2) with
  | Lt => f
  | Gt => (f + 1)%Z
  | Eq => if Z.even f then f else (f + 1)%Z
  end.

(** The exponent of the last place of a positive [x]: 53 significant bits,
    and no exponent below that of the subnormal numbers. *)
Definition b64_exp (x : Q) : Z := Z.max (Qlog2 x - 52) (-1074).

Definition b64_pos (x : Q) : Q :=
  (inject_Z (round_half_even (x / Qpow2 (b64_exp x))) * Qpow2 (b64_exp x))%Q.

Definition b64 (x : Q) : Q :=
  let y := Qred x in
  match Qnum y with
  | Z0 => 0%Q
  | Zpos _ => Qred (b64_pos y)
  | Zneg _ => Qred (- b64_pos (- y))
  end.

Definition fadd (x y : Q) : Q := b64 (b64 x + b64 y).
Definition fsub (x y : Q) : Q := b64 (b64 x - b64 y).
Definition fmul (x y : Q) : Q := b64 (b64 x * b64 y).

(** The value of a finite primitive float, to compare [b64] with the
    machine's arithmetic. *)
Definition Q_of_float (f : float) : Q :=
  match Prim2SF f with
  | S754_finite s m e =>
      let q := (inject_Z (Zpos m) * Qpow2 e)%Q in
      Qred (if s then (- q)%Q else q)
  | _ => 0%Q
  end.

(** ** numpy integer arrays of rank 2 *)

Abbreviation pixel := (nat * nat)%type.
Abbreviation ndarray := (list (list Z)).

(** [np.zeros(shape, dtype=int)] *)
Definition np_zeros (shape : nat * nat) : ndarray :=
  replicate shape.1 (replicate shape.2 0%Z).

(** [a[r, c]] for an in-range pixel; [None] is out of range. *)
Definition getitem {A} (a : list (list A)) (p : pixel) : option A :=
  a !! p.1 ≫= (λ row, row !! p.2).

(** [a[r, c] = v] *)
Definition setitem (a : ndarray) (p : pixel) (v : Z) : ndarray :=
  alter (λ row, <[p.2 := v]> row) p.1 a.

(** [a[rr, cc] = v]: the pixels are written one after the other. *)
Definition setitems (a : ndarray) (ps : list pixel) (v : Z) : ndarray :=
  foldl (λ a p, setitem a p v) a ps.

Definition shaped (shape : nat * nat) (a : ndarray) : Prop :=
  length a = shape.1 ∧ Forall (λ row, length row = shape.2) a.

Definition in_shape (shape : nat * nat) (p : pixel) : Prop :=
  (p.1 < shape.1)%nat ∧ (p.2 < shape.2)%nat.

(** All pixels of an array of the given shape, in row-major order
    (the order of [np.nonzero]). *)
Definition grid (shape : nat * nat) : list pixel :=
  r ← seq 0 shape.1; c ← seq 0 shape.2; [(r, c)].

(** ** skimage.draw.disk

    [draw.disk(center, radius, shape=shape)] returns the pixels [(r, c)]
    inside [shape] with [((r - r0)/radius)² + ((c - c0)/radius)² < 1]; the
    bounding box it computes first is empty for a negative radius and the
    quotient is not below one for a zero radius, so the test is
    [0 < radius] and [(r - r0)² + (c - c0)² < radius²]. *)
Definition in_disk (center : Q * Q) (radius : Q) (p : pixel) : bool :=
  Qltb 0 radius &&
  Qltb (Qsq (Qnat p.1 - center.1) + Qsq (Qnat p.2 - center.2))%Q (Qsq radius).

Definition disk (center : Q * Q) (radius : Q) (shape : nat * nat) : list pixel :=
  List.filter (in_disk center radius) (grid shape).

(** ** atomic_radius_mask *)

Section RadiusMask.
(** [RADII]: atomic number -> atomic radius, built at import time from
    jarvis' [chem_data]. *)
Variable RADII : gmap Z Q.

(** The body of the [for x, n in zip(X, N)] loop and the loop itself.
    [RADII[n]] raises [KeyError] for a missing key. *)
Fixpoint radius_mask_loop (shape : nat * nat) (px_scale : Q)
    (atoms : list ((Q * Q) * Z)) (labels : ndarray) : result ndarray :=
  match atoms with
  | [] => Ok labels
  | (x, n) :: rest =>
      match RADII !! n with
      | None => Raise (KeyError n)
      | Some rad =>
          let rr_cc := disk x ((1 # 2) * rad / px_scale)%Q shape in
          radius_mask_loop shape px_scale rest (setitems labels rr_cc n)
      end
  end.

(** [atomic_radius_mask(shape, X, N, px_scale=0.1)] *)
Definition atomic_radius_mask (shape : nat * nat) (X : list (Q * Q))
    (N : list Z) (px_scale : Q) : result ndarray :=
  radius_mask_loop shape px_scale (zip X N) (np_zeros shape).

(** The footprint of one atom: the radius the code draws with. *)
Definition footprint_radius (px_scale rad : Q) : Q :=
  ((1 # 2) * rad / px_scale)%Q.

(** Pixel [p] lies in the footprint of atom [(x, n)]. *)
Definition covers (shape : nat * nat) (px_scale : Q) (a : (Q * Q) * Z)
    (p : pixel) : Prop :=
  ∃ rad, RADII !! a.2 = Some rad ∧
         p ∈ disk a.1 (footprint_radius px_scale rad) shape.
End RadiusMask.

(** ** numpy floats that may be non-finite

    An intensity image holds finite values; dividing it by a zero maximum
    gives numpy's [nan] (0/0) and [-inf], [inf] (x/0) under a warning, never
    an exception. *)

Inductive npfloat : Type :=
| Fin (q : Q)
| NaN
| PInf
| NInf.

Abbreviation image := (list (list Q)).
Abbreviation npimage := (list (list npfloat)).

(** [x / m] for finite [x] and [m], numpy semantics. *)
Definition np_div (x m : Q) : npfloat :=
  if Qeq_bool m 0 then
    (if Qltb 0 x then PInf else if Qltb x 0 then NInf else NaN)
  else Fin (x / m)%Q.

Definition np_add (a b : npfloat) : npfloat :=
  match a, b with
  | NaN, _ | _, NaN => NaN
  | PInf, NInf | NInf, PInf => NaN
  | PInf, _ | _, PInf => PInf
  | NInf, _ | _, NInf => NInf
  | Fin x, Fin y => Fin (x + y)%Q
  end.

(** [np.minimum] and [np.maximum]: a [nan] operand wins. *)
Definition np_min2 (a b : npfloat) : npfloat :=
  match a, b with
  | NaN, _ | _, NaN => NaN
  | NInf, _ | _, NInf => NInf
  | PInf, c | c, PInf => c
  | Fin x, Fin y => if Qle_bool x y then Fin x else Fin y
  end.

Definition np_max2 (a b : npfloat) : npfloat :=
  match a, b with
  | NaN, _ | _, NaN => NaN
  | PInf, _ | _, PInf => PInf
  | NInf, c | c, NInf => c
  | Fin x, Fin y => if Qle_bool x y then Fin y else Fin x
  end.

(** Division of a sum by a positive count. *)
Definition np_div_count (a : npfloat) (n : nat) : npfloat :=
  match a with
  | Fin x => Fin (x / Qnat n)%Q
  | other => other
  end.

Definition np_min (l : list npfloat) : npfloat := foldr np_min2 PInf l.
Definition np_max (l : list npfloat) : npfloat := foldr np_max2 NInf l.
Definition np_mean (l : list npfloat) : npfloat :=
  np_div_count (foldr np_add (Fin 0) l) (length l).

Definition Qmax2 (x y : Q) : Q := if Qle_bool x y then y else x.

(** [image.shape] of a rectangular array given as a list of rows. *)
Definition shape_of {A} (a : list (list A)) : nat * nat :=
  (length a, from_option length 0%nat (head a)).

Definition rectangular {A} (a : list (list A)) : Prop :=
  Forall (λ row, length row = (shape_of a).2) a.

(** [image.max()]: numpy raises [ValueError] on an array without elements. *)
Definition image_max (im : image) : result Q :=
  match concat im with
  | [] => Raise (ValueError "zero-size array to reduction operation maximum")
  | x :: xs => Ok (foldl Qmax2 x xs)
  end.

(** [image / m]: elementwise. *)
Definition image_div (im : image) (m : Q) : npimage :=
  map (map (λ x, np_div x m)) im.

(** ** skimage.measure.label

    Connected components of equal-valued pixels, 8-connectivity (the default
    for a 2-D input), background 0.  skimage numbers the components by the
    raster position of their first pixel; the model scans the pixels in
    raster order and flood-fills each unlabelled foreground pixel it meets
    with the next number. *)

Definition neighbours8 (p : pixel) : list pixel :=
  let rs := (if p.1 is S r' then [r'] else []) ++ [p.1; S p.1] in
  let cs := (if p.2 is S c' then [c'] else []) ++ [p.2; S p.2] in
  List.filter (λ q, negb (bool_decide (q = p))) (r ← rs; c ← cs; [(r, c)]).

(** One flood fill from the pixels on [stack], giving number [lab] to the
    component of value [v].  Every step either numbers a fresh pixel, pushing
    its neighbours, or pops one entry, so [10 * #pixels + 1] steps empty the
    stack ([flood_fuel_enough] below). *)
Fixpoint flood (fuel : nat) (mask : ndarray) (v lab : Z) (stack : list pixel)
    (out : ndarray) : ndarray :=
  match fuel with
  | O => out
  | S fuel' =>
      match stack with
      | [] => out
      | p :: stack' =>
          if bool_decide (getitem mask p = Some v ∧ getitem out p = Some 0%Z)
          then flood fuel' mask v lab (neighbours8 p ++ stack') (setitem out p lab)
          else flood fuel' mask v lab stack' out
      end
  end.

Definition flood_fuel (shape : nat * nat) : nat := S (10 * (shape.1 * shape.2)).

(** The raster scan: [st] is the labelled image so far and the number of
    components found. *)
Definition label_step (mask : ndarray) (st : ndarray * Z) (p : pixel)
    : ndarray * Z :=
  let '(out, count) := st in
  match getitem mask p, getitem out p with
  | Some v, Some 0%Z =>
      if bool_decide (v = 0%Z) then st
      else (flood (flood_fuel (shape_of mask)) mask v (count + 1) [p] out,
            (count + 1)%Z)
  | _, _ => st
  end.

(** [measure.label(mask)], together with the number of components. *)
Definition measure_label (mask : ndarray) : ndarray * Z :=
  foldl (label_step mask) (np_zeros (shape_of mask), 0%Z) (grid (shape_of mask)).

(** The number of pixels still carrying 0, the measure of the flood fill. *)
Definition zeros (row : list Z) : nat :=
  length (List.filter (λ z, bool_decide (z = 0%Z)) row).
Definition unlabelled (out : ndarray) : nat := zeros (concat out).

(** What holds of the state [(out, count)] throughout the raster scan: the
    numbers in use are [1..count], they sit on foreground pixels only, and
    each of them is on some pixel. *)
Definition scan_inv (mask : ndarray) (st : ndarray * Z) : Prop :=
  (0 ≤ st.2)%Z ∧
  (∀ q w, getitem st.1 q = Some w → w ≠ 0%Z →
          (1 ≤ w ≤ st.2)%Z ∧ ∃ v, getitem mask q = Some v ∧ v ≠ 0%Z) ∧
  (∀ l, (1 ≤ l ≤ st.2)%Z → ∃ q, getitem st.1 q = Some l).

(** ** skimage.measure.regionprops_table *)

Record props_row : Type := {
  label : Z;
  centroid_0 : Q;
  centroid_1 : Q;
  equivalent_diameter : Q;
  min_intensity : npfloat;
  mean_intensity : npfloat;
  max_intensity : npfloat;
}.

Definition Qsum (l : list Q) : Q := foldr Qplus 0%Q l.

(** The member pixels of component [l], in raster order. *)
Definition region_pixels (rlab : ndarray) (l : Z) : list pixel :=
  List.filter (λ p, bool_decide (getitem rlab p = Some l)) (grid (shape_of rlab)).

Section RegionProps.
(** [sqrt(4 * area / pi)] as computed in floating point. *)
Variable equivalent_diameter_of : nat → Q.

Definition region_row (rlab : ndarray) (intensity_image : npimage) (l : Z)
    : props_row :=
  let px := region_pixels rlab l in
  let area := length px in
  let vals := omap (getitem intensity_image) px in
  {| label := l;
     centroid_0 := (Qsum (map (λ p, Qnat p.1) px) / Qnat area)%Q;
     centroid_1 := (Qsum (map (λ p, Qnat p.2) px) / Qnat area)%Q;
     equivalent_diameter := equivalent_diameter_of area;
     min_intensity := np_min vals;
     mean_intensity := np_mean vals;
     max_intensity := np_max vals |}.

(** One row per component, in ascending label order; no component gives
    a table without rows.  The shape of the intensity image is checked when
    the properties of a component are set up, component by component: an
    intensity image whose shape differs from the label image's is rejected
    when there is a component, and goes unnoticed when there is none. *)
Definition regionprops_table (rlab : ndarray * Z) (intensity_image : npimage)
    : result (list props_row) :=
  if bool_decide (rlab.2 = 0%Z ∨ shape_of rlab.1 = shape_of intensity_image) then
    Ok (map (λ k, region_row rlab.1 intensity_image (Z.of_nat (S k)))
            (seq 0 (Z.to_nat rlab.2)))
  else Raise (ValueError "Label and intensity image shapes must match").
End RegionProps.

(** ** scipy.spatial.KDTree.query_pairs

    [KDTree(points).query_pairs(r)] is the set of index pairs [(i, j)],
    [i < j], of points at Euclidean distance at most [r]; the model lists
    the set in lexicographic order.  For the Euclidean norm the compiled
    tree (which [KDTree] wraps since scipy 1.6) works with squared
    distances: the radius enters as [r * r], so its sign is lost, and a pair
    is reported when the sum of the squared coordinate differences,
    accumulated in binary64, is at most that bound. *)

Abbreviation point := (Q * Q)%type.

(** The squared distance in exact arithmetic. *)
Definition dist2 (a b : point) : Q := (Qsq (a.1 - b.1) + Qsq (a.2 - b.2))%Q.

(** The squared distance as the tree computes it. *)
Definition fdist2 (a b : point) : Q :=
  let dx := fsub a.1 b.1 in
  let dy := fsub a.2 b.2 in
  fadd (fmul dx dx) (fmul dy dy).

Definition within (r : Q) (a b : point) : bool :=
  Qle_bool (fdist2 a b) (fmul r r).

Definition index_pairs (n : nat) : list (nat * nat) :=
  i ← seq 0 n; j ← seq (S i) (n - S i); [(i, j)].

Definition query_pairs (points : list point) (r : Q) : list (nat * nat) :=
  List.filter
    (λ ij, match points !! ij.1, points !! ij.2 with
           | Some a, Some b => within r a b
           | _, _ => false
           end)
    (index_pairs (length points)).

(** The Euclidean distance itself, as a real number. *)
Definition distance (a b : point) : R := sqrt (Q2R (dist2 a b)).

(** ** The networkx graph built by atom_mask_to_graph *)

Abbreviation vec3 := (Q * Q * Q)%type.

Definition vsub (v u : vec3) : vec3 :=
  (v.1.1 - u.1.1, v.1.2 - u.1.2, v.2 - u.2)%Q.
Definition vscale (v : vec3) (s : Q) : vec3 :=
  (v.1.1 * s, v.1.2 * s, v.2 * s)%Q.
Definition veq (v u : vec3) : Prop :=
  (v.1.1 == u.1.1 ∧ v.1.2 == u.1.2 ∧ v.2 == u.2)%Q.
Definition norm2 (v : vec3) : Q := (Qsq v.1.1 + Qsq v.1.2 + Qsq v.2)%Q.

Record node_attrs : Type := {
  pos : vec3;
  intensity : npfloat;
  eq_radius : Q;          (* node attribute "r" *)
}.

Record nxGraph : Type := {
  graph_px_angstrom : Q;
  nx_nodes : list (nat * node_attrs);
  nx_edges : list (nat * nat);
}.

(** [g.has_edge(i, j)] on the undirected graph. *)
Definition has_edge (g : nxGraph) (i j : nat) : Prop :=
  (i, j) ∈ nx_edges g ∨ (j, i) ∈ nx_edges g.

(** The planar part of a node position. *)
Definition xy (v : vec3) : point := (v.1.1, v.1.2).

Section MaskToGraph.
Variable equivalent_diameter_of : nat → Q.

(** The node added for row [id] of the table. *)
Definition node_of (px_angstrom : Q) (id : nat) (row : props_row)
    : nat * node_attrs :=
  (id, {| pos := vscale (centroid_1 row, centroid_0 row, 0%Q) px_angstrom;
          intensity := mean_intensity row;
          eq_radius := ((1 # 2) * equivalent_diameter row * px_angstrom)%Q |}).

(** [props.loc[:, ("centroid-1", "centroid-0")].values * px_angstrom]: the
    points handed to the kd-tree, as binary64 numbers. *)
Definition point_of (px_angstrom : Q) (row : props_row) : point :=
  (fmul (centroid_1 row) px_angstrom, fmul (centroid_0 row) px_angstrom).

Definition points_of (px_angstrom : Q) (props : list props_row) : list point :=
  map (point_of px_angstrom) props.

(** [atom_mask_to_graph(label, image, px_angstrom=0.1, cutoff_angstrom=4)] *)
Definition atom_mask_to_graph (label_ : ndarray) (image_ : image)
    (px_angstrom cutoff_angstrom : Q) : result (nxGraph * list props_row) :=
  let rlab := measure_label label_ in
  m ← image_max image_;
  props ← regionprops_table equivalent_diameter_of rlab (image_div image_ m);
  let nodes := imap (node_of px_angstrom) props in
  let points := points_of px_angstrom props in
  let nbrs := query_pairs points cutoff_angstrom in
  mret ({| graph_px_angstrom := px_angstrom;
           nx_nodes := nodes;
           nx_edges := nbrs |}, props).
End MaskToGraph.

(** ** The DGL graph and bond_vectors *)

Record DGLGraph : Type := {
  ndata_pos : list vec3;
  ndata_intensity : list npfloat;
  ndata_r : list Q;
  ndata_atom_features : list (npfloat * Q);
  dgl_edges : list (nat * nat);       (* directed: (source, destination) *)
  edata_r : list vec3;
}.

(** The neighbours of [u], in the order the edges were added. *)
Definition nx_neighbors (edges : list (nat * nat)) (u : nat) : list nat :=
  e ← edges;
  if bool_decide (e.1 = u) then [e.2]
  else if bool_decide (e.2 = u) then [e.1] else [].

(** [dgl.from_networkx(g, node_attrs=["pos", "intensity", "r"])]: an
    undirected graph becomes a directed one with both orientations of every
    edge.  Each node attribute is batched from the list of its values, whose
    first element decides how: for a graph without nodes that list is empty
    and the call fails with [IndexError]. *)
Definition directed_graph (g : nxGraph) : DGLGraph :=
  {| ndata_pos := map (λ n, pos n.2) (nx_nodes g);
     ndata_intensity := map (λ n, intensity n.2) (nx_nodes g);
     ndata_r := map (λ n, eq_radius n.2) (nx_nodes g);
     ndata_atom_features := [];
     dgl_edges := u ← map fst (nx_nodes g);
                  v ← nx_neighbors (nx_edges g) u; [(u, v)];
     edata_r := [] |}.

Definition from_networkx (g : nxGraph) : result DGLGraph :=
  match nx_nodes g with
  | [] => Raise IndexError
  | _ :: _ => Ok (directed_graph g)
  end.

(** The edge batch handed to an edge function: the ["pos"] feature of the
    source and of the destination node of every edge. *)
Record EdgeBatch : Type := {
  src_pos : list vec3;
  dst_pos : list vec3;
}.

(** [bond_vectors(edges)]: [{"r": v - u}] with [u = edges.src["pos"]] and
    [v = edges.dst["pos"]]. *)
Definition bond_vectors (edges : EdgeBatch) : list vec3 :=
  let u := src_pos edges in
  let v := dst_pos edges in
  zip_with vsub v u.

#[global] Instance Q_inhabited : Inhabited Q := populate 0%Q.

Definition edge_batch (g : DGLGraph) : EdgeBatch :=
  {| src_pos := map (λ e : nat * nat, ndata_pos g !!! e.1) (dgl_edges g);
     dst_pos := map (λ e : nat * nat, ndata_pos g !!! e.2) (dgl_edges g) |}.

(** [g.apply_edges(f)] stores the result under [g.edata["r"]]. *)
Definition apply_edges (f : EdgeBatch → list vec3) (g : DGLGraph) : DGLGraph :=
  {| ndata_pos := ndata_pos g;
     ndata_intensity := ndata_intensity g;
     ndata_r := ndata_r g;
     ndata_atom_features := ndata_atom_features g;
     dgl_edges := dgl_edges g;
     edata_r := f (edge_batch g) |}.

(** ** Python integers, slices *)

(** [int(x)] of a float: truncation towards zero. *)
Definition py_int (x : Q) : Z := Z.quot (Qnum x) (Zpos (Qden x)).

(** The same conversion on binary64 floats, to compare the rational model
    of [int(N * 0.1)] with the floating-point computation. *)
Definition float_of_nat (n : nat) : float :=
  PrimFloat.of_uint63 (Uint63.of_Z (Z.of_nat n)).

Definition float_int (f : float) : Z :=
  match Prim2SF f with
  | S754_finite s m e =>
      let z := if (0 <=? e)%Z then (Zpos m * 2 ^ e)%Z
               else (Zpos m / 2 ^ (- e))%Z in
      if s then (- z)%Z else z
  | _ => 0%Z
  end.

Definition tenth_agrees (n : nat) : bool :=
  (float_int (float_of_nat n * 0x1.999999999999ap-4) =? py_int (Qnat n * (1 # 10)))%Z.

(** A slice bound: negative bounds count from the end, and the result is
    clamped to the list. *)
Definition slice_bound (len : nat) (i : Z) : nat :=
  Z.to_nat (Z.min (Z.of_nat len) (Z.max 0 (if (i <? 0)%Z then i + Z.of_nat len else i))).

(** [l[lo:hi]] *)
Definition py_slice {A} (l : list A) (lo hi : Z) : list A :=
  let a := slice_bound (length l) lo in
  let b := slice_bound (length l) hi in
  take (b - a) (drop a l).

(** The three slices taken by [split_dataset] from the permutation [shuf]
    of [N] indices, for the counts [n_val] and [n_test] that
    [int(N * val_frac)] and [int(N * test_frac)] come to. *)
Definition split_ids {A} (shuf : list A) (N : nat) (n_val n_test : Z)
    : list A * list A * list A :=
  let n_train := (Z.of_nat N - (n_val + n_test))%Z in
  (py_slice shuf 0 n_train,
   py_slice shuf n_train (n_train + n_val),
   py_slice shuf (n_train + n_val) (n_train + n_val + n_test)).

(** ** The collaborators of the dataset classes *)

Record df_row (Atoms : Type) : Type := {
  jid : string;
  atoms : Atoms;
  crys : string;
}.
Arguments jid {Atoms} _.
Arguments atoms {Atoms} _.
Arguments crys {Atoms} _.

(** What [STEMConv.simulate_surface] returns: image, label, pos, nb. *)
Abbreviation simulation := (image * ndarray * list (Q * Q) * list Z)%type.

Class Externals : Type := {
  (** jarvis [Atoms] objects and the [dft_2d] table of [data("dft_2d")] *)
  Atoms : Type;
  dft_2d : list (df_row Atoms);
  (** [RADII], from jarvis' [chem_data] *)
  RADII : gmap Z Q;
  (** [self.stem.simulate_surface(a, px_scale=, eps=, rot=, shift=)] *)
  simulate_surface : Atoms → Q → Q → Q → Q * Q → simulation;
  (** torch's global generator: [torch.manual_seed], [torch.randperm] *)
  torch_gen : Type;
  manual_seed : Z → torch_gen;
  randperm : torch_gen → nat → list nat * torch_gen;
  (** numpy's global generator: one draw of [np.random.uniform(lo, hi)] *)
  np_gen : Type;
  uniform : np_gen → Q → Q → Q * np_gen;
  (** [sqrt(4 * area / pi)] in floating point *)
  equivalent_diameter_of : nat → Q;
}.

Definition LABEL_MODES : gset string := {[ "delta"; "radius" ]}.

Section Dataset.
Context {E : Externals}.

Record Jarvis2dSTEMDataset : Type := {
  px_scale : Q;
  label_mode : string;
  to_tensor : option (image → image);
  rotation_degrees : option Q;
  shift_angstrom : option Q;
  zoom_pct : option Q;
  df : list (df_row Atoms);
  train_ids : list nat;
  val_ids : list nat;
  test_ids : list nat;
}.

(** [split_dataset(self, val_frac=0.1, test_frac=0.1)], reading [N] from
    the data frame.  The generator on entry is overwritten by
    [torch.manual_seed(0)]; [torch.random.seed()] leaves a generator
    seeded from the operating system ([fresh]). *)
Definition split_dataset (data_ : list (df_row Atoms)) (val_frac test_frac : Q)
    (fresh : Z) (gen : torch_gen)
    : (list nat * list nat * list nat) * torch_gen :=
  let N := length data_ in
  let n_val := py_int (Qnat N * val_frac) in
  let n_test := py_int (Qnat N * test_frac) in
  let n_train := (Z.of_nat N - (n_val + n_test))%Z in
  let gen := manual_seed 0 in
  let '(shuf, gen) := randperm gen N in
  let gen := manual_seed fresh in
  let train := py_slice shuf 0 n_train in
  let val := py_slice shuf n_train (n_train + n_val) in
  let test := py_slice shuf (n_train + n_val) (n_train + n_val + n_test) in
  ((train, val, test), gen).

(** [Jarvis2dSTEMDataset.__init__] *)
Definition Jarvis2dSTEMDataset_init (px_scale_ : Q) (label_mode_ : string)
    (image_data : option (list (df_row Atoms)))
    (rotation_degrees_ shift_angstrom_ zoom_pct_ : option Q)
    (to_tensor_ : option (image → image))
    (fresh : Z) (gen : torch_gen)
    : result (Jarvis2dSTEMDataset * torch_gen) :=
  if bool_decide (label_mode_ ∉ LABEL_MODES) then
    Raise (NotImplementedError ("label mode " +:+ label_mode_ +:+ " not supported"))
  else
    let data_ := match image_data with
                 | Some d => d
                 | None => dft_2d
                 end in
    let '((train, val, test), gen) :=
      split_dataset data_ (1 # 10) (1 # 10) fresh gen in
    Ok ({| px_scale := px_scale_;
           label_mode := label_mode_;
           to_tensor := to_tensor_;
           rotation_degrees := rotation_degrees_;
           shift_angstrom := shift_angstrom_;
           zoom_pct := zoom_pct_;
           df := data_;
           train_ids := train;
           val_ids := val;
           test_ids := test |}, gen).

Record sample : Type := {
  s_image : image;
  s_label : ndarray;
  s_id : string;
  s_px_scale : Q;
  s_crys : string;
  s_g : option DGLGraph;
}.

(** The augmentation drawn by [__getitem__]: rotation, shift and pixel
    scale handed to the simulator. *)
Definition draw_rot (self : Jarvis2dSTEMDataset) (gen : np_gen) : Q * np_gen :=
  match rotation_degrees self with
  | Some d => uniform gen (- d) d
  | None => (0%Q, gen)
  end.

Definition draw_shift (self : Jarvis2dSTEMDataset) (gen : np_gen)
    : (Q * Q) * np_gen :=
  match shift_angstrom self with
  | Some s =>
      let '(shift_x, gen) := uniform gen (- s) s in
      let '(shift_y, gen) := uniform gen (- s) s in
      ((shift_x, shift_y), gen)
  | None => ((0%Q, 0%Q), gen)
  end.

Definition draw_px_scale (self : Jarvis2dSTEMDataset) (gen : np_gen)
    : Q * np_gen :=
  match zoom_pct self with
  | Some z =>
      let frac := (z / 100)%Q in
      let '(u, gen) := uniform gen (- frac) frac in
      ((px_scale self * (1 + u))%Q, gen)
  | None => (px_scale self, gen)
  end.

(** [label > 0] *)
Definition threshold (lbl : ndarray) : ndarray :=
  map (map (λ z, if (0 <? z)%Z then 1%Z else 0%Z)) lbl.

(** [Jarvis2dSTEMDataset.__getitem__], for a non-negative [idx];
    [self.df.iloc[idx]] raises [IndexError] past the end of the table. *)
Definition Jarvis2dSTEMDataset_getitem (self : Jarvis2dSTEMDataset)
    (idx : nat) (gen : np_gen) : result (sample * np_gen) :=
  match df self !! idx with
  | None => Raise IndexError
  | Some row =>
      let a := atoms row in
      let '(rot, gen) := draw_rot self gen in
      let '(shift, gen) := draw_shift self gen in
      let '(px_scale_, gen) := draw_px_scale self gen in
      let '(image_, label_, pos_, nb) :=
        simulate_surface a px_scale_ (6 # 10) rot shift in
      label_ ← (if bool_decide (label_mode self = "radius")
                then atomic_radius_mask RADII (shape_of image_) pos_ nb px_scale_
                else Ok label_);
      let image_ := match to_tensor self with
                    | Some f => f image_
                    | None => image_
                    end in
      mret ({| s_image := image_;
               s_label := threshold label_;
               s_id := jid row;
               s_px_scale := px_scale_;
               s_crys := crys row;
               s_g := None |}, gen)
  end.

Record Jarvis2dSTEMGraphDataset : Type := {
  base : Jarvis2dSTEMDataset;
  pixel_classifier : option (image → ndarray);
  debug : bool;
}.

(** [Jarvis2dSTEMGraphDataset.__init__]: of its arguments, only
    [px_scale], [label_mode] and [image_data] reach the base class. *)
Definition Jarvis2dSTEMGraphDataset_init (px_scale_ : Q) (label_mode_ : string)
    (image_data : option (list (df_row Atoms)))
    (to_tensor_ : option (image → image))
    (pixel_classifier_ : option (image → ndarray)) (debug_ : bool)
    (fresh : Z) (gen : torch_gen)
    : result (Jarvis2dSTEMGraphDataset * torch_gen) :=
  '(self, gen) ← Jarvis2dSTEMDataset_init px_scale_ label_mode_ image_data
                   None None None None fresh gen;
  mret ({| base := self;
           pixel_classifier := pixel_classifier_;
           debug := debug_ |}, gen).

(** [g.edata["r"] = g.edata["r"] * self.px_scale] and the stacking of the
    node features. *)
Definition rescale_edata (s : Q) (g : DGLGraph) : DGLGraph :=
  {| ndata_pos := ndata_pos g;
     ndata_intensity := ndata_intensity g;
     ndata_r := ndata_r g;
     ndata_atom_features := ndata_atom_features g;
     dgl_edges := dgl_edges g;
     edata_r := map (λ v, vscale v s) (edata_r g) |}.

Definition stack_atom_features (g : DGLGraph) : DGLGraph :=
  {| ndata_pos := ndata_pos g;
     ndata_intensity := ndata_intensity g;
     ndata_r := ndata_r g;
     ndata_atom_features := zip (ndata_intensity g) (ndata_r g);
     dgl_edges := dgl_edges g;
     edata_r := edata_r g |}.

(** The graph attached to a sample: [atom_mask_to_graph] with its default
    [px_angstrom = 0.1] and [cutoff_angstrom = 4], then the DGL steps. *)
Definition sample_graph (self : Jarvis2dSTEMGraphDataset)
    (predicted_label : ndarray) (image_ : image) : result DGLGraph :=
  '(g, props) ← atom_mask_to_graph equivalent_diameter_of predicted_label
                  image_ (1 # 10) 4;
  g ← from_networkx g;
  let g := apply_edges bond_vectors g in
  let g := rescale_edata (px_scale (base self)) g in
  mret (stack_atom_features g).

(** [Jarvis2dSTEMGraphDataset.__getitem__]; calling a missing
    [pixel_classifier] is a [TypeError]. *)
Definition Jarvis2dSTEMGraphDataset_getitem (self : Jarvis2dSTEMGraphDataset)
    (idx : nat) (gen : np_gen) : result (sample * np_gen) :=
  '(smp, gen) ← Jarvis2dSTEMDataset_getitem (base self) idx gen;
  predicted_label ← (if debug self then Ok (s_label smp)
                     else match pixel_classifier self with
                          | Some f => Ok (f (s_image smp))
                          | None => Raise TypeError
                          end);
  g ← sample_graph self predicted_label (s_image smp);
  mret ({| s_image := s_image smp;
           s_label := s_label smp;
           s_id := s_id smp;
           s_px_scale := s_px_scale smp;
           s_crys := s_crys smp;
           s_g := Some g |}, gen).
End Dataset.

(** ** Further operations of the dataset classes *)

Section DatasetAccess.
Context {E : Externals}.

(** [Jarvis2dSTEMDataset.__len__]: [self.df.shape[0]] *)
Definition Jarvis2dSTEMDataset_len (self : Jarvis2dSTEMDataset) : nat :=
  length (df self).

(** The draws of one [__getitem__], in the order the code makes them:
    rotation, shift, pixel scale. *)
Definition draw_augmentation (self : Jarvis2dSTEMDataset) (gen : np_gen)
    : (Q * (Q * Q) * Q) * np_gen :=
  let '(rot, gen) := draw_rot self gen in
  let '(shift, gen) := draw_shift self gen in
  let '(px_scale_, gen) := draw_px_scale self gen in
  ((rot, shift, px_scale_), gen).
End DatasetAccess.

(** The opposite vector. *)
Definition vopp (v : vec3) : vec3 := (- v.1.1, - v.1.2, - v.2)%Q.

(** ** Worked inputs

    Small concrete inputs on which the definitions above are evaluated. *)

(** A two-entry radius table (carbon and oxygen). *)
Definition example_RADII : gmap Z Q := {[ 6%Z := 7 # 10; 8%Z := 6 # 10 ]}%Q.

(** Collaborators for the worked inputs: a structure is a pre-rendered
    image with its label mask, which the simulator stub hands back; the
    permutation of [randperm] is the reversed range; a uniform draw returns
    the upper end of its interval. *)
Definition example_externals : Externals :=
  {| Atoms := image * ndarray;
     dft_2d := [];
     RADII := example_RADII;
     simulate_surface := λ a _ _ _ _, (a.1, a.2, [], []);
     torch_gen := Z;
     manual_seed := λ s, s;
     randperm := λ g n, (rev (seq 0 n), (g + 1)%Z);
     np_gen := Z;
     uniform := λ g lo hi, (hi, (g + 1)%Z);
     equivalent_diameter_of := Qnat |}.

(** Two single-pixel atoms ten pixels apart on a 1 x 11 image. *)
Definition two_atoms_row : df_row (image * ndarray) :=
  {| jid := "JVASP-0";
     atoms := ([replicate 11 1%Q], [[1; 0; 0; 0; 0; 0; 0; 0; 0; 0; 1]]%Z);
     crys := "hexagonal" |}.

(** The graph dataset over that single structure, in debug mode, with the
    default pixel scale. *)
Definition two_atoms_dataset : result (Jarvis2dSTEMGraphDataset * Z) :=
  Jarvis2dSTEMGraphDataset_init (E := example_externals)
    (1 # 10) "delta" (Some [two_atoms_row]) None None true 0%Z 0%Z.

(** A graph of two nodes joined in both directions. *)
Definition example_graph : DGLGraph :=
  {| ndata_pos := [(0, 0, 0); (1, 2, 0)]%Q;
     ndata_intensity := [Fin 1; Fin 1];
     ndata_r := [1 # 2; 1 # 2]%Q;
     ndata_atom_features := [];
     dgl_edges := [(0, 1); (1, 0)]%nat;
     edata_r := [] |}.

(** The mask of [two_atoms_row] with a constant image: the two centroids
    are exactly one angstrom apart at 0.1 angstrom per pixel. *)
Definition two_atoms_mask : ndarray := [[1; 0; 0; 0; 0; 0; 0; 0; 0; 0; 1]]%Z.
Definition two_atoms_image : image := [replicate 11 1%Q].

(** Two single-pixel atoms forty pixels apart on a 1 x 43 image, at columns
    [c] and [c + 40]: nominally four angstrom apart at 0.1 angstrom per
    pixel. *)
Definition forty_apart_mask (c : nat) : ndarray :=
  [<[c := 1%Z]> (<[(c + 40)%nat := 1%Z]> (replicate 43 0%Z))].
Definition forty_apart_image : image := [replicate 43 1%Q].

(** A [to_tensor] transform, and the graph dataset constructed with it. *)
Definition doubling : image → image := map (map (Qmult 2)).

Definition two_atoms_dataset_to_tensor : result (Jarvis2dSTEMGraphDataset * Z) :=
  Jarvis2dSTEMGraphDataset_init (E := example_externals)
    (1 # 10) "delta" (Some [two_atoms_row]) (Some doubling) None true 0%Z 0%Z.

(** Collaborators whose structures are lists of atoms, given by pixel
    position and atomic number; the simulator stub returns a constant 9 x 9
    image, an empty label mask, and the positions and numbers of the atoms. *)
Definition atoms_externals : Externals :=
  {| Atoms := list ((Q * Q) * Z);
     dft_2d := [];
     RADII := example_RADII;
     simulate_surface := λ a _ _ _ _,
       (replicate 9 (replicate 9 1%Q), np_zeros (9, 9)%nat, a.*1, a.*2);
     torch_gen := Z;
     manual_seed := λ s, s;
     randperm := λ g n, (rev (seq 0 n), (g + 1)%Z);
     np_gen := Z;
     uniform := λ g lo hi, (hi, (g + 1)%Z);
     equivalent_diameter_of := Qnat |}.

(** A carbon and an oxygen atom; a carbon atom and an unknown species. *)
Definition carbon_oxygen_row : df_row (list ((Q * Q) * Z)) :=
  {| jid := "JVASP-1"; atoms := [((2, 2)%Q, 6%Z); ((6, 6)%Q, 8%Z)]; crys := "cubic" |}.
Definition unknown_species_row : df_row (list ((Q * Q) * Z)) :=
  {| jid := "JVASP-2"; atoms := [((2, 2)%Q, 6%Z); ((6, 6)%Q, 99%Z)]; crys := "cubic" |}.

(** A radius-mode dataset over both rows. *)
Definition radius_dataset : result (Jarvis2dSTEMDataset * Z) :=
  Jarvis2dSTEMDataset_init (E := atoms_externals)
    1 "radius" (Some [carbon_oxygen_row; unknown_species_row])
    None None None None 0%Z 0%Z.

(** The graph dataset with the constructor's defaults: no pixel classifier,
    not in debug mode. *)
Definition default_graph_dataset : result (Jarvis2dSTEMGraphDataset * Z) :=
  Jarvis2dSTEMGraphDataset_init (E := example_externals)
    (1 # 10) "delta" (Some [two_atoms_row]) None None false 0%Z 0%Z.

(** * Properties *)

(** ** binary64 rounding *)

Lemma Qpow2_pos (e : Z) : (0 < Qpow2 e)%Q.
Proof. by apply Qpower_0_lt. Qed.

Lemma Qpow2_plus (a b : Z) : (Qpow2 (a + b) == Qpow2 a * Qpow2 b)%Q.
Proof. by apply Qpower_plus. Qed.

Lemma Qpow2_le (a b : Z) : (a ≤ b)%Z → (Qpow2 a <= Qpow2 b)%Q.
Proof.
  intros Hab. replace b with (a + (b - a))%Z by lia. rewrite Qpow2_plus.
  assert (1 <= Qpow2 (b - a))%Q.
  { unfold Qpow2. apply Qpower_1_le; [done|lia]. }
  pose proof (Qpow2_pos a). Lqa.nra.
Qed.

Lemma Qpow2_Z (a : Z) : (0 ≤ a)%Z → (inject_Z (2 ^ a) == Qpow2 a)%Q.
Proof. intros Ha. unfold Qpow2. by rewrite Zpower_Qpower. Qed.

Lemma Qpow2_lt_inv (a b : Z) : (Qpow2 a < Qpow2 b)%Q → (a < b)%Z.
Proof.
  intros Hlt. destruct (decide (a < b)%Z) as [|Hge]; [done|].
  assert (Qpow2 b <= Qpow2 a)%Q by (apply Qpow2_le; lia). Lqa.lra.
Qed.

Lemma Qlog2_spec (x : Q) :
  (0 < x)%Q → (Qpow2 (Qlog2 x) <= x)%Q ∧ (x < Qpow2 (Qlog2 x + 1))%Q.
Proof.
  intros Hx. destruct x as [n d]. unfold Qlog2. cbn [Qnum Qden].
  assert (Hn : (0 < n)%Z) by (unfold Qlt in Hx; cbn in Hx; lia).
  set (a := Z.log2 n). set (b := Z.log2 (Z.pos d)).
  destruct (Z.log2_spec n Hn) as [Ha1 Ha2]. fold a in Ha1, Ha2.
  destruct (Z.log2_spec (Z.pos d)) as [Hb1 Hb2]; [done|]. fold b in Hb1, Hb2.
  assert (Ha0 : (0 ≤ a)%Z) by apply Z.log2_nonneg.
  assert (Hb0 : (0 ≤ b)%Z) by apply Z.log2_nonneg.
  assert (Hxd : (n # d == inject_Z n / inject_Z (Z.pos d))%Q) by apply Qmake_Qdiv.
  assert (Hd : (0 < inject_Z (Z.pos d))%Q).
  { change 0%Q with (inject_Z 0). rewrite <- Zlt_Qlt. lia. }
  rewrite Zle_Qle in Ha1, Hb1. rewrite Zlt_Qlt in Ha2, Hb2.
  rewrite Qpow2_Z in Ha1, Hb1 by done.
  rewrite <- Z.add_1_r in Ha2, Hb2. rewrite Qpow2_Z in Ha2, Hb2 by lia.
  set (N := inject_Z n) in *. set (D := inject_Z (Z.pos d)) in *.
  assert (Hx' : ((n # d) * D == N)%Q).
  { rewrite Hxd. field. Lqa.lra. }
  set (X := (n # d)%Q) in *.
  pose proof (Qpow2_pos (a - b)) as Hk.
  pose proof (Qpow2_pos b) as Hpb.
  assert (E1 : (Qpow2 (a - b + 1) * Qpow2 b == Qpow2 (a + 1))%Q).
  { rewrite <- Qpow2_plus. by replace (a - b + 1 + b)%Z with (a + 1)%Z by lia. }
  assert (E2 : (Qpow2 (a - b - 1) * Qpow2 (b + 1) == Qpow2 a)%Q).
  { rewrite <- Qpow2_plus. by replace (a - b - 1 + (b + 1))%Z with a by lia. }
  pose proof (Qpow2_pos (a - b + 1)). pose proof (Qpow2_pos (a - b - 1)).
  destruct (Qle_bool (Qpow2 (a - b)) X) eqn:Hle.
  - apply Qle_bool_iff in Hle. split; [done|].
    apply Qnot_le_lt. intros Hge. Lqa.nra.
  - replace (a - b - 1 + 1)%Z with (a - b)%Z by lia. split.
    + apply Qnot_lt_le. intros Hlt. Lqa.nra.
    + apply Qnot_le_lt. intros Hge. apply Qle_bool_iff in Hge. congruence.
Qed.

Lemma Qlog2_unique (x : Q) (k : Z) :
  (Qpow2 k <= x)%Q → (x < Qpow2 (k + 1))%Q → Qlog2 x = k.
Proof.
  intros H1 H2.
  assert (Hx : (0 < x)%Q) by (pose proof (Qpow2_pos k); Lqa.lra).
  destruct (Qlog2_spec x Hx) as [H3 H4].
  assert (Qlog2 x < k + 1)%Z by (apply Qpow2_lt_inv; Lqa.lra).
  assert (k < Qlog2 x + 1)%Z by (apply Qpow2_lt_inv; Lqa.lra).
  lia.
Qed.

Lemma Qlog2_le (x y : Q) : (0 < x)%Q → (x <= y)%Q → (Qlog2 x ≤ Qlog2 y)%Z.
Proof.
  intros Hx Hxy.
  destruct (Qlog2_spec x Hx) as [H1 _].
  destruct (Qlog2_spec y) as [_ H2]; [Lqa.lra|].
  assert (Qlog2 x < Qlog2 y + 1)%Z by (apply Qpow2_lt_inv; Lqa.lra). lia.
Qed.

(** Rounding to the nearest integer is monotone and exact on integers. *)

Lemma round_half_even_cases (q : Q) :
  let f := Qfloor q in
  (inject_Z f <= q)%Q ∧ (q < inject_Z f + 1)%Q ∧
  ((round_half_even q = f ∧ (q - inject_Z f <= 1 # 2)%Q) ∨
   (round_half_even q = (f + 1)%Z ∧ (1 # 2 <= q - inject_Z f)%Q)).
Proof.
  intros f. pose proof (Qfloor_le q) as H1. pose proof (Qlt_floor q) as H2.
  fold f in H1, H2. rewrite inject_Z_plus in H2. change (inject_Z 1) with 1%Q in H2.
  split; [done|]. split; [done|]. unfold round_half_even. fold f.
  destruct (Qcompare_spec (q - inject_Z f) (1 # 2)) as [Heq|Hlt|Hgt].
  - destruct (Z.even f); [left|right]; (split; [done|Lqa.lra]).
  - left. split; [done|Lqa.lra].
  - right. split; [done|Lqa.lra].
Qed.

Lemma round_half_even_Z (z : Z) : round_half_even (inject_Z z) = z.
Proof.
  unfold round_half_even. rewrite Qfloor_Z.
  destruct (Qcompare_spec (inject_Z z - inject_Z z) (1 # 2)) as [H|H|H];
    [exfalso; Lqa.lra|done|exfalso; Lqa.lra].
Qed.

Lemma round_half_even_comp (q1 q2 : Q) : (q1 == q2)%Q → round_half_even q1 = round_half_even q2.
Proof.
  intros Heq. unfold round_half_even. rewrite (Qfloor_comp _ _ Heq).
  assert (Hc : Qcompare (q1 - inject_Z (Qfloor q2)) (1 # 2)
               = Qcompare (q2 - inject_Z (Qfloor q2)) (1 # 2)).
  { apply Qcompare_comp; [by rewrite Heq|reflexivity]. }
  by rewrite Hc.
Qed.

Lemma round_half_even_le (q1 q2 : Q) :
  (q1 <= q2)%Q → (round_half_even q1 ≤ round_half_even q2)%Z.
Proof.
  intros Hle.
  pose proof (Qfloor_resp_le _ _ Hle) as Hf.
  destruct (round_half_even_cases q1) as (A1 & A2 & A3).
  destruct (round_half_even_cases q2) as (B1 & B2 & B3).
  destruct (decide (Qfloor q1 = Qfloor q2)) as [Heq|Hne].
  - unfold round_half_even. rewrite <- Heq.
    destruct (Qcompare_spec (q1 - inject_Z (Qfloor q1)) (1 # 2)) as [H1|H1|H1];
    destruct (Qcompare_spec (q2 - inject_Z (Qfloor q1)) (1 # 2)) as [H2|H2|H2];
      try lia; try (exfalso; Lqa.lra); destruct (Z.even (Qfloor q1)); lia.
  - assert (Qfloor q1 + 1 ≤ Qfloor q2)%Z by lia.
    destruct A3 as [[-> _]|[-> _]], B3 as [[-> _]|[-> _]]; lia.
Qed.

Lemma round_half_even_error (q : Q) :
  (Qabs (inject_Z (round_half_even q) - q) <= 1 # 2)%Q.
Proof.
  destruct (round_half_even_cases q) as (A1 & A2 & [[-> A3]|[-> A3]]);
    apply Qabs_Qle_condition.
  - split; Lqa.lra.
  - rewrite inject_Z_plus. change (inject_Z 1) with 1%Q. split; Lqa.lra.
Qed.

Lemma b64_pos_upper (x : Q) (k : Z) :
  (0 < x)%Q → (x <= Qpow2 k)%Q → (b64_exp x ≤ k)%Z → (b64_pos x <= Qpow2 k)%Q.
Proof.
  intros Hx Hle He. unfold b64_pos. set (e := b64_exp x) in *.
  pose proof (Qpow2_pos e) as Hpe.
  assert (Hk : (Qpow2 k == inject_Z (2 ^ (k - e)) * Qpow2 e)%Q).
  { rewrite Qpow2_Z by lia. rewrite <- Qpow2_plus. by replace (k - e + e)%Z with k by lia. }
  rewrite Hk. apply Qmult_le_compat_r; [|Lqa.lra].
  rewrite <- Zle_Qle. rewrite <- (round_half_even_Z (2 ^ (k - e))).
  apply round_half_even_le. apply Qle_shift_div_r; [done|]. by rewrite <- Hk.
Qed.

Lemma b64_pos_lower (x : Q) (k : Z) :
  (0 < x)%Q → (Qpow2 k <= x)%Q → (b64_exp x ≤ k)%Z → (Qpow2 k <= b64_pos x)%Q.
Proof.
  intros Hx Hle He. unfold b64_pos. set (e := b64_exp x) in *.
  pose proof (Qpow2_pos e) as Hpe.
  assert (Hk : (Qpow2 k == inject_Z (2 ^ (k - e)) * Qpow2 e)%Q).
  { rewrite Qpow2_Z by lia. rewrite <- Qpow2_plus. by replace (k - e + e)%Z with k by lia. }
  rewrite Hk. apply Qmult_le_compat_r; [|Lqa.lra].
  rewrite <- Zle_Qle. rewrite <- (round_half_even_Z (2 ^ (k - e))).
  apply round_half_even_le. apply Qle_shift_div_l; [done|]. by rewrite <- Hk.
Qed.

Lemma b64_pos_nonneg (x : Q) : (0 < x)%Q → (0 <= b64_pos x)%Q.
Proof.
  intros Hx. unfold b64_pos. set (e := b64_exp x).
  pose proof (Qpow2_pos e) as Hpe.
  apply Qmult_le_0_compat; [|Lqa.lra].
  change 0%Q with (inject_Z 0). rewrite <- Zle_Qle.
  rewrite <- (round_half_even_Z 0). apply round_half_even_le.
  apply Qle_shift_div_l; [done|]. change (inject_Z 0) with 0%Q. Lqa.lra.
Qed.

Lemma b64_pos_le (x y : Q) :
  (0 < x)%Q → (x <= y)%Q → (b64_pos x <= b64_pos y)%Q.
Proof.
  intros Hx Hxy. assert (Hy : (0 < y)%Q) by Lqa.lra.
  pose proof (Qlog2_le x y Hx Hxy) as HL.
  destruct (Qlog2_spec x Hx) as [Hx1 Hx2]. destruct (Qlog2_spec y Hy) as [Hy1 Hy2].
  destruct (decide (b64_exp x = b64_exp y)) as [Heq|Hne].
  - unfold b64_pos. rewrite <- Heq. set (e := b64_exp x).
    pose proof (Qpow2_pos e) as Hpe.
    apply Qmult_le_compat_r; [|Lqa.lra].
    rewrite <- Zle_Qle. apply round_half_even_le.
    apply Qmult_le_compat_r; [done|]. apply Qlt_le_weak, Qinv_lt_0_compat, Hpe.
  - assert (He : (b64_exp x < b64_exp y)%Z) by (unfold b64_exp in *; lia).
    assert (Hey : b64_exp y = (Qlog2 y - 52)%Z) by (unfold b64_exp in *; lia).
    assert (HLL : (Qlog2 x + 1 ≤ Qlog2 y)%Z) by (unfold b64_exp in *; lia).
    apply Qle_trans with (Qpow2 (Qlog2 y)).
    + apply b64_pos_upper; [done| |lia].
      pose proof (Qpow2_le _ _ HLL). Lqa.lra.
    + apply b64_pos_lower; [done|done|lia].
Qed.

(** The three cases of [b64]: it depends on the value of its argument only,
    and it is odd and monotone. *)
Lemma Qnum_Qred_sign (x : Q) :
  match Qnum (Qred x) with
  | Z0 => (x == 0)%Q
  | Zpos _ => (0 < x)%Q
  | Zneg _ => (x < 0)%Q
  end.
Proof.
  pose proof (Qred_correct x) as Hx. destruct (Qred x) as [n d].
  cbn [Qnum]. destruct n; rewrite <- Hx; done.
Qed.

Lemma b64_zero (x : Q) : (x == 0)%Q → b64 x = 0%Q.
Proof.
  intros Hx. unfold b64. pose proof (Qnum_Qred_sign x) as Hs.
  destruct (Qnum (Qred x)); [done|exfalso; Lqa.lra|exfalso; Lqa.lra].
Qed.

Lemma b64_of_pos (x : Q) : (0 < x)%Q → b64 x = Qred (b64_pos (Qred x)).
Proof.
  intros Hx. unfold b64. pose proof (Qnum_Qred_sign x) as Hs.
  destruct (Qnum (Qred x)); [exfalso; Lqa.lra|done|exfalso; Lqa.lra].
Qed.

Lemma b64_of_neg (x : Q) : (x < 0)%Q → b64 x = Qred (- b64_pos (- Qred x)).
Proof.
  intros Hx. unfold b64. pose proof (Qnum_Qred_sign x) as Hs.
  destruct (Qnum (Qred x)); [exfalso; Lqa.lra|exfalso; Lqa.lra|done].
Qed.

Lemma b64_comp (x y : Q) : (x == y)%Q → b64 x = b64 y.
Proof. intros Heq. unfold b64. by rewrite (Qred_complete _ _ Heq). Qed.

Lemma b64_opp (x : Q) : b64 (- x) = (- b64 x)%Q.
Proof.
  unfold b64. rewrite Qred_opp. destruct (Qred x) as [[|p|p] d].
  - done.
  - change (Qnum (- (Z.pos p # d))) with (Z.neg p).
    change (Qnum (Z.pos p # d)) with (Z.pos p). cbv iota.
    change (- - (Z.pos p # d))%Q with (Z.pos p # d). apply Qred_opp.
  - change (Qnum (- (Z.neg p # d))) with (Z.pos p).
    change (Qnum (Z.neg p # d)) with (Z.neg p). cbv iota.
    change (- (Z.neg p # d))%Q with (Z.pos p # d). rewrite Qred_opp.
    destruct (Qred (b64_pos (Z.pos p # d))) as [n' d'].
    unfold Qopp. cbn [Qnum Qden]. by rewrite Z.opp_involutive.
Qed.

Lemma b64_pos_Qred_le (x y : Q) :
  (0 < x)%Q → (x <= y)%Q → (b64_pos (Qred x) <= b64_pos (Qred y))%Q.
Proof. intros Hx Hxy. apply b64_pos_le; by rewrite !Qred_correct. Qed.

Lemma b64_pos_Qred_nonneg (x : Q) : (0 < x)%Q → (0 <= b64_pos (Qred x))%Q.
Proof. intros Hx. apply b64_pos_nonneg. by rewrite Qred_correct. Qed.

Lemma b64_of_pos_eq (x : Q) : (0 < x)%Q → (b64 x == b64_pos (Qred x))%Q.
Proof. intros Hx. rewrite (b64_of_pos x Hx). apply Qred_correct. Qed.

Lemma b64_of_neg_eq (x : Q) : (x < 0)%Q → (b64 x == - b64_pos (Qred (- x)))%Q.
Proof.
  intros Hx. rewrite (b64_of_neg x Hx), (Qred_opp x). apply Qred_correct.
Qed.

Lemma b64_le (x y : Q) : (x <= y)%Q → (b64 x <= b64 y)%Q.
Proof.
  intros Hxy.
  destruct (Q_dec 0 x) as [[Hx|Hx]|Hx], (Q_dec 0 y) as [[Hy|Hy]|Hy];
    try (exfalso; Lqa.lra);
    rewrite ?(b64_of_pos_eq x), ?(b64_of_pos_eq y), ?(b64_of_neg_eq x),
      ?(b64_of_neg_eq y), ?(b64_zero x), ?(b64_zero y) by (done || by symmetry).
  - by apply b64_pos_Qred_le.
  - pose proof (b64_pos_Qred_nonneg (- x)). pose proof (b64_pos_Qred_nonneg y).
    Lqa.lra.
  - apply Qopp_le_compat. apply b64_pos_Qred_le; Lqa.lra.
  - pose proof (b64_pos_Qred_nonneg (- x)). Lqa.lra.
  - by apply b64_pos_Qred_nonneg.
  - done.
Qed.

Lemma b64_0 : b64 0 = 0%Q.
Proof. done. Qed.

Lemma b64_nonneg (x : Q) : (0 <= x)%Q → (0 <= b64 x)%Q.
Proof. intros Hx. rewrite <- b64_0. by apply b64_le. Qed.

(** A binary64 number is left as it is: rounding twice is rounding once,
    so an operation that rounds its operands returns, on binary64 numbers,
    the rounded exact result. *)

Lemma b64_pos_exact (y : Q) (z : Z) :
  (y == inject_Z z * Qpow2 (b64_exp y))%Q → (b64_pos y == y)%Q.
Proof.
  intros Hy. unfold b64_pos. pose proof (Qpow2_pos (b64_exp y)) as Hp.
  rewrite (round_half_even_comp _ (inject_Z z)), round_half_even_Z; [by symmetry|].
  rewrite Hy at 1. field. Lqa.lra.
Qed.

Lemma b64_pos_fixed (y : Q) (M e : Z) :
  (y == inject_Z M * Qpow2 e)%Q → (0 < M ≤ 2 ^ 53)%Z → (-1074 ≤ e)%Z →
  (b64_pos y == y)%Q.
Proof.
  intros Hy [HM0 HM] He.
  set (a := Z.log2 M).
  destruct (Z.log2_spec M HM0) as [Ha1 Ha2]. fold a in Ha1, Ha2.
  assert (Ha0 : (0 ≤ a)%Z) by apply Z.log2_nonneg.
  clearbody a.
  assert (Ha53 : (a ≤ 53)%Z).
  { destruct (decide (a ≤ 53)%Z) as [|Hgt]; [done|].
    assert (2 ^ 54 ≤ 2 ^ a)%Z by (apply Z.pow_le_mono_r; lia). lia. }
  pose proof (Qpow2_pos e) as Hpe.
  assert (HL : Qlog2 y = (a + e)%Z).
  { apply Qlog2_unique; rewrite Hy.
    - rewrite Qpow2_plus, <- (Qpow2_Z a) by done.
      apply Qmult_le_compat_r; [by rewrite <- Zle_Qle|Lqa.lra].
    - replace (a + e + 1)%Z with (Z.succ a + e)%Z by lia.
      rewrite Qpow2_plus, <- (Qpow2_Z (Z.succ a)) by lia.
      apply Qmult_lt_compat_r; [done|by rewrite <- Zlt_Qlt]. }
  destruct (decide (a ≤ 52)%Z) as [Hle|Hgt].
  - apply (b64_pos_exact y (M * 2 ^ (e - b64_exp y))).
    assert (He' : (b64_exp y ≤ e)%Z).
    { unfold b64_exp. rewrite HL. lia. }
    rewrite inject_Z_mult, Qpow2_Z by lia. rewrite Hy at 1.
    rewrite <- Qmult_assoc, <- Qpow2_plus.
    by replace (e - b64_exp y + b64_exp y)%Z with e by lia.
  - assert (a = 53%Z) as -> by lia. assert (M = (2 ^ 53)%Z) by lia. subst M.
    apply (b64_pos_exact y (2 ^ 52)).
    assert (He' : b64_exp y = (e + 1)%Z).
    { unfold b64_exp. rewrite HL. lia. }
    rewrite He', Hy, (Qpow2_Z 53), (Qpow2_Z 52), <- !Qpow2_plus by lia.
    by replace (52 + (e + 1))%Z with (53 + e)%Z by lia.
Qed.

Lemma b64_pos_significand (x : Q) :
  (0 < x)%Q → (0 ≤ round_half_even (x / Qpow2 (b64_exp x)) ≤ 2 ^ 53)%Z.
Proof.
  intros Hx. set (e := b64_exp x). pose proof (Qpow2_pos e) as Hpe.
  destruct (Qlog2_spec x Hx) as [_ Hlt]. split.
  - rewrite <- (round_half_even_Z 0). apply round_half_even_le.
    apply Qle_shift_div_l; [done|]. change (inject_Z 0) with 0%Q. Lqa.lra.
  - rewrite <- (round_half_even_Z (2 ^ 53)). apply round_half_even_le.
    apply Qle_shift_div_r; [done|]. rewrite Qpow2_Z, <- Qpow2_plus by lia.
    assert (Qpow2 (Qlog2 x + 1) <= Qpow2 (53 + e))%Q
      by (apply Qpow2_le; unfold e, b64_exp; lia).
    Lqa.lra.
Qed.

Lemma b64_idem_pos (x : Q) : (0 < x)%Q → b64 (b64 x) = b64 x.
Proof.
  intros Hx. rewrite (b64_of_pos x Hx).
  set (x' := Qred x). assert (Hx' : (0 < x')%Q) by (unfold x'; by rewrite Qred_correct).
  pose proof (b64_pos_significand x' Hx') as [HM0 HM].
  set (M := round_half_even (x' / Qpow2 (b64_exp x'))) in *.
  assert (Hy : (b64_pos x' == inject_Z M * Qpow2 (b64_exp x'))%Q) by done.
  destruct (decide (M = 0%Z)) as [HMz|HMnz].
  - assert (Hz : Qred (b64_pos x') = 0%Q).
    { change 0%Q with (Qred 0). apply Qred_complete. rewrite Hy, HMz. ring. }
    by rewrite Hz.
  - pose proof (Qpow2_pos (b64_exp x')) as Hpe.
    assert (Hpos : (0 < b64_pos x')%Q).
    { rewrite Hy. apply Qmult_lt_0_compat; [|done].
      change 0%Q with (inject_Z 0). rewrite <- Zlt_Qlt. lia. }
    rewrite (b64_of_pos (Qred (b64_pos x'))) by (by rewrite Qred_correct).
    apply Qred_complete.
    set (Y := Qred (Qred (b64_pos x'))).
    assert (HY : (Y == b64_pos x')%Q) by (unfold Y; by rewrite !Qred_correct).
    rewrite (b64_pos_fixed Y M (b64_exp x'));
      [exact HY|by rewrite HY|lia|unfold b64_exp; lia].
Qed.

Lemma b64_idem (x : Q) : b64 (b64 x) = b64 x.
Proof.
  destruct (Q_dec 0 x) as [[Hx|Hx]|Hx].
  - by apply b64_idem_pos.
  - assert (Hn : b64 x = (- b64 (- x))%Q).
    { rewrite b64_opp. destruct (b64 x) as [n d]. unfold Qopp. cbn [Qnum Qden].
      by rewrite Z.opp_involutive. }
    rewrite Hn, b64_opp, b64_idem_pos; [done|Lqa.lra].
  - rewrite (b64_zero x) by (by symmetry). done.
Qed.

(** ** Arrays and disks *)

Lemma Qltb_lt x y : Qltb x y = true ↔ (x < y)%Q.
Proof.
  unfold Qltb. rewrite negb_true_iff. split.
  - intros H. apply Qnot_le_lt. intros Hle.
    apply Qle_bool_iff in Hle. congruence.
  - intros H. destruct (Qle_bool y x) eqn:E; [|done].
    apply Qle_bool_iff in E. exfalso. eapply Qlt_not_le; eauto.
Qed.

Lemma shaped_np_zeros shape : shaped shape (np_zeros shape).
Proof.
  unfold shaped, np_zeros. split.
  - by rewrite length_replicate.
  - apply Forall_replicate. by rewrite length_replicate.
Qed.

Lemma shaped_setitem shape a p v : shaped shape a → shaped shape (setitem a p v).
Proof.
  intros [Hl Hr]. unfold setitem. split.
  - by rewrite length_alter.
  - apply Forall_alter; [done|]. intros row _ Hrow. by rewrite length_insert.
Qed.

Lemma shaped_setitems shape ps : ∀ a v, shaped shape a → shaped shape (setitems a ps v).
Proof.
  unfold setitems. induction ps as [|p ps IH]; intros a v Ha; simpl; [done|].
  apply IH. by apply shaped_setitem.
Qed.

Lemma getitem_in_shape shape a p :
  shaped shape a → in_shape shape p → is_Some (getitem a p).
Proof.
  intros [Hl Hr] [H1 H2]. unfold getitem.
  destruct (lookup_lt_is_Some_2 a p.1) as [row Hrow]; [lia|].
  rewrite Hrow. simpl.
  apply lookup_lt_is_Some_2.
  rewrite Forall_lookup in Hr. rewrite (Hr _ _ Hrow). done.
Qed.

Lemma getitem_Some_in_shape shape a p v :
  shaped shape a → getitem a p = Some v → in_shape shape p.
Proof.
  intros [Hl Hr]. unfold getitem, in_shape.
  destruct (a !! p.1) as [row|] eqn:Hrow; simpl; [|done].
  intros Hc. split.
  - rewrite <- Hl. by eapply lookup_lt_Some.
  - rewrite Forall_lookup in Hr. rewrite <- (Hr _ _ Hrow). by eapply lookup_lt_Some.
Qed.

Lemma getitem_setitem_eq shape a p v :
  shaped shape a → in_shape shape p → getitem (setitem a p v) p = Some v.
Proof.
  intros Ha Hp. destruct (getitem_in_shape _ _ _ Ha Hp) as [w Hw].
  revert Hw. unfold getitem, setitem. rewrite list_lookup_alter_eq.
  destruct (a !! p.1) as [row|]; simpl; [|done].
  intros Hw. apply list_lookup_insert_eq. by eapply lookup_lt_Some.
Qed.

Lemma getitem_setitem_ne a p q v :
  p ≠ q → getitem (setitem a p v) q = getitem a q.
Proof.
  intros Hne. unfold getitem, setitem.
  destruct (decide (p.1 = q.1)) as [Heq|Hr].
  - rewrite Heq, list_lookup_alter_eq.
    destruct (a !! q.1) as [row|]; simpl; [|done].
    apply list_lookup_insert_ne. intros Hc. apply Hne.
    destruct p, q; simpl in *; congruence.
  - by rewrite list_lookup_alter_ne.
Qed.

Lemma getitem_setitems shape ps : ∀ a v q,
  shaped shape a → Forall (in_shape shape) ps →
  getitem (setitems a ps v) q = if decide (q ∈ ps) then Some v else getitem a q.
Proof.
  unfold setitems. induction ps as [|p ps IH]; intros a v q Ha Hps; cbn [foldl].
  - rewrite decide_False; [done|]. intros H; inversion H.
  - apply Forall_cons in Hps as [Hp Hps].
    rewrite IH by (try apply shaped_setitem; done).
    destruct (decide (q ∈ ps)) as [Hin|Hnin].
    + rewrite decide_True; [done|by right].
    + destruct (decide (p = q)) as [->|Hne].
      * rewrite decide_True by left. by eapply getitem_setitem_eq.
      * rewrite decide_False.
        -- by apply getitem_setitem_ne.
        -- intros Hc. apply elem_of_cons in Hc as [?|?]; congruence.
Qed.

Lemma elem_of_grid shape p : p ∈ grid shape ↔ in_shape shape p.
Proof.
  unfold grid, in_shape. destruct p as [r c]. simpl.
  rewrite list_elem_of_bind. split.
  - intros (r' & Hc & Hr). apply list_elem_of_bind in Hc as (c' & Hp & Hc).
    apply list_elem_of_singleton in Hp. inversion Hp; subst.
    apply elem_of_seq in Hr, Hc. lia.
  - intros [Hr Hc]. exists r. split; [|apply elem_of_seq; lia].
    apply list_elem_of_bind. exists c. split; [by apply list_elem_of_singleton|].
    apply elem_of_seq; lia.
Qed.

Lemma elem_of_disk center radius shape p :
  p ∈ disk center radius shape ↔ in_shape shape p ∧ in_disk center radius p = true.
Proof.
  unfold disk. rewrite list_elem_of_In, filter_In, <- list_elem_of_In, elem_of_grid. done.
Qed.

Lemma getitem_np_zeros shape p v : getitem (np_zeros shape) p = Some v → v = 0%Z.
Proof.
  unfold getitem, np_zeros. intros H.
  destruct (replicate shape.1 (replicate shape.2 0%Z) !! p.1) as [row|] eqn:Hrow;
    simpl in H; [|done].
  apply lookup_replicate in Hrow as [-> _].
  by apply lookup_replicate in H as [-> _].
Qed.

Lemma getitem_np_zeros_in_shape (shape : nat * nat) (p : pixel) :
  in_shape shape p → getitem (np_zeros shape) p = Some 0%Z.
Proof.
  intros Hp.
  destruct (getitem_in_shape shape (np_zeros shape) p (shaped_np_zeros shape) Hp)
    as [v Hv].
  by rewrite Hv, (getitem_np_zeros _ _ _ Hv).
Qed.

Section RadiusMaskFacts.
Variable RADII : gmap Z Q.
Variable shape : nat * nat.
Variable px_scale : Q.

Local Abbreviation loop := (radius_mask_loop RADII shape px_scale).
Local Abbreviation covers := (covers RADII shape px_scale).

Lemma radius_mask_loop_app pre post labels :
  loop (pre ++ post) labels = loop pre labels ≫= loop post.
Proof.
  revert labels. induction pre as [|[x n] pre IH]; intros labels; [done|].
  simpl. destruct (RADII !! n); [apply IH|done].
Qed.

Lemma radius_mask_loop_shaped atoms : ∀ labels out,
  shaped shape labels → loop atoms labels = Ok out → shaped shape out.
Proof.
  induction atoms as [|[x n] atoms IH]; intros labels out Hs; simpl.
  - by intros [= <-].
  - destruct (RADII !! n); [|done]. apply IH. by apply shaped_setitems.
Qed.

Lemma disk_in_shape center radius : Forall (in_shape shape) (disk center radius shape).
Proof. apply Forall_forall. intros p Hp. by apply elem_of_disk in Hp as [? _]. Qed.

Lemma radius_mask_loop_keeps atoms : ∀ labels out p v,
  shaped shape labels → loop atoms labels = Ok out →
  getitem labels p = Some v →
  (∀ a, a ∈ atoms → ¬ covers a p) →
  getitem out p = Some v.
Proof.
  induction atoms as [|[x n] atoms IH]; intros labels out p v Hs; simpl.
  - by intros [= <-].
  - destruct (RADII !! n) as [rad|] eqn:Hrad; [|done].
    intros Hout Hp Hnc. eapply IH; [|exact Hout| |].
    + by apply shaped_setitems.
    + rewrite (getitem_setitems shape) by (done || apply disk_in_shape).
      rewrite decide_False; [done|]. intros Hin.
      apply (Hnc (x, n)); [left|]. by exists rad.
    + intros a Ha. apply Hnc. by right.
Qed.

Lemma radius_mask_loop_last_write pre a post labels out p :
  shaped shape labels → loop (pre ++ a :: post) labels = Ok out →
  covers a p → (∀ b, b ∈ post → ¬ covers b p) →
  getitem out p = Some a.2.
Proof.
  intros Hs. rewrite radius_mask_loop_app.
  destruct (loop pre labels) as [mid|e] eqn:Hmid; [|done].
  destruct a as [x n]. cbn. intros Hout (rad & Hrad & Hin) Hpost.
  simpl in Hrad. rewrite Hrad in Hout.
  eapply radius_mask_loop_keeps; [|exact Hout| |exact Hpost].
  - apply shaped_setitems. by eapply radius_mask_loop_shaped.
  - rewrite (getitem_setitems shape);
      [|by eapply radius_mask_loop_shaped|apply disk_in_shape].
    by rewrite decide_True.
Qed.

Lemma radius_mask_loop_missing atoms : ∀ labels,
  (∃ a, a ∈ atoms ∧ RADII !! a.2 = None) →
  ∃ k, loop atoms labels = Raise (KeyError k) ∧ k ∈ atoms.*2 ∧ RADII !! k = None.
Proof.
  induction atoms as [|[x n] atoms IH]; intros labels (a & Ha & Hnone).
  - inversion Ha.
  - simpl. destruct (RADII !! n) as [rad|] eqn:Hrad.
    + apply elem_of_cons in Ha as [->|Ha]; [simpl in Hnone; congruence|].
      destruct (IH (setitems labels (disk x ((1 # 2) * rad / px_scale) shape) n))
        as (k & Hk & Hin & Hmiss); [by exists a|].
      exists k. split; [done|]. split; [by right|done].
    + exists n. split; [done|]. split; [by left|done].
Qed.

Lemma radius_mask_loop_present atoms : ∀ labels,
  (∀ a, a ∈ atoms → is_Some (RADII !! a.2)) → returns (loop atoms labels).
Proof.
  induction atoms as [|[x n] atoms IH]; intros labels Hall; simpl.
  - by eexists.
  - destruct (Hall (x, n)) as [rad Hrad]; [left|]. simpl in Hrad. rewrite Hrad.
    apply IH. intros a Ha. apply Hall. by right.
Qed.

Lemma radius_mask_loop_origin atoms : ∀ labels out p v,
  shaped shape labels → loop atoms labels = Ok out →
  getitem out p = Some v →
  getitem labels p = Some v ∨ ∃ a, a ∈ atoms ∧ a.2 = v ∧ covers a p.
Proof.
  induction atoms as [|[x n] atoms IH]; intros labels out p v Hs; simpl.
  - intros [= <-]. by left.
  - destruct (RADII !! n) as [rad|] eqn:Hrad; [|done].
    intros Hout Hv.
    destruct (IH _ _ _ _ (shaped_setitems shape _ _ n Hs) Hout Hv)
      as [Hset|(a & Ha & Hav & Hcov)].
    + rewrite (getitem_setitems shape) in Hset by (done || apply disk_in_shape).
      case_decide as Hin; [|by left].
      right. exists (x, n). split; [left|]. split; [by inversion Hset|].
      by exists rad.
    + right. exists a. split; [by right|done].
Qed.
End RadiusMaskFacts.

(** C6. [atomic_radius_mask] is order-sensitive, last write wins: in the
    returned mask a pixel carries the atomic number of the last atom, in
    input order, whose disk covers it (so every atom's disk pixels receive
    its number and later atoms overwrite earlier ones); for two atoms whose
    disks overlap at a pixel, the pixel carries the number of the atom listed
    second, in either order. *)
Theorem atomic_radius_mask_last_write_wins (RADII : gmap Z Q) (shape : nat * nat)
    (px_scale : Q) :
  (∀ X N labels pre a post p,
      atomic_radius_mask RADII shape X N px_scale = Ok labels →
      zip X N = pre ++ a :: post →
      covers RADII shape px_scale a p →
      (∀ b, b ∈ post → ¬ covers RADII shape px_scale b p) →
      getitem labels p = Some a.2) ∧
  (∀ x1 n1 x2 n2 p,
      covers RADII shape px_scale (x1, n1) p →
      covers RADII shape px_scale (x2, n2) p →
      (∃ l12, atomic_radius_mask RADII shape [x1; x2] [n1; n2] px_scale = Ok l12 ∧
              getitem l12 p = Some n2) ∧
      (∃ l21, atomic_radius_mask RADII shape [x2; x1] [n2; n1] px_scale = Ok l21 ∧
              getitem l21 p = Some n1)).
Proof.
  assert (Hlast : ∀ X N labels pre a post p,
      atomic_radius_mask RADII shape X N px_scale = Ok labels →
      zip X N = pre ++ a :: post →
      covers RADII shape px_scale a p →
      (∀ b, b ∈ post → ¬ covers RADII shape px_scale b p) →
      getitem labels p = Some a.2).
  { intros X N labels pre a post p Hrun Hzip Hcov Hpost.
    unfold atomic_radius_mask in Hrun. rewrite Hzip in Hrun.
    eapply radius_mask_loop_last_write; eauto using shaped_np_zeros. }
  split; [exact Hlast|].
  intros x1 n1 x2 n2 p H1 H2.
  assert (Hpair : ∀ xa na xb nb,
      covers RADII shape px_scale (xa, na) p →
      covers RADII shape px_scale (xb, nb) p →
      ∃ l, atomic_radius_mask RADII shape [xa; xb] [na; nb] px_scale = Ok l ∧
           getitem l p = Some nb).
  { intros xa na xb nb Ha Hb.
    destruct (radius_mask_loop_present RADII shape px_scale
                [(xa, na); (xb, nb)] (np_zeros shape)) as [l Hl].
    - intros a Hin. destruct Ha as (ra & Hra & _), Hb as (rb & Hrb & _).
      apply elem_of_cons in Hin as [->|Hin]; [by eexists|].
      apply list_elem_of_singleton in Hin as ->. by eexists.
    - exists l. split; [exact Hl|].
      apply (Hlast [xa; xb] [na; nb] l [(xa, na)] (xb, nb) [] p); try done.
      intros b Hin. inversion Hin. }
  split; by apply Hpair.
Qed.

(** Two overlapping atoms on a 5 x 5 image, in both orders. *)
Lemma atomic_radius_mask_last_write_wins_witness :
  (∃ l12, atomic_radius_mask example_RADII (5, 5)%nat [(2, 2); (2, 3)]%Q [6; 8]%Z (1 # 10)
            = Ok l12 ∧ getitem l12 (2, 2)%nat = Some 8%Z) ∧
  (∃ l21, atomic_radius_mask example_RADII (5, 5)%nat [(2, 3); (2, 2)]%Q [8; 6]%Z (1 # 10)
            = Ok l21 ∧ getitem l21 (2, 2)%nat = Some 6%Z).
Proof.
  apply (proj2 (atomic_radius_mask_last_write_wins example_RADII (5, 5)%nat (1 # 10))
           (2, 2)%Q 6%Z (2, 3)%Q 8%Z (2, 2)%nat).
  - exists (7 # 10)%Q. split; [reflexivity|].
    apply elem_of_disk. split; [split; simpl; lia|reflexivity].
  - exists (6 # 10)%Q. split; [reflexivity|].
    apply elem_of_disk. split; [split; simpl; lia|reflexivity].
Defined.

(** C7. With as many positions as atomic numbers and a positive pixel
    scale: if some atomic number of the input is missing from [RADII] the
    call raises the lookup error ([KeyError], the spec's
    UnknownSpeciesError) for a missing number of the input, so no atom is
    skipped; if all are present the call returns a mask of the requested
    shape in which the footprint of every atom is the disk of radius
    [0.5 * RADII[n] / px_scale] around its position, clipped to the image:
    a labelled pixel lies inside the image and inside that disk of an atom
    with its number; a pixel of the image inside the disk of an atom, and
    of no atom listed after it, carries that atom's number; a pixel of the
    image inside no atom's disk carries 0. *)
Theorem atomic_radius_mask_unknown_species (RADII : gmap Z Q)
    (shape : nat * nat) (X : list (Q * Q)) (N : list Z) (px_scale : Q) :
  length X = length N →
  (0 < px_scale)%Q →
  ((∃ n, n ∈ N ∧ RADII !! n = None) →
     ∃ k, atomic_radius_mask RADII shape X N px_scale = Raise (KeyError k) ∧
          k ∈ N ∧ RADII !! k = None) ∧
  ((∀ n, n ∈ N → is_Some (RADII !! n)) →
     ∃ labels, atomic_radius_mask RADII shape X N px_scale = Ok labels ∧
       shaped shape labels ∧
       (∀ p v, getitem labels p = Some v → v ≠ 0%Z →
          ∃ x rad, (x, v) ∈ zip X N ∧ RADII !! v = Some rad ∧
                   in_shape shape p ∧
                   in_disk x ((1 # 2) * rad / px_scale)%Q p = true) ∧
       (∀ pre x n post rad p,
          zip X N = pre ++ (x, n) :: post → RADII !! n = Some rad →
          in_shape shape p →
          in_disk x ((1 # 2) * rad / px_scale)%Q p = true →
          (∀ y m rm, (y, m) ∈ post → RADII !! m = Some rm →
                     in_disk y ((1 # 2) * rm / px_scale)%Q p = false) →
          getitem labels p = Some n) ∧
       (∀ p, in_shape shape p →
          (∀ y m rm, (y, m) ∈ zip X N → RADII !! m = Some rm →
                     in_disk y ((1 # 2) * rm / px_scale)%Q p = false) →
          getitem labels p = Some 0%Z)).
Proof.
  intros Hlen _. unfold atomic_radius_mask. split.
  - intros (n & Hn & Hmiss).
    destruct (radius_mask_loop_missing RADII shape px_scale (zip X N) (np_zeros shape))
      as (k & Hk & Hin & Hnone).
    + apply list_elem_of_lookup in Hn as [i Hi].
      destruct (lookup_lt_is_Some_2 X i) as [x Hx].
      { rewrite Hlen. by eapply lookup_lt_Some. }
      exists (x, n). split; [|done].
      apply list_elem_of_lookup. exists i.
      apply lookup_zip_with_Some. by exists x, n.
    + exists k. split; [done|]. split; [|done].
      rewrite snd_zip in Hin by lia. done.
  - intros Hall.
    destruct (radius_mask_loop_present RADII shape px_scale (zip X N) (np_zeros shape))
      as [labels Hrun].
    { intros [x n] Hin. apply Hall. by eapply elem_of_zip_r. }
    assert (Hout : ∀ (l : list ((Q * Q) * Z)) p,
              (∀ y m rm, (y, m) ∈ l → RADII !! m = Some rm →
                         in_disk y ((1 # 2) * rm / px_scale)%Q p = false) →
              ∀ b, b ∈ l → ¬ covers RADII shape px_scale b p).
    { intros l p Hl [y m] Hb (rm & Hrm & Hd). cbn in Hrm, Hd.
      apply elem_of_disk in Hd as [_ Hd]. unfold footprint_radius in Hd.
      by rewrite (Hl y m rm Hb Hrm) in Hd. }
    exists labels. split; [done|]. split.
    { eapply radius_mask_loop_shaped; eauto using shaped_np_zeros. }
    split; [|split].
    + intros p v Hv Hnz.
      destruct (radius_mask_loop_origin RADII shape px_scale _ _ _ p v
                  (shaped_np_zeros shape) Hrun Hv)
        as [Hzero|([x n] & Hin & Hn & rad & Hrad & Hdisk)].
      * apply getitem_np_zeros in Hzero. done.
      * simpl in Hn, Hrad, Hdisk. subst n.
        apply elem_of_disk in Hdisk as [Hshape Hdisk].
        by exists x, rad.
    + intros pre x n post rad p Hzip Hrad Hp Hd Hpost. rewrite Hzip in Hrun.
      apply (radius_mask_loop_last_write RADII shape px_scale pre (x, n) post
               (np_zeros shape) labels p (shaped_np_zeros shape) Hrun).
      * exists rad. split; [done|]. by apply elem_of_disk.
      * by apply Hout.
    + intros p Hp Hnone.
      eapply radius_mask_loop_keeps;
        [apply shaped_np_zeros|exact Hrun|by apply getitem_np_zeros_in_shape|].
      by apply Hout.
Qed.

(** One carbon atom next to an unknown species; then carbon and oxygen. *)
Lemma atomic_radius_mask_unknown_species_witness :
  (∃ k, atomic_radius_mask example_RADII (5, 5)%nat [(2, 2); (2, 3)]%Q [6; 99]%Z (1 # 10)
          = Raise (KeyError k) ∧ k ∈ [6; 99]%Z ∧ example_RADII !! k = None) ∧
  (∃ labels, atomic_radius_mask example_RADII (5, 5)%nat [(2, 2); (2, 3)]%Q [6; 8]%Z (1 # 10)
          = Ok labels ∧ shaped (5, 5)%nat labels ∧
       getitem labels (2, 3)%nat = Some 8%Z ∧
       (∀ p v, getitem labels p = Some v → v ≠ 0%Z →
          ∃ x rad, (x, v) ∈ zip [(2, 2); (2, 3)]%Q [6; 8]%Z ∧
                   example_RADII !! v = Some rad ∧ in_shape (5, 5)%nat p ∧
                   in_disk x ((1 # 2) * rad / (1 # 10))%Q p = true)).
Proof.
  split.
  - apply (atomic_radius_mask_unknown_species example_RADII (5, 5)%nat
             [(2, 2); (2, 3)]%Q [6; 99]%Z (1 # 10)); [reflexivity|reflexivity|].
    exists 99%Z. split; [|reflexivity]. right. left.
  - destruct (atomic_radius_mask_unknown_species example_RADII (5, 5)%nat
                [(2, 2); (2, 3)]%Q [6; 8]%Z (1 # 10)) as [_ Hok];
      [reflexivity|reflexivity|].
    destruct Hok as (labels & Hrun & Hshaped & Hin & Hlast & _).
    { intros n Hn. apply elem_of_cons in Hn as [->|Hn]; [by eexists|].
      apply list_elem_of_singleton in Hn as ->. by eexists. }
    exists labels. split; [exact Hrun|]. split; [exact Hshaped|]. split; [|exact Hin].
    apply (Hlast [((2, 2)%Q, 6%Z)] (2, 3)%Q 8%Z [] (6 # 10)%Q (2, 3)%nat);
      [reflexivity|reflexivity|split; simpl; lia|reflexivity|].
    intros y m rm Hpost. inversion Hpost.
Defined.

(** ** Bond vectors *)

Lemma bond_vectors_lookup (edges : EdgeBatch) (e : nat) (u v : vec3) :
  src_pos edges !! e = Some u → dst_pos edges !! e = Some v →
  bond_vectors edges !! e = Some (vsub v u).
Proof.
  intros Hu Hv. unfold bond_vectors. apply lookup_zip_with_Some. by exists v, u.
Qed.

Lemma apply_edges_bond_vectors (g : DGLGraph) (e u v : nat) :
  dgl_edges g !! e = Some (u, v) →
  edata_r (apply_edges bond_vectors g) !! e
    = Some (vsub (ndata_pos g !!! v) (ndata_pos g !!! u)).
Proof.
  intros He. simpl. apply bond_vectors_lookup; simpl;
    rewrite list_lookup_fmap, He; done.
Qed.

Lemma vsub_antisym (v u : vec3) : veq (vsub v u) (vsub u v) → veq v u.
Proof.
  destruct v as [[v1 v2] v3], u as [[u1 u2] u3]. unfold veq, vsub. simpl.
  intros (H1 & H2 & H3). repeat split; Lqa.lra.
Qed.

(** C8. For every edge from node [u] to node [v] the bond vector computed
    by [bond_vectors] is [pos(v) - pos(u)], destination minus source; it
    coincides with the negation [pos(u) - pos(v)] only when the two positions
    are equal. *)
Theorem bond_vectors_destination_minus_source (g : DGLGraph) (e u v : nat) :
  dgl_edges g !! e = Some (u, v) →
  edata_r (apply_edges bond_vectors g) !! e
    = Some (vsub (ndata_pos g !!! v) (ndata_pos g !!! u)) ∧
  (∀ w, edata_r (apply_edges bond_vectors g) !! e = Some w →
        veq w (vsub (ndata_pos g !!! u) (ndata_pos g !!! v)) →
        veq (ndata_pos g !!! v) (ndata_pos g !!! u)).
Proof.
  intros He. pose proof (apply_edges_bond_vectors g e u v He) as Hr.
  split; [exact Hr|].
  intros w Hw Hneg. rewrite Hr in Hw. injection Hw as <-.
  by apply vsub_antisym.
Qed.

(** On the example graph, the edge 0 -> 1 carries (1, 2, 0) - (0, 0, 0). *)
Lemma bond_vectors_destination_minus_source_witness :
  edata_r (apply_edges bond_vectors example_graph) !! 0%nat
    = Some (vsub (1, 2, 0)%Q (0, 0, 0)%Q) ∧
  (∀ w, edata_r (apply_edges bond_vectors example_graph) !! 0%nat = Some w →
        veq w (vsub (0, 0, 0)%Q (1, 2, 0)%Q) →
        veq (1, 2, 0)%Q (0, 0, 0)%Q).
Proof.
  apply (bond_vectors_destination_minus_source example_graph 0 0 1). reflexivity.
Defined.

(** ** The graph attached to a sample *)

Section SampleGraph.
Context {E : Externals}.

Lemma sample_graph_edata (self : Jarvis2dSTEMGraphDataset)
    (predicted_label : ndarray) (image_ : image) (g : DGLGraph) (e u v : nat) :
  sample_graph self predicted_label image_ = Ok g →
  dgl_edges g !! e = Some (u, v) →
  edata_r g !! e
    = Some (vscale (vsub (ndata_pos g !!! v) (ndata_pos g !!! u))
                   (px_scale (base self))).
Proof.
  unfold sample_graph.
  destruct (atom_mask_to_graph _ _ _ _ _) as [[g0 props]|err]; [|done].
  cbn [mbind result_bind]. unfold from_networkx.
  destruct (nx_nodes g0) as [|n0 nodes] eqn:Hnodes; [done|].
  intros [= <-]. set (g1 := directed_graph g0).
  change (dgl_edges g1 !! e = Some (u, v) →
          ((λ w, vscale w (px_scale (base self)))
             <$> edata_r (apply_edges bond_vectors g1)) !! e
          = Some (vscale (vsub (ndata_pos g1 !!! v) (ndata_pos g1 !!! u))
                         (px_scale (base self)))).
  intros He. by rewrite list_lookup_fmap, (apply_edges_bond_vectors g1 e u v He).
Qed.
End SampleGraph.

(** C1 (the code departs from the claim). On the two-atom structure the
    node positions are already in angstrom, (0, 0, 0) and (1, 0, 0), one
    angstrom apart; the stored edge attribute of the edge 0 -> 1 is
    (0.1, 0, 0), the bond vector multiplied once more by the pixel scale,
    and differs from [pos(1) - pos(0)]. *)
Theorem getitem_edge_vectors_scaled_twice :
  ∃ ds tg smp gen g,
    two_atoms_dataset = Ok (ds, tg) ∧
    Jarvis2dSTEMGraphDataset_getitem (E := example_externals) ds 0 0%Z
      = Ok (smp, gen) ∧
    s_g smp = Some g ∧
    dgl_edges g = [(0, 1); (1, 0)]%nat ∧
    Forall2 veq (ndata_pos g) [(0, 0, 0); (1, 0, 0)]%Q ∧
    Forall2 veq (edata_r g) [(1 # 10, 0, 0); (- (1 # 10), 0, 0)]%Q ∧
    (norm2 (vsub (ndata_pos g !!! 1%nat) (ndata_pos g !!! 0%nat)) == 1)%Q ∧
    (norm2 (edata_r g !!! 0%nat) == 1 # 100)%Q ∧
    ¬ veq (edata_r g !!! 0%nat)
          (vsub (ndata_pos g !!! 1%nat) (ndata_pos g !!! 0%nat)).
Proof.
  do 5 eexists.
  split; [vm_compute; reflexivity|].
  split; [vm_compute; reflexivity|].
  split; [reflexivity|].
  split; [reflexivity|].
  split; [repeat constructor|].
  split; [repeat constructor|].
  split; [reflexivity|].
  split; [reflexivity|].
  intros (H & _ & _). vm_compute in H. discriminate H.
Qed.

(** ** Radius graph *)

Lemma dist2_nonneg (a b : point) : (0 <= dist2 a b)%Q.
Proof.
  unfold dist2, Qsq.
  set (x := (a.1 - b.1)%Q). set (y := (a.2 - b.2)%Q).
  Lqa.nra.
Qed.

(** The exact distance against a radius, in terms of squares. *)
Lemma distance_le (r : Q) (a b : point) :
  (distance a b <= Q2R r)%R ↔ (0 <= r)%Q ∧ (dist2 a b <= Qsq r)%Q.
Proof.
  unfold distance.
  pose proof (dist2_nonneg a b) as Hd. apply Qle_Rle in Hd.
  rewrite RMicromega.Q2R_0 in Hd.
  split.
  - intros Hle. pose proof (sqrt_pos (Q2R (dist2 a b))) as Hs.
    split.
    + apply Rle_Qle. rewrite RMicromega.Q2R_0. lra.
    + apply Rle_Qle. unfold Qsq. rewrite Q2R_mult.
      rewrite <- (sqrt_sqrt (Q2R (dist2 a b))) by done.
      apply Rmult_le_compat; done.
  - intros [Hr Hle]. apply Qle_Rle in Hr, Hle.
    rewrite RMicromega.Q2R_0 in Hr. unfold Qsq in Hle. rewrite Q2R_mult in Hle.
    rewrite <- (sqrt_square (Q2R r)) by done.
    by apply sqrt_le_1_alt.
Qed.

(** The tree's test does not depend on the order of the two points nor on
    the sign of the radius. *)
Lemma fsub_antisym (x y : Q) : fsub y x = (- fsub x y)%Q.
Proof. unfold fsub. rewrite <- b64_opp. apply b64_comp. ring. Qed.

Lemma fmul_opp_opp (x : Q) : fmul (- x) (- x) = fmul x x.
Proof. unfold fmul. rewrite b64_opp. apply b64_comp. ring. Qed.

Lemma fdist2_sym (a b : point) : fdist2 a b = fdist2 b a.
Proof.
  unfold fdist2. cbv zeta.
  by rewrite (fsub_antisym a.1 b.1), (fsub_antisym a.2 b.2), !fmul_opp_opp.
Qed.

Lemma within_sym (r : Q) (a b : point) : within r a b = within r b a.
Proof. unfold within. by rewrite fdist2_sym. Qed.

Lemma within_opp (r : Q) (a b : point) : within (- r) a b = within r a b.
Proof. unfold within. by rewrite fmul_opp_opp. Qed.

Lemma elem_of_index_pairs (n i j : nat) :
  (i, j) ∈ index_pairs n ↔ (i < j < n)%nat.
Proof.
  unfold index_pairs. rewrite list_elem_of_bind. split.
  - intros (i' & Hj & Hi). apply list_elem_of_bind in Hj as (j' & Hp & Hj).
    apply list_elem_of_singleton in Hp. inversion Hp; subst.
    apply elem_of_seq in Hi, Hj. lia.
  - intros Hij. exists i. split; [|apply elem_of_seq; lia].
    apply list_elem_of_bind. exists j. split; [by apply list_elem_of_singleton|].
    apply elem_of_seq. lia.
Qed.

Lemma NoDup_index_pairs (n : nat) : NoDup (index_pairs n).
Proof.
  unfold index_pairs. apply NoDup_bind; [| |apply NoDup_seq].
  - intros i1 i2 [i j] _ _ H1 H2.
    apply list_elem_of_bind in H1 as (j1 & Hp1 & _).
    apply list_elem_of_bind in H2 as (j2 & Hp2 & _).
    apply list_elem_of_singleton in Hp1, Hp2. congruence.
  - intros i _. apply NoDup_bind; [| |apply NoDup_seq].
    + intros j1 j2 p _ _ H1 H2.
      apply list_elem_of_singleton in H1, H2. congruence.
    + intros j _. apply NoDup_singleton.
Qed.

Lemma elem_of_query_pairs (points : list point) (r : Q) (i j : nat) :
  (i, j) ∈ query_pairs points r ↔
  (i < j)%nat ∧ ∃ a b, points !! i = Some a ∧ points !! j = Some b ∧
                       within r a b = true.
Proof.
  unfold query_pairs.
  rewrite list_elem_of_In, filter_In, <- list_elem_of_In, elem_of_index_pairs.
  simpl. split.
  - intros [Hij Hw].
    destruct (points !! i) as [a|] eqn:Ha; [|done].
    destruct (points !! j) as [b|] eqn:Hb; [|done].
    split; [lia|]. by exists a, b.
  - intros (Hij & a & b & Ha & Hb & Hw). rewrite Ha, Hb. split; [|done].
    apply lookup_lt_Some in Hb. lia.
Qed.

Lemma NoDup_query_pairs (points : list point) (r : Q) : NoDup (query_pairs points r).
Proof.
  unfold query_pairs.
  apply NoDup_ListNoDup, List.NoDup_filter, NoDup_ListNoDup, NoDup_index_pairs.
Qed.

Section MaskToGraphFacts.
Variable equivalent_diameter_of : nat → Q.

(** What a successful call returns, in terms of the table of regions. *)
Lemma atom_mask_to_graph_Ok label_ image_ px_angstrom cutoff_angstrom g props :
  atom_mask_to_graph equivalent_diameter_of label_ image_ px_angstrom cutoff_angstrom
    = Ok (g, props) →
  g = {| graph_px_angstrom := px_angstrom;
         nx_nodes := imap (node_of px_angstrom) props;
         nx_edges := query_pairs (points_of px_angstrom props) cutoff_angstrom |}.
Proof.
  unfold atom_mask_to_graph.
  destruct (image_max image_) as [m|e]; [|done]. cbn.
  destruct (regionprops_table _ _ _) as [props'|e]; [|done]. cbn.
  by intros [= <- <-].
Qed.

(** The undirected edges over the table: rows [i] and [j] are joined when
    the tree's test holds of their points. *)
Lemma has_edge_query_pairs px_angstrom cutoff_angstrom props i j ri rj :
  i ≠ j → props !! i = Some ri → props !! j = Some rj →
  ((i, j) ∈ query_pairs (points_of px_angstrom props) cutoff_angstrom ∨
   (j, i) ∈ query_pairs (points_of px_angstrom props) cutoff_angstrom) ↔
  within cutoff_angstrom (point_of px_angstrom ri) (point_of px_angstrom rj) = true.
Proof.
  intros Hne Hi Hj. rewrite !elem_of_query_pairs.
  unfold points_of. rewrite !list_lookup_fmap, Hi, Hj. cbn. split.
  - intros [(_ & a & b & [= <-] & [= <-] & Hw)|(_ & a & b & [= <-] & [= <-] & Hw)];
      [done|by rewrite within_sym].
  - intros Hw. destruct (decide (i < j)%nat) as [Hlt|Hge]; [left|right].
    + split; [done|]. by eexists _, _.
    + split; [lia|]. eexists _, _. split; [done|]. split; [done|].
      by rewrite within_sym.
Qed.
End MaskToGraphFacts.

(** C5, as amended. The edges built by [atom_mask_to_graph] are decided by
    a [<=] comparison of computed values: the nodes are the rows of the
    region table, and two distinct rows are joined if and only if the sum of
    the squared coordinate differences of their points, computed in
    binary64 from the scaled centroids, is at most the squared cutoff,
    equality included; every edge is stored once, as [(i, j)] with [i < j]
    between existing nodes, so there is no self-edge and no unordered pair
    occurs twice. *)
Theorem atom_mask_to_graph_edges_within_cutoff (equivalent_diameter_of : nat → Q)
    (label_ : ndarray) (image_ : image) (px_angstrom cutoff_angstrom : Q)
    (g : nxGraph) (props : list props_row) :
  atom_mask_to_graph equivalent_diameter_of label_ image_ px_angstrom cutoff_angstrom
    = Ok (g, props) →
  nx_nodes g = imap (node_of px_angstrom) props ∧
  (∀ i j ri rj, i ≠ j → props !! i = Some ri → props !! j = Some rj →
     (has_edge g i j ↔
      (fdist2 (point_of px_angstrom ri) (point_of px_angstrom rj)
       <= fmul cutoff_angstrom cutoff_angstrom)%Q)) ∧
  (∀ i j, (i, j) ∈ nx_edges g →
     (i < j)%nat ∧ ((j, i) ∉ nx_edges g) ∧
     is_Some (nx_nodes g !! i) ∧ is_Some (nx_nodes g !! j)) ∧
  NoDup (nx_edges g).
Proof.
  intros Hrun. apply atom_mask_to_graph_Ok in Hrun as ->. cbn.
  split; [done|]. split; [|split; [|apply NoDup_query_pairs]].
  - intros i j ri rj Hne Hi Hj. unfold has_edge. cbn.
    rewrite (has_edge_query_pairs _ _ _ _ _ _ _ Hne Hi Hj).
    unfold within. apply Qle_bool_iff.
  - intros i j Hin. pose proof Hin as Hin'.
    apply elem_of_query_pairs in Hin' as (Hlt & a & b & Ha & Hb & _).
    split; [done|]. split.
    + rewrite elem_of_query_pairs. lia.
    + unfold points_of in Ha, Hb. rewrite list_lookup_fmap in Ha, Hb.
      rewrite !list_lookup_imap.
      destruct (props !! i); [|done]. destruct (props !! j); [|done]. by split.
Qed.

(** Two atoms ten pixels apart at 0.1 angstrom per pixel and a cutoff of one
    angstrom: the computed squared distance equals the squared cutoff, and
    the pair is joined. *)
Lemma atom_mask_to_graph_edges_within_cutoff_witness :
  ∃ g props,
    atom_mask_to_graph Qnat two_atoms_mask two_atoms_image (1 # 10) 1 = Ok (g, props) ∧
    nx_edges g = [(0, 1)%nat] ∧
    nx_nodes g = imap (node_of (1 # 10)) props ∧
    (∀ i j ri rj, i ≠ j → props !! i = Some ri → props !! j = Some rj →
       (has_edge g i j ↔
        (fdist2 (point_of (1 # 10) ri) (point_of (1 # 10) rj) <= fmul 1 1)%Q)) ∧
    (∀ i j, (i, j) ∈ nx_edges g →
       (i < j)%nat ∧ ((j, i) ∉ nx_edges g) ∧
       is_Some (nx_nodes g !! i) ∧ is_Some (nx_nodes g !! j)) ∧
    NoDup (nx_edges g).
Proof.
  do 2 eexists. split; [vm_compute; reflexivity|]. split; [reflexivity|].
  eapply (atom_mask_to_graph_edges_within_cutoff Qnat two_atoms_mask two_atoms_image
            (1 # 10) 1).
  vm_compute; reflexivity.
Defined.

(** C5, as stated, fails at the boundary, in both directions.  At 0.1
    angstrom per pixel and the cutoff 4, two atoms at columns 1 and 41 have
    nominal positions exactly 4 angstrom apart and are not joined: the
    products [41 * 0.1] and [1 * 0.1] differ by slightly more than 4 in
    binary64.  Two atoms at columns 2 and 42 are joined although the points
    handed to the tree are more than 4 apart: their difference rounds to
    4. *)
Lemma atom_mask_to_graph_cutoff_boundary_rounded :
  (∃ g props ni nj,
     atom_mask_to_graph Qnat (forty_apart_mask 1) forty_apart_image (1 # 10) 4
       = Ok (g, props) ∧
     nx_nodes g = [(0, ni); (1, nj)]%nat ∧
     (distance (xy (pos ni)) (xy (pos nj)) <= Q2R 4)%R ∧
     ¬ has_edge g 0 1) ∧
  (∃ g props a b,
     atom_mask_to_graph Qnat (forty_apart_mask 2) forty_apart_image (1 # 10) 4
       = Ok (g, props) ∧
     points_of (1 # 10) props = [a; b] ∧
     has_edge g 0 1 ∧
     ¬ (distance a b <= Q2R 4)%R).
Proof.
  split.
  - do 4 eexists. split; [vm_compute; reflexivity|]. split; [reflexivity|]. split.
    + apply distance_le. split; [done|]. vm_compute. discriminate.
    + intros [H|H]; vm_compute in H; inversion H.
  - do 4 eexists. split; [vm_compute; reflexivity|]. split; [reflexivity|]. split.
    + left. vm_compute. left.
    + intros H. apply distance_le in H as [_ H]. vm_compute in H. by apply H.
Qed.

(** Just below the boundary the pair is not joined. *)
Example atom_mask_to_graph_below_cutoff :
  ∃ g props,
    atom_mask_to_graph Qnat two_atoms_mask two_atoms_image (1 # 10) (99 # 100)
      = Ok (g, props) ∧
    length (nx_nodes g) = 2%nat ∧ nx_edges g = [].
Proof. do 2 eexists. split; [vm_compute; reflexivity|]. by split. Qed.

(** On these inputs the rounding [b64] returns what the machine's binary64
    arithmetic returns: the products [n * 0.1], their differences from
    [40 * 0.1], and the quotients [n / d] of small integers. *)
Example b64_agrees_with_binary64 :
  forallb (λ n, Qeq_bool (fmul (Qnat n) (1 # 10))
                  (Q_of_float (float_of_nat n * 0x1.999999999999ap-4)))
          (seq 0 100) = true ∧
  forallb (λ n, Qeq_bool (fsub (fmul (Qnat n) (1 # 10)) (fmul 40 (1 # 10)))
                  (Q_of_float (float_of_nat n * 0x1.999999999999ap-4
                               - 40 * 0x1.999999999999ap-4)))
          (seq 0 100) = true ∧
  forallb (λ n, forallb (λ d, Qeq_bool (b64 (Qnat n / Qnat d))
                                (Q_of_float (float_of_nat n / float_of_nat d)))
                        (seq 1 12))
          (seq 0 40) = true.
Proof. split; [|split]; vm_compute; reflexivity. Qed.

(** ** Connected components and region properties *)

Lemma shape_of_np_zeros {A} (a : list (list A)) :
  shape_of (np_zeros (shape_of a)) = shape_of a.
Proof.
  unfold shape_of, np_zeros. cbn [fst snd]. rewrite length_replicate.
  destruct a as [|row a]; [done|]. cbn. by rewrite length_replicate.
Qed.

Lemma shape_of_setitem (a : ndarray) (p : pixel) (v : Z) :
  shape_of (setitem a p v) = shape_of a.
Proof.
  unfold shape_of, setitem. rewrite length_alter. f_equal.
  destruct a as [|row a]; [done|].
  destruct p as [[|r] c]; cbn; [|done]. by rewrite length_insert.
Qed.

Lemma shape_of_flood (fuel : nat) (mask : ndarray) (v lab : Z) :
  ∀ stack out, shape_of (flood fuel mask v lab stack out) = shape_of out.
Proof.
  induction fuel as [|fuel IH]; intros stack out; [done|].
  cbn [flood]. destruct stack as [|p stack]; [done|].
  case_bool_decide; rewrite IH; [apply shape_of_setitem|done].
Qed.

Lemma shape_of_label_step (mask : ndarray) (st : ndarray * Z) (p : pixel) :
  shape_of (label_step mask st p).1 = shape_of st.1.
Proof.
  unfold label_step. destruct st as [out count].
  destruct (getitem mask p) as [v|]; [|done].
  destruct (getitem out p) as [[| |]|]; try done.
  case_bool_decide; [done|]. cbn [fst]. apply shape_of_flood.
Qed.

Lemma shape_of_label_scan (mask : ndarray) (ps : list pixel) :
  ∀ st, shape_of (foldl (label_step mask) st ps).1 = shape_of st.1.
Proof.
  induction ps as [|p ps IH]; intros st; [done|].
  cbn [foldl]. rewrite IH. apply shape_of_label_step.
Qed.

Lemma shape_of_measure_label (mask : ndarray) :
  shape_of (measure_label mask).1 = shape_of mask.
Proof.
  unfold measure_label. rewrite shape_of_label_scan. apply shape_of_np_zeros.
Qed.

Lemma shape_of_image_div (im : image) (m : Q) :
  shape_of (image_div im m) = shape_of im.
Proof.
  unfold shape_of, image_div. rewrite length_map. f_equal.
  destruct im as [|row im]; [done|]. cbn. by rewrite length_map.
Qed.

Lemma getitem_image_div (im : image) (m : Q) (p : pixel) :
  getitem (image_div im m) p = (λ x, np_div x m) <$> getitem im p.
Proof.
  unfold getitem, image_div.
  change (map ?f ?l) with (f <$> l). rewrite list_lookup_fmap.
  destruct (im !! p.1) as [row|]; [|done]. cbn.
  change (map ?f ?l) with (f <$> l). by rewrite list_lookup_fmap.
Qed.

(** A mask without foreground has no component. *)
Lemma measure_label_background (mask : ndarray) :
  Forall (Forall (λ v, v = 0%Z)) mask →
  measure_label mask = (np_zeros (shape_of mask), 0%Z).
Proof.
  intros Hbg. unfold measure_label.
  assert (Hstep : ∀ st p, label_step mask st p = st).
  { intros [out count] p. unfold label_step.
    destruct (getitem mask p) as [v|] eqn:Hv; [|done].
    destruct (getitem out p) as [[| |]|]; try done.
    rewrite bool_decide_eq_true_2; [done|].
    unfold getitem in Hv. destruct (mask !! p.1) as [row|] eqn:Hrow; [|done].
    cbn in Hv. rewrite Forall_lookup in Hbg. specialize (Hbg _ _ Hrow).
    rewrite Forall_lookup in Hbg. by eapply Hbg. }
  generalize (np_zeros (shape_of mask), 0%Z) as st.
  induction (grid (shape_of mask)) as [|p ps IH]; intros st; [done|].
  cbn [foldl]. by rewrite Hstep, IH.
Qed.

Lemma image_max_nonempty (im : image) :
  concat im ≠ [] → returns (image_max im).
Proof. unfold image_max. destruct (concat im); [done|]. by eexists. Qed.

Lemma image_max_Ok_nonempty (im : image) (m : Q) :
  image_max im = Ok m → concat im ≠ [].
Proof. unfold image_max. by destruct (concat im). Qed.

(** C4. For an all-background mask (and a non-empty intensity image of the
    mask's shape) [atom_mask_to_graph] returns, without raising, a graph
    with no node and no edge, and an empty table of regions. *)
Theorem atom_mask_to_graph_empty_mask (equivalent_diameter_of : nat → Q)
    (label_ : ndarray) (image_ : image) (px_angstrom cutoff_angstrom : Q) :
  Forall (Forall (λ v, v = 0%Z)) label_ →
  shape_of label_ = shape_of image_ →
  concat image_ ≠ [] →
  atom_mask_to_graph equivalent_diameter_of label_ image_ px_angstrom cutoff_angstrom
    = Ok ({| graph_px_angstrom := px_angstrom; nx_nodes := []; nx_edges := [] |}, []).
Proof.
  intros Hbg Hshape Hne. unfold atom_mask_to_graph.
  rewrite (measure_label_background label_ Hbg).
  destruct (image_max_nonempty image_ Hne) as [m ->].
  unfold regionprops_table. cbn [mbind result_bind fst snd].
  rewrite bool_decide_eq_true_2 by (by left).
  reflexivity.
Qed.

(** A 2 x 2 background mask over an arbitrary image. *)
Lemma atom_mask_to_graph_empty_mask_witness :
  atom_mask_to_graph Qnat [[0; 0]; [0; 0]]%Z [[1; 2]; [3; 4]]%Q (1 # 10) 4
    = Ok ({| graph_px_angstrom := 1 # 10; nx_nodes := []; nx_edges := [] |}, []).
Proof.
  apply (atom_mask_to_graph_empty_mask Qnat [[0; 0]; [0; 0]]%Z [[1; 2]; [3; 4]]%Q
           (1 # 10) 4).
  - repeat constructor.
  - reflexivity.
  - discriminate.
Defined.

(** ** The flood fill has fuel to spare *)

Lemma zeros_app (a b : list Z) : zeros (a ++ b) = (zeros a + zeros b)%nat.
Proof. unfold zeros. by rewrite List.filter_app, length_app. Qed.

Lemma zeros_le (row : list Z) : (zeros row ≤ length row)%nat.
Proof. apply List.filter_length_le. Qed.

Lemma unlabelled_app (a b : ndarray) :
  unlabelled (a ++ b) = (unlabelled a + unlabelled b)%nat.
Proof. unfold unlabelled. by rewrite concat_app, zeros_app. Qed.

Lemma unlabelled_cons (row : list Z) (a : ndarray) :
  unlabelled (row :: a) = (zeros row + unlabelled a)%nat.
Proof. unfold unlabelled. cbn [concat]. by rewrite zeros_app. Qed.

Lemma zeros_insert (row : list Z) (i : nat) (lab : Z) :
  row !! i = Some 0%Z → lab ≠ 0%Z →
  S (zeros (<[i := lab]> row)) = zeros row.
Proof.
  intros Hi Hlab.
  rewrite insert_take_drop by (by eapply lookup_lt_Some).
  transitivity (zeros (take i row ++ [0%Z] ++ drop (S i) row));
    [|by rewrite <- (take_drop_middle row i 0%Z Hi) at 3].
  change (lab :: drop (S i) row) with ([lab] ++ drop (S i) row).
  rewrite !zeros_app.
  assert (zeros [lab] = 0%nat) as ->
    by (unfold zeros; cbn; by rewrite bool_decide_eq_false_2).
  assert (zeros [0%Z] = 1%nat) as -> by done.
  lia.
Qed.

Lemma unlabelled_alter (f : list Z → list Z) (out : ndarray) :
  ∀ i row, out !! i = Some row →
    S (zeros (f row)) = zeros row →
    S (unlabelled (alter f i out)) = unlabelled out.
Proof.
  induction out as [|row0 out IH]; intros i row Hi Hrow; [done|].
  destruct i as [|i]; cbn in Hi.
  - injection Hi as ->. cbn [alter list_alter]. rewrite !unlabelled_cons. lia.
  - change (alter f (S i) (row0 :: out)) with (row0 :: alter f i out).
    rewrite !unlabelled_cons. specialize (IH i row Hi Hrow). lia.
Qed.

Lemma unlabelled_setitem (out : ndarray) (p : pixel) (lab : Z) :
  getitem out p = Some 0%Z → lab ≠ 0%Z →
  S (unlabelled (setitem out p lab)) = unlabelled out.
Proof.
  unfold getitem, setitem. intros Hp Hlab.
  destruct (out !! p.1) as [row|] eqn:Hrow; [|done]. cbn in Hp.
  eapply unlabelled_alter; [done|]. by apply zeros_insert.
Qed.

Lemma unlabelled_bound (shape : nat * nat) (out : ndarray) :
  shaped shape out → (unlabelled out ≤ shape.1 * shape.2)%nat.
Proof.
  intros [Hlen Hrows]. rewrite <- Hlen. clear Hlen.
  induction Hrows as [|row out Hrow _ IH]; [cbn; lia|].
  rewrite unlabelled_cons. cbn [length].
  pose proof (zeros_le row). nia.
Qed.

Lemma length_neighbours8 (p : pixel) : (length (neighbours8 p) ≤ 9)%nat.
Proof.
  unfold neighbours8.
  etransitivity; [apply List.filter_length_le|].
  destruct p as [[|r] [|c]]; cbn; lia.
Qed.

(** Once the fuel covers ten steps per unlabelled pixel plus the stack,
    more fuel changes nothing: the fill has run to an empty stack. *)
Lemma flood_fuel_spare (mask : ndarray) (v lab : Z) (fuel : nat) :
  lab ≠ 0%Z →
  ∀ stack out extra,
    (10 * unlabelled out + length stack ≤ fuel)%nat →
    flood (fuel + extra) mask v lab stack out = flood fuel mask v lab stack out.
Proof.
  intros Hlab. induction fuel as [|fuel IH]; intros stack out extra Hfuel.
  - destruct stack; [|cbn in Hfuel; lia]. by destruct extra.
  - cbn [Nat.add flood]. destruct stack as [|p stack]; [done|].
    cbn [length] in Hfuel. case_bool_decide as Hp.
    + destruct Hp as [_ Hout].
      pose proof (unlabelled_setitem out p lab Hout Hlab).
      pose proof (length_neighbours8 p).
      apply IH. rewrite length_app. lia.
    + apply IH. lia.
Qed.

Lemma flood_fuel_enough (mask : ndarray) (v lab : Z) (p : pixel) (out : ndarray)
    (extra : nat) :
  lab ≠ 0%Z → shaped (shape_of mask) out →
  flood (flood_fuel (shape_of mask) + extra) mask v lab [p] out
  = flood (flood_fuel (shape_of mask)) mask v lab [p] out.
Proof.
  intros Hlab Hout. apply flood_fuel_spare; [done|].
  pose proof (unlabelled_bound _ _ Hout). unfold flood_fuel. cbn [length]. lia.
Qed.

Lemma shaped_flood (shape : nat * nat) (mask : ndarray) (v lab : Z) (fuel : nat) :
  ∀ stack out, shaped shape out → shaped shape (flood fuel mask v lab stack out).
Proof.
  induction fuel as [|fuel IH]; intros stack out Hout; [done|].
  cbn [flood]. destruct stack as [|p stack]; [done|].
  case_bool_decide; apply IH; [by apply shaped_setitem|done].
Qed.

(** Throughout the raster scan the labelled image keeps the mask's shape and
    the component count stays non-negative, so every flood fill is started
    with a non-zero number on an image that [flood_fuel] covers. *)
Lemma label_scan_invariant (mask : ndarray) (ps : list pixel) :
  ∀ st, shaped (shape_of mask) st.1 → (0 ≤ st.2)%Z →
    shaped (shape_of mask) (foldl (label_step mask) st ps).1 ∧
    (0 ≤ (foldl (label_step mask) st ps).2)%Z.
Proof.
  induction ps as [|p ps IH]; intros st Hs Hc; [done|].
  cbn [foldl]. apply IH; unfold label_step; destruct st as [out count];
    cbn [fst snd] in *;
    destruct (getitem mask p) as [v|]; try done;
    destruct (getitem out p) as [[| |]|]; try done;
    case_bool_decide; try done; cbn [fst snd]; [by apply shaped_flood|lia].
Qed.

(** ** Normalisation of the intensity image *)

Lemma foldl_Qmax2_spec (xs : list Q) : ∀ x,
  foldl Qmax2 x xs ∈ x :: xs ∧ ∀ y, y ∈ x :: xs → (y <= foldl Qmax2 x xs)%Q.
Proof.
  induction xs as [|z xs IH]; intros x; cbn [foldl].
  - split; [left|]. intros y Hy. apply list_elem_of_singleton in Hy as ->.
    apply Qle_refl.
  - destruct (IH (Qmax2 x z)) as [Hin Hle]. split.
    + apply elem_of_cons in Hin as [Heq|Hin]; [|by do 2 right].
      rewrite Heq. unfold Qmax2. destruct (Qle_bool x z); [right|]; left.
    + intros y Hy.
      assert (Hxz : (x <= Qmax2 x z ∧ z <= Qmax2 x z)%Q).
      { unfold Qmax2. destruct (Qle_bool x z) eqn:Hb.
        - apply Qle_bool_iff in Hb. split; [done|apply Qle_refl].
        - split; [apply Qle_refl|]. apply Qlt_le_weak, Qnot_le_lt.
          intros Hc. apply Qle_bool_iff in Hc. congruence. }
      destruct Hxz as [Hx Hz].
      assert (Hm : (Qmax2 x z <= foldl Qmax2 (Qmax2 x z) xs)%Q) by (apply Hle; left).
      apply elem_of_cons in Hy as [->|Hy]; [by eapply Qle_trans|].
      apply elem_of_cons in Hy as [->|Hy]; [by eapply Qle_trans|].
      apply Hle. by right.
Qed.

Lemma image_max_upper (im : image) (m : Q) (p : pixel) (x : Q) :
  image_max im = Ok m → getitem im p = Some x → (x <= m)%Q.
Proof.
  unfold image_max, getitem. intros Hm Hx.
  destruct (im !! p.1) as [row|] eqn:Hrow; [|done]. cbn in Hx.
  assert (Hin : x ∈ concat im).
  { apply list_elem_of_In, in_concat. exists row.
    split; apply list_elem_of_In, list_elem_of_lookup; eauto. }
  destruct (concat im) as [|y ys]; [done|]. injection Hm as <-.
  by apply foldl_Qmax2_spec.
Qed.

Lemma np_div_nonzero (x m : Q) : ¬ (m == 0)%Q → np_div x m = Fin (x / m).
Proof.
  intros Hm. unfold np_div. destruct (Qeq_bool m 0) eqn:Hb; [|done].
  by apply Qeq_bool_iff in Hb.
Qed.

Lemma np_div_zero (x m : Q) :
  (m == 0)%Q → (x <= m)%Q → np_div x m = NaN ∨ np_div x m = NInf.
Proof.
  intros Hm Hx. unfold np_div.
  rewrite (proj2 (Qeq_bool_iff m 0) Hm).
  destruct (Qltb 0 x) eqn:Hpos.
  - apply Qltb_lt in Hpos. rewrite Hm in Hx. exfalso. by eapply Qlt_not_le.
  - destruct (Qltb x 0); [by right|by left].
Qed.

(** C3, as amended. [atom_mask_to_graph] does not inspect the maximum of
    the intensity image: for every mask and non-empty intensity image of the
    same shape it returns the graph of the regions, the region properties
    being computed on the image divided, pixel by pixel, by its own maximum
    [m]; for [m] different from zero every quotient is the finite [x / m];
    for [m] equal to zero every quotient is numpy's [nan] or [-inf] and the
    call still returns. *)
Theorem atom_mask_to_graph_divides_unchecked (equivalent_diameter_of : nat → Q)
    (label_ : ndarray) (image_ : image) (px_angstrom cutoff_angstrom m : Q) :
  shape_of label_ = shape_of image_ →
  image_max image_ = Ok m →
  ∃ props,
    regionprops_table equivalent_diameter_of (measure_label label_)
      (image_div image_ m) = Ok props ∧
    atom_mask_to_graph equivalent_diameter_of label_ image_ px_angstrom cutoff_angstrom
      = Ok ({| graph_px_angstrom := px_angstrom;
               nx_nodes := imap (node_of px_angstrom) props;
               nx_edges := query_pairs (points_of px_angstrom props) cutoff_angstrom |},
            props) ∧
    (∀ p x, getitem image_ p = Some x →
            getitem (image_div image_ m) p = Some (np_div x m)) ∧
    (¬ (m == 0)%Q → ∀ x, np_div x m = Fin (x / m)) ∧
    ((m == 0)%Q → ∀ p x, getitem image_ p = Some x →
                         np_div x m = NaN ∨ np_div x m = NInf).
Proof.
  intros Hshape Hmax.
  assert (Hprops : returns (regionprops_table equivalent_diameter_of
                              (measure_label label_) (image_div image_ m))).
  { unfold regionprops_table.
    rewrite bool_decide_eq_true_2; [by eexists|].
    right. by rewrite shape_of_measure_label, shape_of_image_div. }
  destruct Hprops as [props Hprops]. exists props.
  split; [done|]. split; [|split; [|split]].
  - unfold atom_mask_to_graph. rewrite Hmax. cbn [mbind result_bind].
    by rewrite Hprops.
  - intros p x Hx. by rewrite getitem_image_div, Hx.
  - intros Hm x. by apply np_div_nonzero.
  - intros Hm p x Hx. apply np_div_zero; [done|]. by eapply image_max_upper.
Qed.

(** A one-pixel atom over a zero image. *)
Lemma atom_mask_to_graph_divides_unchecked_witness :
  ∃ props,
    regionprops_table Qnat (measure_label [[1%Z]]) (image_div [[0%Q]] 0) = Ok props ∧
    atom_mask_to_graph Qnat [[1%Z]] [[0%Q]] (1 # 10) 4
      = Ok ({| graph_px_angstrom := 1 # 10;
               nx_nodes := imap (node_of (1 # 10)) props;
               nx_edges := query_pairs (points_of (1 # 10) props) 4 |},
            props) ∧
    (∀ p x, getitem [[0%Q]] p = Some x →
            getitem (image_div [[0%Q]] 0) p = Some (np_div x 0)) ∧
    (¬ (0 == 0)%Q → ∀ x, np_div x 0 = Fin (x / 0)) ∧
    ((0 == 0)%Q → ∀ p x, getitem [[0%Q]] p = Some x →
                         np_div x 0 = NaN ∨ np_div x 0 = NInf).
Proof.
  apply (atom_mask_to_graph_divides_unchecked Qnat [[1%Z]] [[0%Q]] (1 # 10) 4 0);
    reflexivity.
Defined.

(** C3, as stated, fails: over an intensity image whose maximum is zero the
    call does not raise; it returns a graph whose node has intensity [nan]. *)
Lemma atom_mask_to_graph_zero_maximum_returns :
  image_max [[0%Q]] = Ok 0%Q ∧
  ¬ raises (atom_mask_to_graph Qnat [[1%Z]] [[0%Q]] (1 # 10) 4) ∧
  ∃ g props,
    atom_mask_to_graph Qnat [[1%Z]] [[0%Q]] (1 # 10) 4 = Ok (g, props) ∧
    (λ n : nat * node_attrs, intensity n.2) <$> nx_nodes g = [NaN].
Proof.
  split; [reflexivity|]. split.
  - intros [e He]. vm_compute in He. discriminate He.
  - do 2 eexists. split; [vm_compute; reflexivity|reflexivity].
Qed.

(** ** The train/validation/test split *)

Lemma py_int_tenth (N : nat) : py_int (Qnat N * (1 # 10)) = (Z.of_nat N / 10)%Z.
Proof.
  unfold py_int, Qnat. cbn. rewrite Z.mul_1_r. apply Z.quot_div_nonneg; lia.
Qed.

Lemma Qfloor_tenth (N : nat) : Qfloor ((1 # 10) * Qnat N) = (Z.of_nat N / 10)%Z.
Proof. unfold Qnat. cbn. by destruct (Z.of_nat N). Qed.

Lemma slice_bound_nonneg (len i : nat) :
  (i ≤ len)%nat → slice_bound len (Z.of_nat i) = i.
Proof.
  intros Hi. unfold slice_bound.
  destruct (Z.ltb_spec (Z.of_nat i) 0); lia.
Qed.

Lemma py_slice_nonneg {A} (l : list A) (lo hi : nat) :
  (lo ≤ hi ≤ length l)%nat →
  py_slice l (Z.of_nat lo) (Z.of_nat hi) = take (hi - lo) (drop lo l).
Proof.
  intros Hb. unfold py_slice. by rewrite !slice_bound_nonneg by lia.
Qed.

Lemma take_three {A} (l : list A) (a k : nat) :
  length l = (a + k + k)%nat →
  take a l ++ take k (drop a l) ++ take k (drop (a + k) l) = l.
Proof.
  intros Hlen.
  rewrite (take_ge (drop (a + k) l)) by (rewrite length_drop; lia).
  rewrite <- drop_drop, take_drop. apply take_drop.
Qed.

Section Split.
Context {E : Externals}.

(** The three index lists in terms of the permutation drawn under seed 0. *)
Lemma split_dataset_tenth (data_ : list (df_row Atoms)) (fresh : Z) (gen : torch_gen) :
  let N := length data_ in
  let k := (N / 10)%nat in
  let shuf := (randperm (manual_seed 0) N).1 in
  length shuf = N →
  split_dataset data_ (1 # 10) (1 # 10) fresh gen
  = ((take (N - (k + k)) shuf,
      take k (drop (N - (k + k)) shuf),
      take k (drop (N - (k + k) + k) shuf)), manual_seed fresh).
Proof.
  intros N k shuf Hlen. unfold split_dataset. fold N.
  rewrite !py_int_tenth.
  destruct (randperm (manual_seed 0) N) as [shuf' gen'] eqn:Hperm.
  cbn [fst] in shuf. subst shuf.
  assert (Hk : (Z.of_nat N / 10)%Z = Z.of_nat k).
  { unfold k. by rewrite Nat2Z.inj_div. }
  assert (Hk2 : (k + k ≤ N)%nat).
  { unfold k. pose proof (Nat.Div0.mul_div_le N 10). lia. }
  rewrite Hk.
  replace (Z.of_nat N - (Z.of_nat k + Z.of_nat k))%Z
    with (Z.of_nat (N - (k + k))) by lia.
  replace (Z.of_nat (N - (k + k)) + Z.of_nat k)%Z
    with (Z.of_nat (N - (k + k) + k)) by lia.
  replace (Z.of_nat (N - (k + k) + k) + Z.of_nat k)%Z
    with (Z.of_nat (N - (k + k) + k + k)) by lia.
  change 0%Z with (Z.of_nat 0).
  rewrite !py_slice_nonneg by lia.
  rewrite drop_0.
  replace (N - (k + k) - 0)%nat with (N - (k + k))%nat by lia.
  replace (N - (k + k) + k - (N - (k + k)))%nat with k by lia.
  replace (N - (k + k) + k + k - (N - (k + k) + k))%nat with k by lia.
  done.
Qed.

(** C2. For every dataset size [N] (so for every [N >= 1]), with
    [torch.randperm(N)] under seed 0 a permutation of [0..N-1]:
    [split_dataset(0.1, 0.1)] returns index lists with
    [|val| = |test| = floor(0.1 N)] and [|train| = N - |val| - |test|],
    pairwise disjoint, whose union is exactly [{0, ..., N-1}]; and any other
    construction over [N] structures, whatever the generator state before
    it and the entropy after it, yields the same three lists. *)
Theorem split_dataset_partition (data_ : list (df_row Atoms)) (fresh : Z)
    (gen : torch_gen) :
  let N := length data_ in
  let ids := (split_dataset data_ (1 # 10) (1 # 10) fresh gen).1 in
  let train := ids.1.1 in
  let val := ids.1.2 in
  let test := ids.2 in
  (randperm (manual_seed 0) N).1 ≡ₚ seq 0 N →
  Z.of_nat (length val) = Qfloor ((1 # 10) * Qnat N) ∧
  Z.of_nat (length test) = Qfloor ((1 # 10) * Qnat N) ∧
  length train = (N - length val - length test)%nat ∧
  (length train + length val + length test = N)%nat ∧
  train ++ val ++ test ≡ₚ seq 0 N ∧
  (∀ i, i ∈ train → (i ∉ val) ∧ (i ∉ test)) ∧
  (∀ i, i ∈ val → (i ∉ test)) ∧
  (∀ i, (i < N)%nat ↔ i ∈ train ∨ i ∈ val ∨ i ∈ test) ∧
  (∀ data' fresh' gen',
     length data' = N →
     (split_dataset data' (1 # 10) (1 # 10) fresh' gen').1 = ids).
Proof.
  intros N ids train val test Hperm.
  pose proof (Permutation_length Hperm) as Hlen. rewrite length_seq in Hlen.
  pose proof (split_dataset_tenth data_ fresh gen Hlen) as Hsplit.
  cbv zeta in Hsplit. fold N in Hsplit.
  set (k := (N / 10)%nat) in *.
  set (shuf := (randperm (manual_seed 0) N).1) in *.
  assert (Hk2 : (k + k ≤ N)%nat).
  { unfold k. pose proof (Nat.Div0.mul_div_le N 10). lia. }
  assert (Htrain : train = take (N - (k + k)) shuf)
    by (unfold train, ids; by rewrite Hsplit).
  assert (Hval : val = take k (drop (N - (k + k)) shuf))
    by (unfold val, ids; by rewrite Hsplit).
  assert (Htest : test = take k (drop (N - (k + k) + k) shuf))
    by (unfold test, ids; by rewrite Hsplit).
  assert (Hlt : length train = (N - (k + k))%nat)
    by (rewrite Htrain, length_take; lia).
  assert (Hlv : length val = k)
    by (rewrite Hval, length_take, length_drop; lia).
  assert (Hle : length test = k)
    by (rewrite Htest, length_take, length_drop; lia).
  assert (Hall : train ++ val ++ test = shuf).
  { rewrite Htrain, Hval, Htest. apply take_three. lia. }
  assert (Hnd : NoDup (train ++ val ++ test)).
  { rewrite Hall, Hperm. apply NoDup_seq. }
  apply NoDup_app in Hnd as (_ & Hd1 & Hnd). apply NoDup_app in Hnd as (_ & Hd2 & _).
  rewrite Qfloor_tenth, Hlv, Hle. unfold k at 1 2. rewrite !Nat2Z.inj_div.
  split; [done|]. split; [done|]. split; [lia|]. split; [lia|].
  split; [by rewrite Hall|]. split; [|split; [done|split]].
  - intros i Hi. specialize (Hd1 i Hi). rewrite elem_of_app in Hd1. tauto.
  - intros i.
    rewrite <- !elem_of_app, Hall, Hperm, elem_of_seq. lia.
  - intros data' fresh' gen' Hlen'.
    pose proof (split_dataset_tenth data' fresh' gen') as Hsplit'.
    cbv zeta in Hsplit'. rewrite Hlen' in Hsplit'.
    unfold ids. by rewrite Hsplit, Hsplit'.
Qed.

End Split.

(** Twenty-five structures: rows 24..4 train, 3 and 2 validate, 1 and 0 test. *)
Lemma split_dataset_partition_witness :
  let ids := (split_dataset (E := example_externals) (replicate 25 two_atoms_row)
                (1 # 10) (1 # 10) 0%Z 0%Z).1 in
  ids = (rev (seq 4 21), [3; 2]%nat, [1; 0]%nat) ∧
  Z.of_nat (length ids.1.2) = Qfloor ((1 # 10) * Qnat 25) ∧
  ids.1.1 ++ ids.1.2 ++ ids.2 ≡ₚ seq 0 25.
Proof.
  intros ids. split; [vm_compute; reflexivity|].
  destruct (split_dataset_partition (E := example_externals)
              (replicate 25 two_atoms_row) 0%Z 0%Z)
    as (Hval & _ & _ & _ & Hperm & _).
  - symmetry. apply Permutation_rev.
  - split; [exact Hval|exact Hperm].
Defined.

(** ** The rational model of [int(N * 0.1)] against binary64

    For every dataset size below 5000 (the [dft_2d] table has about a
    thousand rows) the floating-point product truncates to the same integer
    as the exact one. *)
Lemma tenth_agrees_below_5000 : forallb tenth_agrees (seq 0 5000) = true.
Proof. vm_compute. reflexivity. Qed.

(** ** The split stored by the constructor *)

Section StoredSplit.
Context {E : Externals}.

Lemma Jarvis2dSTEMDataset_init_split (px_scale_ : Q) (label_mode_ : string)
    (image_data : option (list (df_row Atoms)))
    (rotation_degrees_ shift_angstrom_ zoom_pct_ : option Q)
    (to_tensor_ : option (image → image)) (fresh : Z) (gen gen' : torch_gen)
    (self : Jarvis2dSTEMDataset) :
  Jarvis2dSTEMDataset_init px_scale_ label_mode_ image_data rotation_degrees_
    shift_angstrom_ zoom_pct_ to_tensor_ fresh gen = Ok (self, gen') →
  (train_ids self, val_ids self, test_ids self)
  = (split_dataset (df self) (1 # 10) (1 # 10) fresh gen).1.
Proof.
  unfold Jarvis2dSTEMDataset_init. case_bool_decide; [done|].
  destruct (split_dataset _ _ _ _ _) as [[[train val] test] g] eqn:Hsplit.
  intros [= <- <-]. cbn [train_ids val_ids test_ids df]. by rewrite Hsplit.
Qed.

(** Two constructions over data frames of the same length store the same
    three index lists. *)
Lemma Jarvis2dSTEMDataset_init_reproducible (px1 px2 : Q) (mode1 mode2 : string)
    (data1 data2 : option (list (df_row Atoms)))
    (rot1 rot2 shift1 shift2 zoom1 zoom2 : option Q)
    (tt1 tt2 : option (image → image)) (fresh1 fresh2 : Z)
    (gen1 gen2 gen1' gen2' : torch_gen) (self1 self2 : Jarvis2dSTEMDataset) :
  (randperm (manual_seed 0) (length (df self1))).1 ≡ₚ seq 0 (length (df self1)) →
  Jarvis2dSTEMDataset_init px1 mode1 data1 rot1 shift1 zoom1 tt1 fresh1 gen1
    = Ok (self1, gen1') →
  Jarvis2dSTEMDataset_init px2 mode2 data2 rot2 shift2 zoom2 tt2 fresh2 gen2
    = Ok (self2, gen2') →
  length (df self2) = length (df self1) →
  (train_ids self2, val_ids self2, test_ids self2)
  = (train_ids self1, val_ids self1, test_ids self1).
Proof.
  intros Hperm H1 H2 Hlen.
  apply Jarvis2dSTEMDataset_init_split in H1, H2. rewrite H1, H2.
  pose proof (split_dataset_tenth (df self1) fresh1 gen1) as S1.
  pose proof (split_dataset_tenth (df self2) fresh2 gen2) as S2.
  cbv zeta in S1, S2. rewrite Hlen in S2.
  pose proof (Permutation_length Hperm) as Hl. rewrite length_seq in Hl.
  by rewrite S1, S2.
Qed.
End StoredSplit.

(** ** Construction *)

Lemma not_in_LABEL_MODES (label_mode_ : string) :
  label_mode_ ∉ LABEL_MODES ↔ label_mode_ ≠ "delta" ∧ label_mode_ ≠ "radius".
Proof.
  unfold LABEL_MODES. by rewrite not_elem_of_union, !not_elem_of_singleton.
Qed.

Lemma in_LABEL_MODES (label_mode_ : string) :
  label_mode_ ∈ LABEL_MODES ↔ label_mode_ = "delta" ∨ label_mode_ = "radius".
Proof.
  unfold LABEL_MODES. by rewrite elem_of_union, !elem_of_singleton.
Qed.

Lemma raise_or_return {A} (m : result A) (P : Prop) :
  (¬ P ∧ is_NotImplementedError m) ∨ (P ∧ returns m) →
  (is_NotImplementedError m ↔ ¬ P) ∧ (returns m ↔ P).
Proof.
  assert (Hexcl : is_NotImplementedError m → returns m → False).
  { intros [msg ->] [a Ha]. discriminate Ha. }
  intros [[HP Hm]|[HP Hm]]; split; split; intros H; try done; exfalso; auto.
Qed.

Section Construction.
Context {E : Externals}.

Lemma Jarvis2dSTEMDataset_init_cases (px_scale_ : Q) (label_mode_ : string)
    (image_data : option (list (df_row Atoms)))
    (rotation_degrees_ shift_angstrom_ zoom_pct_ : option Q)
    (to_tensor_ : option (image → image)) (fresh : Z) (gen : torch_gen) :
  let r := Jarvis2dSTEMDataset_init px_scale_ label_mode_ image_data
             rotation_degrees_ shift_angstrom_ zoom_pct_ to_tensor_ fresh gen in
  ((label_mode_ ∉ LABEL_MODES) ∧ is_NotImplementedError r) ∨
  (label_mode_ ∈ LABEL_MODES ∧
   ∃ self gen', r = Ok (self, gen') ∧
     px_scale self = px_scale_ ∧ label_mode self = label_mode_ ∧
     to_tensor self = to_tensor_ ∧ rotation_degrees self = rotation_degrees_ ∧
     shift_angstrom self = shift_angstrom_ ∧ zoom_pct self = zoom_pct_ ∧
     df self = default dft_2d image_data).
Proof.
  intros r. subst r. unfold Jarvis2dSTEMDataset_init.
  case_bool_decide as Hmode.
  - left. split; [done|]. by eexists.
  - right. split; [by destruct (decide (label_mode_ ∈ LABEL_MODES))|].
    destruct (split_dataset _ _ _ _ _) as [[[train val] test] gen'].
    eexists _, _. split; [done|]. cbn. by destruct image_data.
Qed.

(** C9. Construction of either dataset class raises the label-mode
    error ([NotImplementedError], the spec's UnsupportedLabelModeError) if
    and only if [label_mode] is neither "delta" nor "radius"; the check is
    the first statement of [__init__], so no dataset object exists to be
    indexed; for "delta" and "radius" construction returns. *)
Theorem label_mode_checked_at_construction (px_scale_ : Q) (label_mode_ : string)
    (image_data : option (list (df_row Atoms)))
    (rotation_degrees_ shift_angstrom_ zoom_pct_ : option Q)
    (to_tensor_ : option (image → image))
    (pixel_classifier_ : option (image → ndarray)) (debug_ : bool)
    (fresh : Z) (gen : torch_gen) :
  let base_init := Jarvis2dSTEMDataset_init px_scale_ label_mode_ image_data
                     rotation_degrees_ shift_angstrom_ zoom_pct_ to_tensor_
                     fresh gen in
  let graph_init := Jarvis2dSTEMGraphDataset_init px_scale_ label_mode_ image_data
                      to_tensor_ pixel_classifier_ debug_ fresh gen in
  (is_NotImplementedError base_init ↔
     label_mode_ ≠ "delta" ∧ label_mode_ ≠ "radius") ∧
  (is_NotImplementedError graph_init ↔
     label_mode_ ≠ "delta" ∧ label_mode_ ≠ "radius") ∧
  (returns base_init ↔ label_mode_ = "delta" ∨ label_mode_ = "radius") ∧
  (returns graph_init ↔ label_mode_ = "delta" ∨ label_mode_ = "radius").
Proof.
  intros base_init graph_init.
  pose proof (in_LABEL_MODES label_mode_) as Hin.
  pose proof (not_in_LABEL_MODES label_mode_) as Hnin.
  pose proof (Jarvis2dSTEMDataset_init_cases px_scale_ label_mode_ image_data
                rotation_degrees_ shift_angstrom_ zoom_pct_ to_tensor_ fresh gen)
    as Hbase.
  pose proof (Jarvis2dSTEMDataset_init_cases px_scale_ label_mode_ image_data
                None None None None fresh gen) as Hgraph.
  cbv zeta in Hbase, Hgraph. fold base_init in Hbase.
  assert (Hg : ((label_mode_ ∉ LABEL_MODES) ∧ is_NotImplementedError graph_init) ∨
               (label_mode_ ∈ LABEL_MODES ∧ returns graph_init)).
  { unfold graph_init, Jarvis2dSTEMGraphDataset_init.
    destruct Hgraph as [[Hm [msg ->]]|[Hm (self & gen' & -> & _)]].
    - left. split; [done|]. by exists msg.
    - right. split; [done|]. by eexists. }
  assert (Hb : ((label_mode_ ∉ LABEL_MODES) ∧ is_NotImplementedError base_init) ∨
               (label_mode_ ∈ LABEL_MODES ∧ returns base_init)).
  { destruct Hbase as [?|[Hm (self & gen' & -> & _)]]; [by left|].
    right. split; [done|]. by eexists. }
  clear Hbase Hgraph.
  apply raise_or_return in Hb as [Hb1 Hb2], Hg as [Hg1 Hg2].
  rewrite Hb1, Hb2, Hg1, Hg2, Hnin, Hin. done.
Qed.

Lemma getitem_unaugmented (self : Jarvis2dSTEMDataset) (idx : nat)
    (gen gen' : np_gen) (smp : sample) :
  rotation_degrees self = None → shift_angstrom self = None →
  zoom_pct self = None → to_tensor self = None →
  Jarvis2dSTEMDataset_getitem self idx gen = Ok (smp, gen') →
  gen' = gen ∧ s_px_scale smp = px_scale self ∧
  ∃ row, df self !! idx = Some row ∧
    s_image smp
      = (simulate_surface (atoms row) (px_scale self) (6 # 10) 0 (0, 0)%Q).1.1.1.
Proof.
  intros Hrot Hshift Hzoom Htt. unfold Jarvis2dSTEMDataset_getitem.
  destruct (df self !! idx) as [row|]; [|done].
  unfold draw_rot, draw_shift, draw_px_scale. rewrite Hrot, Hshift, Hzoom, Htt.
  destruct (simulate_surface _ _ _ _ _) as [[[image_ label_] pos_] nb] eqn:Hsim.
  destruct (if bool_decide (label_mode self = "radius") then _ else _)
    as [lbl|e]; [|done].
  intros [= <- <-]. cbn. split; [done|]. split; [done|].
  exists row. by rewrite Hsim.
Qed.

(** C10. Whatever [to_tensor] is passed to
    [Jarvis2dSTEMGraphDataset.__init__], the same dataset is constructed (the
    argument is not forwarded), and the constructed base object has
    [to_tensor], [rotation_degrees], [shift_angstrom] and [zoom_pct] all
    [None]; every sample it produces is therefore simulated with rotation
    0, shift (0, 0) and the unzoomed pixel scale, draws nothing from the
    random generator, and carries the simulator's image untransformed. *)
Theorem graph_dataset_drops_to_tensor_and_augmentation (px_scale_ : Q)
    (label_mode_ : string) (image_data : option (list (df_row Atoms)))
    (to_tensor_ : option (image → image))
    (pixel_classifier_ : option (image → ndarray)) (debug_ : bool)
    (fresh : Z) (gen : torch_gen)
    (self : Jarvis2dSTEMGraphDataset) (gen' : torch_gen) :
  Jarvis2dSTEMGraphDataset_init px_scale_ label_mode_ image_data to_tensor_
    pixel_classifier_ debug_ fresh gen = Ok (self, gen') →
  (∀ to_tensor', Jarvis2dSTEMGraphDataset_init px_scale_ label_mode_ image_data
                   to_tensor' pixel_classifier_ debug_ fresh gen = Ok (self, gen')) ∧
  (to_tensor (base self) = None ∧ rotation_degrees (base self) = None ∧
   shift_angstrom (base self) = None ∧ zoom_pct (base self) = None ∧
   px_scale (base self) = px_scale_) ∧
  ∀ idx npg npg' smp,
    Jarvis2dSTEMGraphDataset_getitem self idx npg = Ok (smp, npg') →
    npg' = npg ∧ s_px_scale smp = px_scale_ ∧
    ∃ row, df (base self) !! idx = Some row ∧
      s_image smp
        = (simulate_surface (atoms row) px_scale_ (6 # 10) 0 (0, 0)%Q).1.1.1.
Proof.
  intros Hinit. split; [intros to_tensor'; exact Hinit|]. revert Hinit.
  unfold Jarvis2dSTEMGraphDataset_init.
  destruct (Jarvis2dSTEMDataset_init_cases px_scale_ label_mode_ image_data
              None None None None fresh gen)
    as [[_ [msg ->]]|[_ (b & g & -> & Hpx & _ & Htt & Hrot & Hshift & Hzoom & _)]];
    [done|].
  cbn. intros [= <- <-]. cbn. split; [done|].
  intros idx npg npg' smp. unfold Jarvis2dSTEMGraphDataset_getitem. cbn [base].
  destruct (Jarvis2dSTEMDataset_getitem b idx npg) as [[smp0 npg0]|e] eqn:Hget;
    [|done].
  cbn [mbind result_bind].
  destruct (if debug_ then _ else _) as [predicted|e]; [|done].
  cbn [mbind result_bind].
  destruct (sample_graph _ _ _) as [g0|e]; [|done].
  cbn. intros [= <- <-]. cbn.
  destruct (getitem_unaugmented b idx npg npg0 smp0 Hrot Hshift Hzoom Htt Hget)
    as (-> & Hs & row & Hrow & Himg).
  rewrite Hpx in Hs, Himg. split; [done|]. split; [done|]. by exists row.
Qed.
End Construction.

(** An unsupported mode is refused and "radius" is accepted. *)
Lemma label_mode_checked_at_construction_witness :
  is_NotImplementedError
    (Jarvis2dSTEMDataset_init (E := example_externals) (1 # 10) "foo"
       (Some [two_atoms_row]) None None None None 0%Z 0%Z) ∧
  returns
    (Jarvis2dSTEMGraphDataset_init (E := example_externals) (1 # 10) "radius"
       (Some [two_atoms_row]) None None true 0%Z 0%Z).
Proof.
  split.
  - apply (label_mode_checked_at_construction (E := example_externals) (1 # 10)
             "foo" (Some [two_atoms_row]) None None None None None true 0%Z 0%Z).
    split; discriminate.
  - apply (label_mode_checked_at_construction (E := example_externals) (1 # 10)
             "radius" (Some [two_atoms_row]) None None None None None true 0%Z 0%Z).
    by right.
Defined.

(** A graph dataset constructed with a [to_tensor] transform. *)
Lemma graph_dataset_drops_to_tensor_and_augmentation_witness :
  ∃ self gen',
    two_atoms_dataset_to_tensor = Ok (self, gen') ∧
    (∀ to_tensor', Jarvis2dSTEMGraphDataset_init (E := example_externals)
                     (1 # 10) "delta" (Some [two_atoms_row]) to_tensor' None true
                     0%Z 0%Z = Ok (self, gen')) ∧
    (to_tensor (base self) = None ∧ rotation_degrees (base self) = None ∧
     shift_angstrom (base self) = None ∧ zoom_pct (base self) = None ∧
     px_scale (base self) = 1 # 10) ∧
    ∀ idx npg npg' smp,
      Jarvis2dSTEMGraphDataset_getitem (E := example_externals) self idx npg
        = Ok (smp, npg') →
      npg' = npg ∧ s_px_scale smp = 1 # 10 ∧
      ∃ row, df (base self) !! idx = Some row ∧
        s_image smp
          = (simulate_surface (Externals := example_externals)
               (atoms row) (1 # 10) (6 # 10) 0 (0, 0)%Q).1.1.1.
Proof.
  do 2 eexists. split; [vm_compute; reflexivity|].
  eapply (graph_dataset_drops_to_tensor_and_augmentation (E := example_externals)
            (1 # 10) "delta" (Some [two_atoms_row]) (Some doubling) None true 0%Z 0%Z).
  vm_compute; reflexivity.
Defined.

(** * Further properties *)

(** ** The radius mask, pixel by pixel *)

Lemma array_ext (shape : nat * nat) (a b : ndarray) :
  shaped shape a → shaped shape b →
  (∀ p, in_shape shape p → getitem a p = getitem b p) → a = b.
Proof.
  intros [Hla Hra] [Hlb Hrb] Hext. apply list_eq. intros r.
  destruct (a !! r) as [ra|] eqn:Ha.
  - destruct (b !! r) as [rb|] eqn:Hb.
    + f_equal. apply list_eq. intros c.
      rewrite Forall_lookup in Hra, Hrb.
      pose proof (Hra _ _ Ha) as Hlra. pose proof (Hrb _ _ Hb) as Hlrb.
      destruct (decide (c < shape.2)%nat) as [Hc|Hc].
      * specialize (Hext (r, c)). unfold getitem, in_shape in Hext. cbn in Hext.
        rewrite Ha, Hb in Hext. cbn in Hext. apply Hext.
        split; [|done]. rewrite <- Hla. by eapply lookup_lt_Some.
      * rewrite !lookup_ge_None_2 by lia. done.
    + apply lookup_lt_Some in Ha. apply lookup_ge_None in Hb. lia.
  - destruct (b !! r) as [rb|] eqn:Hb; [|done].
    apply lookup_lt_Some in Hb. apply lookup_ge_None in Ha. lia.
Qed.

Section RadiusMaskPointwise.
Variable RADII : gmap Z Q.
Variable shape : nat * nat.
Variable px_scale : Q.

Local Abbreviation loop := (radius_mask_loop RADII shape px_scale).
Local Abbreviation covers := (covers RADII shape px_scale).

(** After the loop a pixel carries the number of an atom that covers it, or,
    when no atom covers it, what it carried before. *)
Lemma radius_mask_loop_pointwise (atoms : list ((Q * Q) * Z)) :
  ∀ labels out p,
    shaped shape labels → loop atoms labels = Ok out →
    (∃ b, b ∈ atoms ∧ covers b p ∧ getitem out p = Some b.2) ∨
    ((∀ b, b ∈ atoms → ¬ covers b p) ∧ getitem out p = getitem labels p).
Proof.
  induction atoms as [|[x n] atoms IH]; intros labels out p Hs; cbn [radius_mask_loop].
  - intros [= <-]. right. split; [|done]. intros b Hb. inversion Hb.
  - destruct (RADII !! n) as [rad|] eqn:Hrad; [|done]. intros Hout.
    destruct (IH _ _ p (shaped_setitems shape _ _ n Hs) Hout)
      as [(b & Hb & Hc & Hv)|[Hnone Hv]].
    + left. exists b. split; [by right|done].
    + rewrite (getitem_setitems shape) in Hv by (done || apply disk_in_shape).
      case_decide as Hin.
      * left. exists (x, n). split; [left|]. split; [by exists rad|done].
      * right. split; [|done]. intros b Hb.
        apply elem_of_cons in Hb as [->|Hb]; [|by apply Hnone].
        intros (rad' & Hrad' & Hin'). cbn in Hrad', Hin'.
        rewrite Hrad in Hrad'. injection Hrad' as <-. done.
Qed.

(** Whether the loop returns depends on the atoms as a set. *)
Lemma radius_mask_loop_returns_iff (atoms : list ((Q * Q) * Z)) (labels : ndarray) :
  returns (loop atoms labels) ↔ ∀ a, a ∈ atoms → is_Some (RADII !! a.2).
Proof.
  split; [|apply radius_mask_loop_present].
  intros [out Hout] a Ha.
  destruct (RADII !! a.2) as [rad|] eqn:Hrad; [by eexists|].
  destruct (radius_mask_loop_missing RADII shape px_scale atoms labels) as (k & Hk & _).
  { by exists a. }
  rewrite Hk in Hout. discriminate Hout.
Qed.
End RadiusMaskPointwise.

(** X1. Background of the radius mask: in a returned mask every pixel of the
    image that lies in no atom's disk carries 0; in particular the mask of no
    atom is [np.zeros(shape)]. *)
Theorem atomic_radius_mask_background (RADII : gmap Z Q) (shape : nat * nat)
    (X : list (Q * Q)) (N : list Z) (px_scale : Q) (labels : ndarray) (p : pixel) :
  atomic_radius_mask RADII shape X N px_scale = Ok labels →
  in_shape shape p →
  (∀ a, a ∈ zip X N → ¬ covers RADII shape px_scale a p) →
  getitem labels p = Some 0%Z.
Proof.
  intros Hrun Hp Hnone.
  eapply radius_mask_loop_keeps; eauto using shaped_np_zeros.
  by apply getitem_np_zeros_in_shape.
Qed.

Lemma atomic_radius_mask_background_witness :
  ∃ labels,
    atomic_radius_mask example_RADII (9, 9)%nat [(1, 1)]%Q [6%Z] 1 = Ok labels ∧
    getitem labels (7, 7)%nat = Some 0%Z.
Proof.
  eexists. split; [vm_compute; reflexivity|].
  eapply (atomic_radius_mask_background example_RADII (9, 9)%nat [(1, 1)]%Q [6%Z] 1).
  - vm_compute; reflexivity.
  - split; cbn; lia.
  - intros a Ha. apply list_elem_of_singleton in Ha as ->.
    intros (rad & Hrad & Hin). injection Hrad as <-.
    apply elem_of_disk in Hin as [_ Hin]. vm_compute in Hin. discriminate Hin.
Defined.

(** X2. Positions and atomic numbers are paired by [zip]: only the first
    [min(len(X), len(N))] of each are used, so surplus atomic numbers are
    never looked up (not even unknown ones) and surplus positions are never
    drawn; with no position the call returns the zero mask for any [N]. *)
Theorem atomic_radius_mask_zip_truncates (RADII : gmap Z Q) (shape : nat * nat)
    (X : list (Q * Q)) (N : list Z) (px_scale : Q) :
  atomic_radius_mask RADII shape X N px_scale
  = atomic_radius_mask RADII shape (take (length N) X) (take (length X) N) px_scale ∧
  atomic_radius_mask RADII shape [] N px_scale = Ok (np_zeros shape) ∧
  atomic_radius_mask RADII shape X [] px_scale = Ok (np_zeros shape).
Proof.
  unfold atomic_radius_mask. split; [|split].
  - by rewrite (zip_with_take_both pair X N).
  - done.
  - by destruct X.
Qed.

(** X3. Order matters only where atoms with different numbers overlap: when
    any two atoms that cover a common pixel carry the same atomic number,
    every reordering of the atoms gives the same mask. *)
Theorem atomic_radius_mask_order_irrelevant_without_conflict (RADII : gmap Z Q)
    (shape : nat * nat) (X X' : list (Q * Q)) (N N' : list Z) (px_scale : Q)
    (labels : ndarray) :
  zip X' N' ≡ₚ zip X N →
  (∀ a b p, a ∈ zip X N → b ∈ zip X N →
            covers RADII shape px_scale a p → covers RADII shape px_scale b p →
            a.2 = b.2) →
  atomic_radius_mask RADII shape X N px_scale = Ok labels →
  atomic_radius_mask RADII shape X' N' px_scale = Ok labels.
Proof.
  intros Hperm Hsame Hrun. unfold atomic_radius_mask in *.
  destruct (proj2 (radius_mask_loop_returns_iff RADII shape px_scale (zip X' N')
                     (np_zeros shape))) as [labels' Hrun'].
  { intros a Ha. rewrite Hperm in Ha.
    eapply (proj1 (radius_mask_loop_returns_iff RADII shape px_scale (zip X N)
                     (np_zeros shape))); [by eexists|done]. }
  rewrite Hrun'. f_equal.
  pose proof (radius_mask_loop_shaped _ _ _ _ _ _ (shaped_np_zeros shape) Hrun) as Hs.
  pose proof (radius_mask_loop_shaped _ _ _ _ _ _ (shaped_np_zeros shape) Hrun') as Hs'.
  apply (array_ext shape); [done|done|]. intros p Hp.
  destruct (radius_mask_loop_pointwise RADII shape px_scale _ _ _ p
              (shaped_np_zeros shape) Hrun) as [(b & Hb & Hc & Hv)|[Hnone Hv]];
  destruct (radius_mask_loop_pointwise RADII shape px_scale _ _ _ p
              (shaped_np_zeros shape) Hrun') as [(b' & Hb' & Hc' & Hv')|[Hnone' Hv']].
  - rewrite Hv, Hv'. f_equal. rewrite Hperm in Hb'. symmetry. by eapply Hsame.
  - exfalso. apply (Hnone' b); [by rewrite Hperm|done].
  - exfalso. rewrite Hperm in Hb'. by apply (Hnone b').
  - by rewrite Hv, Hv'.
Qed.

Lemma atomic_radius_mask_order_irrelevant_without_conflict_witness :
  ∃ labels,
    atomic_radius_mask example_RADII (9, 9)%nat [(1, 1); (7, 7)]%Q [6; 8]%Z 1 = Ok labels ∧
    atomic_radius_mask example_RADII (9, 9)%nat [(7, 7); (1, 1)]%Q [8; 6]%Z 1 = Ok labels.
Proof.
  eexists. split; [vm_compute; reflexivity|].
  eapply (atomic_radius_mask_order_irrelevant_without_conflict example_RADII
            (9, 9)%nat [(1, 1); (7, 7)]%Q [(7, 7); (1, 1)]%Q [6; 8]%Z [8; 6]%Z 1).
  - apply perm_swap.
  - assert (D6 : disk (1, 1)%Q (footprint_radius 1 (7 # 10)) (9, 9)%nat = [(1, 1)%nat])
      by (vm_compute; reflexivity).
    assert (D8 : disk (7, 7)%Q (footprint_radius 1 (6 # 10)) (9, 9)%nat = [(7, 7)%nat])
      by (vm_compute; reflexivity).
    intros a b p Ha Hb (ra & Hra & Hia) (rb & Hrb & Hib).
    apply elem_of_cons in Ha as [->|Ha]; [|apply list_elem_of_singleton in Ha as ->];
      (apply elem_of_cons in Hb as [->|Hb]; [|apply list_elem_of_singleton in Hb as ->]);
      try done; exfalso; cbn [fst snd] in Hra, Hrb, Hia, Hib;
      vm_compute in Hra, Hrb; injection Hra as <-; injection Hrb as <-;
      rewrite ?D6, ?D8 in Hia, Hib;
      apply list_elem_of_singleton in Hia, Hib; congruence.
  - vm_compute; reflexivity.
Defined.

(** ** The thresholded label *)

Lemma getitem_threshold (lbl : ndarray) (p : pixel) :
  getitem (threshold lbl) p
  = (λ z, if (0 <? z)%Z then 1%Z else 0%Z) <$> getitem lbl p.
Proof.
  unfold getitem, threshold.
  change (map ?f ?l) with (f <$> l). rewrite list_lookup_fmap.
  destruct (lbl !! p.1) as [row|]; [|done]. cbn.
  change (map ?f ?l) with (f <$> l). by rewrite list_lookup_fmap.
Qed.

Lemma threshold_radius_mask_pointwise (RADII : gmap Z Q) (shape : nat * nat)
    (X : list (Q * Q)) (N : list Z) (px_scale : Q) (labels : ndarray) (p : pixel) :
  atomic_radius_mask RADII shape X N px_scale = Ok labels →
  (∀ n, n ∈ N → (0 < n)%Z) →
  in_shape shape p →
  (getitem (threshold labels) p = Some 1%Z ↔
     ∃ a, a ∈ zip X N ∧ covers RADII shape px_scale a p) ∧
  (getitem (threshold labels) p = Some 0%Z ↔
     ∀ a, a ∈ zip X N → ¬ covers RADII shape px_scale a p).
Proof.
  intros Hrun Hpos Hp. rewrite getitem_threshold.
  unfold atomic_radius_mask in Hrun.
  destruct (radius_mask_loop_pointwise RADII shape px_scale _ _ _ p
              (shaped_np_zeros shape) Hrun) as [(b & Hb & Hc & Hv)|[Hnone Hv]].
  - rewrite Hv. cbn.
    assert (Hb2 : (0 < b.2)%Z).
    { destruct b as [x n]. apply Hpos. by eapply elem_of_zip_r. }
    destruct (Z.ltb_spec 0 b.2); [|lia]. split; split; try done.
    + intros _. by exists b.
    + intros Hnone. exfalso. by apply (Hnone b).
  - rewrite Hv, (getitem_np_zeros_in_shape shape p Hp). cbn. split; split; try done.
    intros (a & Ha & Hc). exfalso. by apply (Hnone a).
Qed.

(** X4. The training target of radius mode is the union of the footprints:
    when all atomic numbers are positive, a pixel of the image is 1 in
    [label > 0] exactly when some atom's disk covers it and 0 exactly when
    none does, so the thresholded label does not depend on the order of the
    atoms although the mask itself does. *)
Theorem radius_label_is_union_of_footprints (RADII : gmap Z Q) (shape : nat * nat)
    (X : list (Q * Q)) (N : list Z) (px_scale : Q) (labels : ndarray) (p : pixel) :
  atomic_radius_mask RADII shape X N px_scale = Ok labels →
  (∀ n, n ∈ N → (0 < n)%Z) →
  in_shape shape p →
  (getitem (threshold labels) p = Some 1%Z ↔
     ∃ a, a ∈ zip X N ∧ covers RADII shape px_scale a p) ∧
  (getitem (threshold labels) p = Some 0%Z ↔
     ∀ a, a ∈ zip X N → ¬ covers RADII shape px_scale a p).
Proof. apply threshold_radius_mask_pointwise. Qed.

Lemma radius_label_is_union_of_footprints_witness :
  ∃ labels,
    atomic_radius_mask example_RADII (5, 5)%nat [(2, 2); (2, 3)]%Q [6; 8]%Z (1 # 10)
      = Ok labels ∧
    (getitem (threshold labels) (2, 2)%nat = Some 1%Z ↔
       ∃ a, a ∈ zip [(2, 2); (2, 3)]%Q [6; 8]%Z ∧
            covers example_RADII (5, 5)%nat (1 # 10) a (2, 2)%nat) ∧
    (getitem (threshold labels) (2, 2)%nat = Some 0%Z ↔
       ∀ a, a ∈ zip [(2, 2); (2, 3)]%Q [6; 8]%Z →
            ¬ covers example_RADII (5, 5)%nat (1 # 10) a (2, 2)%nat).
Proof.
  eexists. split; [vm_compute; reflexivity|].
  eapply (radius_label_is_union_of_footprints example_RADII (5, 5)%nat
            [(2, 2); (2, 3)]%Q [6; 8]%Z (1 # 10)).
  - vm_compute; reflexivity.
  - intros n Hn. apply elem_of_cons in Hn as [->|Hn]; [done|].
    apply list_elem_of_singleton in Hn as ->. done.
  - split; cbn; lia.
Defined.

(** ** Sample access *)

Lemma radius_mask_loop_raises (RADII : gmap Z Q) (shape : nat * nat) (px_scale : Q)
    (atoms : list ((Q * Q) * Z)) :
  ∀ labels e, radius_mask_loop RADII shape px_scale atoms labels = Raise e →
    ∃ k, e = KeyError k ∧ k ∈ atoms.*2 ∧ RADII !! k = None.
Proof.
  induction atoms as [|[x n] atoms IH]; intros labels e; cbn [radius_mask_loop]; [done|].
  destruct (RADII !! n) as [rad|] eqn:Hrad.
  - intros He. destruct (IH _ _ He) as (k & -> & Hk & Hnone).
    exists k. split; [done|]. split; [by right|done].
  - intros [= <-]. exists n. split; [done|]. split; [left|done].
Qed.

Section Access.
Context {E : Externals}.

(** [__getitem__] in terms of the draws and of the simulator's output. *)
Lemma Jarvis2dSTEMDataset_getitem_unfold (self : Jarvis2dSTEMDataset) (idx : nat)
    (gen gen1 : np_gen) (row : df_row Atoms) (rot px : Q) (shift : Q * Q)
    (image_ : image) (label_ : ndarray) (pos_ : list (Q * Q)) (nb : list Z) :
  df self !! idx = Some row →
  draw_augmentation self gen = ((rot, shift, px), gen1) →
  simulate_surface (atoms row) px (6 # 10) rot shift = (image_, label_, pos_, nb) →
  Jarvis2dSTEMDataset_getitem self idx gen
  = (lbl ← (if bool_decide (label_mode self = "radius")
            then atomic_radius_mask RADII (shape_of image_) pos_ nb px
            else Ok label_);
     mret ({| s_image := from_option (λ f, f image_) image_ (to_tensor self);
              s_label := threshold lbl;
              s_id := jid row;
              s_px_scale := px;
              s_crys := crys row;
              s_g := None |}, gen1)).
Proof.
  intros Hrow Hdraw Hsim. unfold Jarvis2dSTEMDataset_getitem, draw_augmentation in *.
  rewrite Hrow.
  destruct (draw_rot self gen) as [rot0 g0].
  destruct (draw_shift self g0) as [shift0 g1].
  destruct (draw_px_scale self g1) as [px0 g2].
  injection Hdraw as -> -> -> ->. rewrite Hsim.
  by destruct (to_tensor self).
Qed.

(** X6. Without augmentation ([rotation_degrees], [shift_angstrom] and
    [zoom_pct] all [None]) an access draws no random number: it returns the
    generator as it received it, and the sample is the same whatever the
    state of the generator. *)
Theorem getitem_without_augmentation_ignores_generator (self : Jarvis2dSTEMDataset)
    (idx : nat) (gen gen' : np_gen) (smp : sample) :
  rotation_degrees self = None → shift_angstrom self = None → zoom_pct self = None →
  Jarvis2dSTEMDataset_getitem self idx gen = Ok (smp, gen') →
  gen' = gen ∧ s_px_scale smp = px_scale self ∧
  ∀ gen2, Jarvis2dSTEMDataset_getitem self idx gen2 = Ok (smp, gen2).
Proof.
  intros Hrot Hshift Hzoom.
  assert (Hdraw : ∀ g, draw_augmentation self g = ((0%Q, (0%Q, 0%Q), px_scale self), g)).
  { intros g. unfold draw_augmentation, draw_rot, draw_shift, draw_px_scale.
    by rewrite Hrot, Hshift, Hzoom. }
  destruct (df self !! idx) as [row|] eqn:Hrow;
    [|unfold Jarvis2dSTEMDataset_getitem; by rewrite Hrow].
  destruct (simulate_surface (atoms row) (px_scale self) (6 # 10) 0 (0, 0)%Q)
    as [[[image_ label_] pos_] nb] eqn:Hsim.
  rewrite (Jarvis2dSTEMDataset_getitem_unfold self idx gen gen row _ _ _
             image_ label_ pos_ nb Hrow (Hdraw gen) Hsim).
  destruct (if bool_decide _ then _ else _) as [lbl|e] eqn:Hlbl; [|done].
  cbn. intros [= <- <-]. split; [done|]. split; [done|].
  intros gen2.
  rewrite (Jarvis2dSTEMDataset_getitem_unfold self idx gen2 gen2 row _ _ _
             image_ label_ pos_ nb Hrow (Hdraw gen2) Hsim).
  by rewrite Hlbl.
Qed.
End Access.

Lemma getitem_without_augmentation_ignores_generator_witness :
  ∃ ds tg smp,
    two_atoms_dataset = Ok (ds, tg) ∧
    Jarvis2dSTEMDataset_getitem (E := example_externals) (base ds) 0 5%Z = Ok (smp, 5%Z) ∧
    ∀ gen2, Jarvis2dSTEMDataset_getitem (E := example_externals) (base ds) 0 gen2
            = Ok (smp, gen2).
Proof.
  do 3 eexists. split; [vm_compute; reflexivity|].
  split; [vm_compute; reflexivity|].
  eapply (getitem_without_augmentation_ignores_generator (E := example_externals)
            _ 0 5%Z 5%Z); [reflexivity|reflexivity|reflexivity|].
  vm_compute; reflexivity.
Defined.

Section RadiusAccess.
Context {E : Externals}.

(** X7. Radius mode, sample by sample: given the row, the draws and the
    simulator's output (as many positions as atomic numbers), an atomic
    number missing from [RADII] makes the access raise [KeyError] and return
    no sample; when all are present and positive, the access returns a
    sample recording the drawn pixel scale whose label is 1 exactly on the
    pixels of the image covered by some atom's disk drawn at that scale. *)
Theorem getitem_radius_mode (self : Jarvis2dSTEMDataset) (idx : nat)
    (gen gen1 : np_gen) (row : df_row Atoms) (rot px : Q) (shift : Q * Q)
    (image_ : image) (label_ : ndarray) (pos_ : list (Q * Q)) (nb : list Z) :
  label_mode self = "radius" →
  df self !! idx = Some row →
  draw_augmentation self gen = ((rot, shift, px), gen1) →
  simulate_surface (atoms row) px (6 # 10) rot shift = (image_, label_, pos_, nb) →
  length pos_ = length nb →
  ((∃ n, n ∈ nb ∧ RADII !! n = None) →
     ∃ k, Jarvis2dSTEMDataset_getitem self idx gen = Raise (KeyError k) ∧
          k ∈ nb ∧ RADII !! k = None) ∧
  ((∀ n, n ∈ nb → is_Some (RADII !! n) ∧ (0 < n)%Z) →
     ∃ smp, Jarvis2dSTEMDataset_getitem self idx gen = Ok (smp, gen1) ∧
       s_px_scale smp = px ∧
       ∀ p, in_shape (shape_of image_) p →
         (getitem (s_label smp) p = Some 1%Z ↔
            ∃ a, a ∈ zip pos_ nb ∧ covers RADII (shape_of image_) px a p) ∧
         (getitem (s_label smp) p = Some 0%Z ↔
            ∀ a, a ∈ zip pos_ nb → ¬ covers RADII (shape_of image_) px a p)).
Proof.
  intros Hmode Hrow Hdraw Hsim Hlen.
  rewrite (Jarvis2dSTEMDataset_getitem_unfold self idx gen gen1 row rot px shift
             image_ label_ pos_ nb Hrow Hdraw Hsim).
  rewrite bool_decide_eq_true_2 by done. split.
  - intros (n & Hn & Hmiss).
    destruct (radius_mask_loop_missing RADII (shape_of image_) px (zip pos_ nb)
                (np_zeros (shape_of image_))) as (k & Hk & Hin & Hnone).
    { apply list_elem_of_lookup in Hn as [i Hi].
      destruct (lookup_lt_is_Some_2 pos_ i) as [x Hx].
      { rewrite Hlen. by eapply lookup_lt_Some. }
      exists (x, n). split; [|done].
      apply list_elem_of_lookup. exists i. apply lookup_zip_with_Some. by exists x, n. }
    exists k. unfold atomic_radius_mask. rewrite Hk. split; [done|].
    split; [|done]. rewrite snd_zip in Hin by lia. done.
  - intros Hall.
    destruct (radius_mask_loop_present RADII (shape_of image_) px (zip pos_ nb)
                (np_zeros (shape_of image_))) as [lbl Hlbl].
    { intros [x n] Hin. apply Hall. by eapply elem_of_zip_r. }
    unfold atomic_radius_mask at 1. rewrite Hlbl. eexists. split; [done|].
    split; [done|]. intros p Hp. cbn [s_label].
    apply (threshold_radius_mask_pointwise RADII (shape_of image_) pos_ nb px);
      [done| |done].
    intros n Hn. by apply Hall.
Qed.
End RadiusAccess.

(** ** The split for arbitrary fractions *)

Lemma py_int_nonneg (q : Q) : (0 <= q)%Q → py_int q = Qfloor q.
Proof.
  destruct q as [n d]. unfold Qle, py_int, Qfloor. cbn. intros Hn.
  apply Z.quot_div_nonneg; lia.
Qed.

Lemma Qfloor_nonneg (q : Q) : (0 <= q)%Q → (0 ≤ Qfloor q)%Z.
Proof. intros Hq. change 0%Z with (Qfloor 0). by apply Qfloor_resp_le. Qed.

Lemma Qfloor_fractions (n vf tf : Q) :
  (0 <= n)%Q → (0 <= vf)%Q → (0 <= tf)%Q → (vf + tf <= 1)%Q →
  (Qfloor (n * vf) + Qfloor (n * tf) ≤ Qfloor n)%Z.
Proof.
  intros Hn Hv Ht Hsum.
  rewrite <- (Qfloor_Z (Qfloor (n * vf) + Qfloor (n * tf))).
  apply Qfloor_resp_le. rewrite inject_Z_plus.
  pose proof (Qfloor_le (n * vf)). pose proof (Qfloor_le (n * tf)).
  assert (n * vf + n * tf <= n)%Q; [|Lqa.lra].
  assert (0 <= n * (1 - (vf + tf)))%Q; [|Lqa.lra].
  apply Qmult_le_0_compat; Lqa.lra.
Qed.

Lemma take_three_gen {A} (l : list A) (a kv kt : nat) :
  length l = (a + kv + kt)%nat →
  take a l ++ take kv (drop a l) ++ take kt (drop (a + kv) l) = l.
Proof.
  intros Hlen.
  rewrite (take_ge (drop (a + kv) l)) by (rewrite length_drop; lia).
  rewrite <- drop_drop, take_drop. apply take_drop.
Qed.

(** A slice is a run of consecutive elements of the list. *)
Lemma py_slice_sublist {A} (l : list A) (lo hi : Z) : py_slice l lo hi `sublist_of` l.
Proof.
  unfold py_slice. etransitivity; [apply sublist_take|apply sublist_drop].
Qed.

Section SplitFractions.
Context {E : Externals}.

(** The split for fractions that leave a non-negative training share. *)
Lemma split_dataset_slices (data_ : list (df_row Atoms)) (val_frac test_frac : Q)
    (fresh : Z) (gen : torch_gen) :
  let N := length data_ in
  let kv := Z.to_nat (Qfloor (Qnat N * val_frac)) in
  let kt := Z.to_nat (Qfloor (Qnat N * test_frac)) in
  let shuf := (randperm (manual_seed 0) N).1 in
  (0 <= val_frac)%Q → (0 <= test_frac)%Q → (val_frac + test_frac <= 1)%Q →
  length shuf = N →
  (kv + kt ≤ N)%nat ∧
  Z.of_nat kv = Qfloor (Qnat N * val_frac) ∧
  Z.of_nat kt = Qfloor (Qnat N * test_frac) ∧
  split_dataset data_ val_frac test_frac fresh gen
  = ((take (N - (kv + kt)) shuf,
      take kv (drop (N - (kv + kt)) shuf),
      take kt (drop (N - (kv + kt) + kv) shuf)), manual_seed fresh).
Proof.
  intros N kv kt shuf Hv Ht Hsum Hlen.
  assert (HN : (0 <= Qnat N)%Q).
  { unfold Qnat. change 0%Q with (inject_Z 0). rewrite <- Zle_Qle. lia. }
  assert (Hnv : (0 <= Qnat N * val_frac)%Q) by (by apply Qmult_le_0_compat).
  assert (Hnt : (0 <= Qnat N * test_frac)%Q) by (by apply Qmult_le_0_compat).
  pose proof (Qfloor_nonneg _ Hnv) as Hfv. pose proof (Qfloor_nonneg _ Hnt) as Hft.
  pose proof (Qfloor_fractions _ _ _ HN Hv Ht Hsum) as Hle.
  unfold Qnat in Hle at 3. rewrite Qfloor_Z in Hle.
  assert (Hkv : Z.of_nat kv = Qfloor (Qnat N * val_frac)) by (unfold kv; lia).
  assert (Hkt : Z.of_nat kt = Qfloor (Qnat N * test_frac)) by (unfold kt; lia).
  split; [lia|]. split; [done|]. split; [done|].
  unfold split_dataset. fold N. rewrite !py_int_nonneg by done.
  rewrite <- Hkv, <- Hkt.
  destruct (randperm (manual_seed 0) N) as [shuf' gen'] eqn:Hperm.
  cbn [fst] in shuf. subst shuf.
  replace (Z.of_nat N - (Z.of_nat kv + Z.of_nat kt))%Z
    with (Z.of_nat (N - (kv + kt))) by lia.
  replace (Z.of_nat (N - (kv + kt)) + Z.of_nat kv)%Z
    with (Z.of_nat (N - (kv + kt) + kv)) by lia.
  replace (Z.of_nat (N - (kv + kt) + kv) + Z.of_nat kt)%Z
    with (Z.of_nat (N - (kv + kt) + kv + kt)) by lia.
  change 0%Z with (Z.of_nat 0).
  rewrite !py_slice_nonneg by lia. rewrite drop_0.
  replace (N - (kv + kt) - 0)%nat with (N - (kv + kt))%nat by lia.
  replace (N - (kv + kt) + kv - (N - (kv + kt)))%nat with kv by lia.
  replace (N - (kv + kt) + kv + kt - (N - (kv + kt) + kv))%nat with kt by lia.
  done.
Qed.

(** [split_dataset] takes its three lists with [split_ids], at the counts
    it computes from the fractions. *)
Lemma split_dataset_ids (data_ : list (df_row Atoms)) (val_frac test_frac : Q)
    (fresh : Z) (gen : torch_gen) :
  let N := length data_ in
  (split_dataset data_ val_frac test_frac fresh gen).1
  = split_ids (randperm (manual_seed 0) N).1 N
      (py_int (Qnat N * val_frac)) (py_int (Qnat N * test_frac)).
Proof.
  intros N. unfold split_dataset, split_ids. fold N.
  by destruct (randperm (manual_seed 0) N).
Qed.

(** X8. The lists of [split_dataset], whatever counts [n_val] and [n_test]
    the products of [N] with the fractions come to: each of the three lists
    is a duplicate-free list of valid indices (a slice of the permutation);
    and when the counts are non-negative with [n_val + n_test <= N] the
    lists have [N - n_val - n_test], [n_val] and [n_test] elements and
    together form a permutation of [0..N-1]. *)
Theorem split_dataset_fractions (data_ : list (df_row Atoms)) (val_frac test_frac : Q)
    (fresh : Z) (gen : torch_gen) (n_val n_test : Z) :
  let N := length data_ in
  let shuf := (randperm (manual_seed 0) N).1 in
  let ids := split_ids shuf N n_val n_test in
  shuf ≡ₚ seq 0 N →
  ((split_dataset data_ val_frac test_frac fresh gen).1
   = split_ids shuf N (py_int (Qnat N * val_frac)) (py_int (Qnat N * test_frac))) ∧
  (∀ l, l ∈ [ids.1.1; ids.1.2; ids.2] → NoDup l ∧ ∀ i, i ∈ l → (i < N)%nat) ∧
  ((0 ≤ n_val)%Z → (0 ≤ n_test)%Z → (n_val + n_test ≤ Z.of_nat N)%Z →
   Z.of_nat (length ids.1.1) = (Z.of_nat N - n_val - n_test)%Z ∧
   Z.of_nat (length ids.1.2) = n_val ∧
   Z.of_nat (length ids.2) = n_test ∧
   ids.1.1 ++ ids.1.2 ++ ids.2 ≡ₚ seq 0 N).
Proof.
  intros N shuf ids Hperm.
  pose proof (Permutation_length Hperm) as Hlen. rewrite length_seq in Hlen.
  split; [apply split_dataset_ids|]. split.
  - assert (Hsub : ∀ l, l ∈ [ids.1.1; ids.1.2; ids.2] → l `sublist_of` shuf).
    { intros l Hl. unfold ids, split_ids in Hl.
      cbn [fst snd] in Hl. set_unfold in Hl.
      destruct Hl as [->|[->|[->|[]]]]; apply py_slice_sublist. }
    intros l Hl. specialize (Hsub l Hl). split.
    + eapply sublist_NoDup; [|exact Hsub]. rewrite Hperm. apply NoDup_seq.
    + intros i Hi. pose proof (elem_of_sublist _ _ _ Hi Hsub) as Hin.
      rewrite Hperm in Hin. apply elem_of_seq in Hin. lia.
  - intros Hv Ht Hsum.
    set (kv := Z.to_nat n_val). set (kt := Z.to_nat n_test).
    assert (Hids : ids = (take (N - (kv + kt)) shuf,
                          take kv (drop (N - (kv + kt)) shuf),
                          take kt (drop (N - (kv + kt) + kv) shuf))).
    { unfold ids, split_ids.
      replace n_val with (Z.of_nat kv) by (unfold kv; lia).
      replace n_test with (Z.of_nat kt) by (unfold kt; lia).
      replace (Z.of_nat N - (Z.of_nat kv + Z.of_nat kt))%Z
        with (Z.of_nat (N - (kv + kt))) by lia.
      replace (Z.of_nat (N - (kv + kt)) + Z.of_nat kv)%Z
        with (Z.of_nat (N - (kv + kt) + kv)) by lia.
      replace (Z.of_nat (N - (kv + kt) + kv) + Z.of_nat kt)%Z
        with (Z.of_nat (N - (kv + kt) + kv + kt)) by lia.
      change 0%Z with (Z.of_nat 0).
      rewrite !py_slice_nonneg by lia. rewrite drop_0.
      replace (N - (kv + kt) - 0)%nat with (N - (kv + kt))%nat by lia.
      replace (N - (kv + kt) + kv - (N - (kv + kt)))%nat with kv by lia.
      replace (N - (kv + kt) + kv + kt - (N - (kv + kt) + kv))%nat with kt by lia.
      done. }
    rewrite Hids. cbn [fst snd].
    rewrite !length_take, !length_drop, Hlen.
    split; [lia|]. split; [lia|]. split; [lia|].
    rewrite take_three_gen by lia. done.
Qed.
End SplitFractions.

(** A 20/20 split of twenty-five structures. *)
Lemma split_dataset_fractions_witness :
  let ids := (split_dataset (E := example_externals) (replicate 25 two_atoms_row)
                (2 # 10) (2 # 10) 0%Z 0%Z).1 in
  ids = (rev (seq 10 15), rev (seq 5 5), rev (seq 0 5)) ∧
  (∀ l, l ∈ [ids.1.1; ids.1.2; ids.2] → NoDup l ∧ ∀ i, i ∈ l → (i < 25)%nat) ∧
  length ids.1.2 = 5%nat ∧
  ids.1.1 ++ ids.1.2 ++ ids.2 ≡ₚ seq 0 25.
Proof.
  intros ids. split; [vm_compute; reflexivity|].
  destruct (split_dataset_fractions (E := example_externals)
              (replicate 25 two_atoms_row) (2 # 10) (2 # 10) 0%Z 0%Z 5 5)
    as (Heq & Hany & Hin).
  - symmetry. apply Permutation_rev.
  - change (split_ids _ _ 5 5) with ids in Hany, Hin.
    split; [exact Hany|].
    destruct Hin as (_ & Hv & _ & Hp); [done|done|done|]. split; [lia|exact Hp].
Defined.

(** Fractions adding up to more than one are not rejected: the count of
    training indices is negative, the first slice then only leaves out the
    last two indices of the permutation, and the training and test lists
    overlap. *)
Example split_dataset_overlapping :
  (split_dataset (E := example_externals) (replicate 10 two_atoms_row)
     (6 # 10) (6 # 10) 0%Z 0%Z).1
  = (rev (seq 2 8), [], rev (seq 0 6)).
Proof. vm_compute. reflexivity. Qed.


(** ** Connected components: what the scan labels *)

Lemma getitem_setitem_same (a : ndarray) (p : pixel) (x v : Z) :
  getitem a p = Some x → getitem (setitem a p v) p = Some v.
Proof.
  unfold getitem, setitem. rewrite list_lookup_alter_eq.
  destruct (a !! p.1) as [row|]; cbn; [|done].
  intros Hx. apply list_lookup_insert_eq. by eapply lookup_lt_Some.
Qed.

(** A flood fill never touches a pixel that already has a number. *)
Lemma flood_keeps (mask : ndarray) (v lab : Z) (fuel : nat) :
  ∀ stack out q w, getitem out q = Some w → w ≠ 0%Z →
    getitem (flood fuel mask v lab stack out) q = Some w.
Proof.
  induction fuel as [|fuel IH]; intros stack out q w Hq Hw; [done|].
  cbn [flood]. destruct stack as [|p stack]; [done|].
  case_bool_decide as Hp; [|by apply IH].
  apply IH; [|done]. rewrite getitem_setitem_ne; [done|].
  intros ->. destruct Hp as [_ Hp]. congruence.
Qed.

(** What a flood fill writes is its number, on pixels of the value filled. *)
Lemma flood_origin (mask : ndarray) (v lab : Z) (fuel : nat) :
  ∀ stack out q w, getitem (flood fuel mask v lab stack out) q = Some w →
    getitem out q = Some w ∨ (w = lab ∧ getitem mask q = Some v).
Proof.
  induction fuel as [|fuel IH]; intros stack out q w; [by left|].
  cbn [flood]. destruct stack as [|p stack]; [by left|].
  case_bool_decide as Hp; [|apply IH].
  intros Hq. destruct (IH _ _ _ _ Hq) as [Hset|?]; [|by right].
  destruct Hp as [Hmask Hout].
  destruct (decide (p = q)) as [->|Hne].
  - rewrite (getitem_setitem_same _ _ _ _ Hout) in Hset. right.
    split; [congruence|done].
  - rewrite getitem_setitem_ne in Hset by done. by left.
Qed.

(** The seed of a flood fill receives the number. *)
Lemma flood_seed (mask : ndarray) (v lab : Z) (fuel : nat) (p : pixel) (out : ndarray) :
  lab ≠ 0%Z → getitem mask p = Some v → getitem out p = Some 0%Z →
  getitem (flood (S fuel) mask v lab [p] out) p = Some lab.
Proof.
  intros Hlab Hmask Hout. cbn [flood].
  rewrite bool_decide_eq_true_2 by done.
  apply flood_keeps; [|done]. by eapply getitem_setitem_same.
Qed.

Section Scan.
Variable mask : ndarray.

Lemma scan_inv_init : scan_inv mask (np_zeros (shape_of mask), 0%Z).
Proof.
  split; [done|]. split; cbn [fst snd].
  - intros q w Hq Hw. by apply getitem_np_zeros in Hq.
  - intros l Hl. lia.
Qed.

Lemma scan_inv_step (st : ndarray * Z) (p : pixel) :
  scan_inv mask st → scan_inv mask (label_step mask st p).
Proof.
  intros (Hc & Hfg & Hused). unfold label_step. destruct st as [out count].
  cbn [fst snd] in *.
  destruct (getitem mask p) as [v|] eqn:Hmask; [|done].
  destruct (getitem out p) as [[| |]|] eqn:Hout; try done.
  case_bool_decide as Hv; [done|].
  split; [cbn; lia|]. split; cbn [fst snd].
  - intros q w Hq Hw. apply flood_origin in Hq as [Hq|[-> Hq]].
    + destruct (Hfg q w Hq Hw) as [? ?]. split; [lia|done].
    + split; [lia|]. by exists v.
  - intros l Hl. destruct (decide (l = count + 1)%Z) as [->|Hne].
    + exists p. apply flood_seed; [lia|done|done].
    + destruct (Hused l) as [q Hq]; [lia|]. exists q.
      apply flood_keeps; [done|lia].
Qed.

Lemma scan_inv_fold (ps : list pixel) :
  ∀ st, scan_inv mask st → scan_inv mask (foldl (label_step mask) st ps).
Proof.
  induction ps as [|p ps IH]; intros st Hst; [done|].
  cbn [foldl]. by apply IH, scan_inv_step.
Qed.

(** Later steps of the scan keep the numbers given so far. *)
Lemma label_step_keeps (st : ndarray * Z) (p q : pixel) (w : Z) :
  getitem st.1 q = Some w → w ≠ 0%Z →
  getitem (label_step mask st p).1 q = Some w.
Proof.
  intros Hq Hw. unfold label_step. destruct st as [out count]. cbn [fst] in *.
  destruct (getitem mask p) as [v|]; [|done].
  destruct (getitem out p) as [[| |]|]; try done.
  case_bool_decide; [done|]. cbn [fst]. by apply flood_keeps.
Qed.

Lemma label_scan_keeps (ps : list pixel) :
  ∀ st q w, getitem st.1 q = Some w → w ≠ 0%Z →
    getitem (foldl (label_step mask) st ps).1 q = Some w.
Proof.
  induction ps as [|p ps IH]; intros st q w Hq Hw; [done|].
  cbn [foldl]. apply IH; [|done]. by apply label_step_keeps.
Qed.

(** The step at a foreground pixel leaves it with a number. *)
Lemma label_step_covers (st : ndarray * Z) (p : pixel) (v : Z) :
  (0 ≤ st.2)%Z → is_Some (getitem st.1 p) →
  getitem mask p = Some v → v ≠ 0%Z →
  ∃ w, getitem (label_step mask st p).1 p = Some w ∧ w ≠ 0%Z.
Proof.
  intros Hc [w0 Hout] Hmask Hv. unfold label_step. destruct st as [out count].
  cbn [fst snd] in *. rewrite Hmask, Hout.
  destruct w0 as [|w0|w0].
  - rewrite bool_decide_eq_false_2 by done. cbn [fst].
    exists (count + 1)%Z. split; [|lia].
    unfold flood_fuel. apply flood_seed; [lia|done|done].
  - by exists (Z.pos w0).
  - by exists (Z.neg w0).
Qed.

(** After the scan every foreground pixel it visited has a number. *)
Lemma label_scan_covers (ps : list pixel) :
  ∀ st p v, shaped (shape_of mask) st.1 → (0 ≤ st.2)%Z →
    p ∈ ps → in_shape (shape_of mask) p →
    getitem mask p = Some v → v ≠ 0%Z →
    ∃ w, getitem (foldl (label_step mask) st ps).1 p = Some w ∧ w ≠ 0%Z.
Proof.
  induction ps as [|p0 ps IH]; intros st p v Hs Hc Hin Hp Hmask Hv; [inversion Hin|].
  cbn [foldl].
  destruct (label_scan_invariant mask [p0] st Hs Hc) as [Hs1 Hc1]. cbn [foldl] in Hs1, Hc1.
  apply elem_of_cons in Hin as [->|Hin]; [|by eapply IH].
  destruct (label_step_covers st p0 v Hc) as (w & Hw & Hnz); [|done|done|].
  { by eapply getitem_in_shape. }
  exists w. split; [|done]. by apply label_scan_keeps.
Qed.

(** The scan changes nothing on a stretch without foreground. *)
Lemma label_scan_background (ps : list pixel) :
  (∀ p v, p ∈ ps → getitem mask p = Some v → v = 0%Z) →
  ∀ st, foldl (label_step mask) st ps = st.
Proof.
  induction ps as [|p ps IH]; intros Hbg st; [done|].
  cbn [foldl]. rewrite IH by (intros; eapply Hbg; [by right|done]).
  unfold label_step. destruct st as [out count].
  destruct (getitem mask p) as [v|] eqn:Hv; [|done].
  destruct (getitem out p) as [[| |]|]; try done.
  rewrite bool_decide_eq_true_2; [done|]. eapply Hbg; [left|done].
Qed.
End Scan.

Lemma measure_label_inv (mask : ndarray) : scan_inv mask (measure_label mask).
Proof. apply scan_inv_fold, scan_inv_init. Qed.

Lemma measure_label_shaped (mask : ndarray) :
  shaped (shape_of mask) (measure_label mask).1.
Proof.
  apply (label_scan_invariant mask); [apply shaped_np_zeros|done].
Qed.

(** There is no component exactly when the mask has no foreground pixel. *)
Lemma measure_label_count_zero (mask : ndarray) :
  (measure_label mask).2 = 0%Z ↔
  ∀ p v, in_shape (shape_of mask) p → getitem mask p = Some v → v = 0%Z.
Proof.
  split.
  - intros Hcount p v Hp Hmask.
    destruct (decide (v = 0%Z)) as [|Hv]; [done|]. exfalso.
    destruct (label_scan_covers mask (grid (shape_of mask))
                (np_zeros (shape_of mask), 0%Z) p v) as (w & Hw & Hnz);
      try done; [apply shaped_np_zeros|by apply elem_of_grid|].
    destruct (measure_label_inv mask) as (_ & Hfg & _).
    destruct (Hfg p w Hw Hnz) as [Hrange _]. lia.
  - intros Hbg. unfold measure_label.
    rewrite label_scan_background; [done|].
    intros p v Hp. apply Hbg. by apply elem_of_grid.
Qed.

(** ** Mask to graph: exceptions, cutoff *)

Lemma atom_mask_to_graph_outcome (equivalent_diameter_of : nat → Q)
    (label_ : ndarray) (image_ : image) (px_angstrom cutoff_angstrom : Q) :
  (returns (atom_mask_to_graph equivalent_diameter_of label_ image_
              px_angstrom cutoff_angstrom) ↔
     concat image_ ≠ [] ∧
     ((measure_label label_).2 = 0%Z ∨ shape_of label_ = shape_of image_)) ∧
  (concat image_ = [] →
     ∃ msg, atom_mask_to_graph equivalent_diameter_of label_ image_
              px_angstrom cutoff_angstrom = Raise (ValueError msg)).
Proof.
  unfold atom_mask_to_graph, image_max.
  destruct (concat image_) as [|x xs] eqn:Himg; cbn [mbind result_bind].
  - split; [|intros _; by eexists].
    split; [intros [a Ha]; discriminate Ha|intros [Hne _]; done].
  - unfold regionprops_table.
    rewrite shape_of_measure_label, shape_of_image_div.
    case_bool_decide as Hshape; cbn [mbind result_bind].
    + split; [|done]. split; [done|]. intros _. by eexists.
    + split; [|done].
      split; [intros [a Ha]; discriminate Ha|intros [_ Heq]; done].
Qed.

(** X9. When [atom_mask_to_graph] returns: exactly when the intensity image
    has at least one pixel and either the mask has no foreground pixel or
    the image has the shape of the mask.  An intensity image without pixels
    is a [ValueError] whatever the mask; an image of another shape goes
    unnoticed under a mask without foreground.  Neither the pixel size nor
    the cutoff can make the call fail. *)
Theorem atom_mask_to_graph_exceptions (equivalent_diameter_of : nat → Q)
    (label_ : ndarray) (image_ : image) (px_angstrom cutoff_angstrom : Q) :
  (returns (atom_mask_to_graph equivalent_diameter_of label_ image_
              px_angstrom cutoff_angstrom) ↔
     concat image_ ≠ [] ∧
     ((∀ p v, in_shape (shape_of label_) p → getitem label_ p = Some v → v = 0%Z) ∨
      shape_of label_ = shape_of image_)) ∧
  (concat image_ = [] →
     ∃ msg, atom_mask_to_graph equivalent_diameter_of label_ image_
              px_angstrom cutoff_angstrom = Raise (ValueError msg)).
Proof.
  rewrite <- measure_label_count_zero. apply atom_mask_to_graph_outcome.
Qed.

(** A mask without foreground over an image of another shape. *)
Example atom_mask_to_graph_shape_unchecked :
  atom_mask_to_graph Qnat [[0; 0]]%Z [[1; 2]; [3; 4]]%Q (1 # 10) 4
  = Ok ({| graph_px_angstrom := 1 # 10; nx_nodes := []; nx_edges := [] |}, []) ∧
  raises (atom_mask_to_graph Qnat [[0; 1]]%Z [[1; 2]; [3; 4]]%Q (1 # 10) 4).
Proof. split; [reflexivity|]. eexists. vm_compute. reflexivity. Qed.

(** The squared radius grows with the magnitude of the radius. *)
Lemma fmul_square_abs (r : Q) : fmul r r = fmul (Qabs r) (Qabs r).
Proof.
  destruct (Qlt_le_dec r 0) as [Hr|Hr].
  - rewrite <- (fmul_opp_opp r). unfold fmul.
    by rewrite (b64_comp (Qabs r) (- r)) by (apply Qabs_neg; Lqa.lra).
  - unfold fmul. by rewrite (b64_comp (Qabs r) r) by (by apply Qabs_pos).
Qed.

Lemma fmul_square_le (r1 r2 : Q) :
  (Qabs r1 <= Qabs r2)%Q → (fmul r1 r1 <= fmul r2 r2)%Q.
Proof.
  intros Hle. rewrite (fmul_square_abs r1), (fmul_square_abs r2).
  unfold fmul. apply b64_le.
  pose proof (b64_nonneg _ (Qabs_nonneg r1)) as H1.
  pose proof (b64_le _ _ Hle) as H2.
  Lqa.nra.
Qed.

Lemma within_mono (r1 r2 : Q) (a b : point) :
  (Qabs r1 <= Qabs r2)%Q → within r1 a b = true → within r2 a b = true.
Proof.
  unfold within. rewrite !Qle_bool_iff. intros Hle Hd.
  eapply Qle_trans; [exact Hd|]. by apply fmul_square_le.
Qed.

Lemma query_pairs_opp (points : list point) (r : Q) :
  query_pairs points (- r) = query_pairs points r.
Proof.
  unfold query_pairs. apply List.filter_ext. intros [i j]. cbn [fst snd].
  destruct (points !! i) as [a|]; [|done]. destruct (points !! j) as [b|]; [|done].
  apply within_opp.
Qed.

(** X10. The cutoff only selects edges, and only through its magnitude: two
    calls that differ in [cutoff_angstrom] return the same region table and
    the same nodes (isolated nodes are kept); a cutoff of larger magnitude
    keeps every edge of one of smaller magnitude; and a negative cutoff
    gives the edges of its absolute value, the tree squaring the radius. *)
Theorem atom_mask_to_graph_cutoff (equivalent_diameter_of : nat → Q)
    (label_ : ndarray) (image_ : image) (px_angstrom c1 c2 : Q)
    (g1 : nxGraph) (props1 : list props_row) :
  atom_mask_to_graph equivalent_diameter_of label_ image_ px_angstrom c1
    = Ok (g1, props1) →
  (∃ g2, atom_mask_to_graph equivalent_diameter_of label_ image_ px_angstrom c2
           = Ok (g2, props1) ∧
     nx_nodes g2 = nx_nodes g1 ∧
     length (nx_nodes g1) = length props1 ∧
     ((Qabs c1 <= Qabs c2)%Q → ∀ e, e ∈ nx_edges g1 → e ∈ nx_edges g2)) ∧
  atom_mask_to_graph equivalent_diameter_of label_ image_ px_angstrom (- c1)
    = Ok ({| graph_px_angstrom := px_angstrom;
             nx_nodes := nx_nodes g1;
             nx_edges := nx_edges g1 |}, props1).
Proof.
  intros Hrun. pose proof (atom_mask_to_graph_Ok _ _ _ _ _ _ _ Hrun) as ->.
  revert Hrun. unfold atom_mask_to_graph.
  destruct (image_max image_) as [m|e]; [|done]. cbn [mbind result_bind].
  destruct (regionprops_table _ _ _) as [props|e]; [|done]. cbn [mbind result_bind].
  intros Heq. assert (props = props1) as -> by (by injection Heq). clear Heq.
  split.
  - eexists. split; [reflexivity|]. cbn [nx_nodes nx_edges].
    split; [done|]. split; [by rewrite length_imap|].
    intros Hle [i j] Hin. apply elem_of_query_pairs in Hin as (Hlt & a & b & Ha & Hb & Hw).
    apply elem_of_query_pairs. split; [done|]. exists a, b.
    split; [done|]. split; [done|]. by eapply within_mono.
  - cbn [nx_nodes nx_edges]. by rewrite query_pairs_opp.
Qed.

(** One angstrom apart: joined at cutoff 1, at cutoff 4 and at cutoff -1. *)
Lemma atom_mask_to_graph_cutoff_witness :
  ∃ g1 props1 g2,
    atom_mask_to_graph Qnat two_atoms_mask two_atoms_image (1 # 10) 1 = Ok (g1, props1) ∧
    nx_edges g1 = [(0, 1)%nat] ∧
    atom_mask_to_graph Qnat two_atoms_mask two_atoms_image (1 # 10) 4 = Ok (g2, props1) ∧
    nx_nodes g2 = nx_nodes g1 ∧
    length (nx_nodes g1) = length props1 ∧
    ((Qabs 1 <= Qabs 4)%Q → ∀ e, e ∈ nx_edges g1 → e ∈ nx_edges g2) ∧
    atom_mask_to_graph Qnat two_atoms_mask two_atoms_image (1 # 10) (- (1))
      = Ok ({| graph_px_angstrom := 1 # 10;
               nx_nodes := nx_nodes g1;
               nx_edges := nx_edges g1 |}, props1).
Proof.
  do 2 eexists.
  assert (H1 : atom_mask_to_graph Qnat two_atoms_mask two_atoms_image (1 # 10) 1
               = Ok (_, _)) by (vm_compute; reflexivity).
  destruct (atom_mask_to_graph_cutoff Qnat two_atoms_mask two_atoms_image
              (1 # 10) 1 4 _ _ H1) as [(g2 & H2 & Hrest) Hopp].
  exists g2. split; [exact H1|]. split; [reflexivity|]. split; [exact H2|].
  destruct Hrest as (Hn & Hl & He). by repeat split.
Defined.

(** ** Mask to graph: nodes *)

Lemma atom_mask_to_graph_props (equivalent_diameter_of : nat → Q)
    (label_ : ndarray) (image_ : image) (px_angstrom cutoff_angstrom : Q)
    (g : nxGraph) (props : list props_row) :
  atom_mask_to_graph equivalent_diameter_of label_ image_ px_angstrom cutoff_angstrom
    = Ok (g, props) →
  ∃ m, image_max image_ = Ok m ∧
    ((measure_label label_).2 = 0%Z ∨ shape_of label_ = shape_of image_) ∧
    props = map (λ k, region_row equivalent_diameter_of (measure_label label_).1
                        (image_div image_ m) (Z.of_nat (S k)))
                (seq 0 (Z.to_nat (measure_label label_).2)).
Proof.
  unfold atom_mask_to_graph.
  destruct (image_max image_) as [m|e]; [|done]. cbn [mbind result_bind].
  unfold regionprops_table.
  rewrite shape_of_measure_label, shape_of_image_div.
  case_bool_decide as Hshape; [|done]. cbn [mbind result_bind].
  intros Heq. exists m. split; [done|]. split; [done|]. by injection Heq.
Qed.

Lemma elem_of_region_pixels (rlab : ndarray) (l : Z) (p : pixel) :
  p ∈ region_pixels rlab l ↔ in_shape (shape_of rlab) p ∧ getitem rlab p = Some l.
Proof.
  unfold region_pixels.
  rewrite list_elem_of_In, filter_In, <- list_elem_of_In, elem_of_grid.
  by rewrite bool_decide_eq_true.
Qed.

(** Every component found by [measure_label] has a pixel. *)
Lemma region_pixels_nonempty (mask : ndarray) (l : Z) :
  (1 ≤ l ≤ (measure_label mask).2)%Z →
  region_pixels (measure_label mask).1 l ≠ [].
Proof.
  intros Hl. destruct (measure_label_inv mask) as (_ & _ & Hused).
  destruct (Hused l Hl) as [q Hq].
  assert (Hin : q ∈ region_pixels (measure_label mask).1 l).
  { apply elem_of_region_pixels. split; [|done].
    rewrite shape_of_measure_label.
    by eapply getitem_Some_in_shape; [apply measure_label_shaped|]. }
  intros Hnil. rewrite Hnil in Hin. inversion Hin.
Qed.

(** X11. The graph has no node exactly when the mask has no foreground
    pixel: together with the empty-mask case, any foreground pixel gives at
    least one node. *)
Theorem atom_mask_to_graph_nodes_iff_foreground (equivalent_diameter_of : nat → Q)
    (label_ : ndarray) (image_ : image) (px_angstrom cutoff_angstrom : Q)
    (g : nxGraph) (props : list props_row) :
  atom_mask_to_graph equivalent_diameter_of label_ image_ px_angstrom cutoff_angstrom
    = Ok (g, props) →
  (nx_nodes g = [] ↔
   ∀ p v, in_shape (shape_of label_) p → getitem label_ p = Some v → v = 0%Z).
Proof.
  intros Hrun. pose proof (atom_mask_to_graph_Ok _ _ _ _ _ _ _ Hrun) as ->.
  apply atom_mask_to_graph_props in Hrun as (m & _ & _ & ->).
  rewrite <- measure_label_count_zero. cbn [nx_nodes].
  destruct (measure_label_inv label_) as (Hc & _).
  split.
  - intros Hnil. apply (f_equal length) in Hnil.
    rewrite length_imap, length_map, length_seq in Hnil. cbn [length] in Hnil. lia.
  - intros ->. done.
Qed.

Lemma atom_mask_to_graph_nodes_iff_foreground_witness :
  ∃ g props,
    atom_mask_to_graph Qnat two_atoms_mask two_atoms_image (1 # 10) 4 = Ok (g, props) ∧
    (nx_nodes g = [] ↔
     ∀ p v, in_shape (shape_of two_atoms_mask) p →
            getitem two_atoms_mask p = Some v → v = 0%Z).
Proof.
  do 2 eexists. split; [vm_compute; reflexivity|].
  eapply (atom_mask_to_graph_nodes_iff_foreground Qnat two_atoms_mask two_atoms_image
            (1 # 10) 4).
  vm_compute; reflexivity.
Defined.

Lemma Qnat_S (n : nat) : (Qnat (S n) == Qnat n + 1)%Q.
Proof. unfold Qnat. rewrite Nat2Z.inj_succ, <- Z.add_1_r, inject_Z_plus. reflexivity. Qed.

Lemma Qnat_nonneg (n : nat) : (0 <= Qnat n)%Q.
Proof. unfold Qnat. change 0%Q with (inject_Z 0). rewrite <- Zle_Qle. lia. Qed.

Lemma Qnat_le (n k : nat) : (n ≤ k)%nat → (Qnat n <= Qnat k)%Q.
Proof. intros H. unfold Qnat. rewrite <- Zle_Qle. lia. Qed.

Lemma Qnat_pos (n : nat) : (0 < n)%nat → (0 < Qnat n)%Q.
Proof. intros H. unfold Qnat. change 0%Q with (inject_Z 0). rewrite <- Zlt_Qlt. lia. Qed.

Lemma Qsum_bounds (l : list Q) (lo hi : Q) :
  (∀ x, x ∈ l → (lo <= x <= hi)%Q) →
  (lo * Qnat (length l) <= Qsum l <= hi * Qnat (length l))%Q.
Proof.
  induction l as [|x l IH]; intros Hall.
  - change (Qnat (length [])) with 0%Q. change (Qsum []) with 0%Q. Lqa.lra.
  - destruct IH as [IH1 IH2]; [intros y Hy; apply Hall; by right|].
    destruct (Hall x) as [Hx1 Hx2]; [left|].
    cbn [length Qsum foldr]. fold (Qsum l). rewrite Qnat_S. Lqa.lra.
Qed.

(** The mean of a non-empty list lies between any bounds of its elements. *)
Lemma Qmean_bounds (l : list Q) (lo hi : Q) :
  l ≠ [] → (∀ x, x ∈ l → (lo <= x <= hi)%Q) →
  (lo <= Qsum l / Qnat (length l) <= hi)%Q.
Proof.
  intros Hne Hall. destruct (Qsum_bounds l lo hi Hall) as [H1 H2].
  assert (Hpos : (0 < Qnat (length l))%Q).
  { apply Qnat_pos. destruct l; [done|cbn; lia]. }
  split; [by apply Qle_shift_div_l|by apply Qle_shift_div_r].
Qed.

(** X12. Every node sits inside the field of view: for a non-negative
    pixel size the node of row [i] of the region table has id [i], height 0,
    and planar position between 0 and the last pixel column (row) times the
    pixel size. *)
Theorem atom_mask_to_graph_nodes_in_view (equivalent_diameter_of : nat → Q)
    (label_ : ndarray) (image_ : image) (px_angstrom cutoff_angstrom : Q)
    (g : nxGraph) (props : list props_row) (i id : nat) (n : node_attrs) :
  atom_mask_to_graph equivalent_diameter_of label_ image_ px_angstrom cutoff_angstrom
    = Ok (g, props) →
  (0 <= px_angstrom)%Q →
  nx_nodes g !! i = Some (id, n) →
  id = i ∧
  ((pos n).2 == 0)%Q ∧
  (0 <= (pos n).1.1 <= Qnat ((shape_of label_).2 - 1) * px_angstrom)%Q ∧
  (0 <= (pos n).1.2 <= Qnat ((shape_of label_).1 - 1) * px_angstrom)%Q.
Proof.
  intros Hrun Hpx Hnode.
  pose proof (atom_mask_to_graph_Ok _ _ _ _ _ _ _ Hrun) as ->.
  apply atom_mask_to_graph_props in Hrun as (m & _ & _ & ->).
  cbn [nx_nodes] in Hnode. rewrite list_lookup_imap in Hnode.
  change (map ?f ?l) with (f <$> l) in Hnode. rewrite list_lookup_fmap in Hnode.
  destruct (seq 0 (Z.to_nat (measure_label label_).2) !! i) as [k|] eqn:Hk; [|done].
  apply lookup_seq in Hk as [-> Hi]. cbn in Hnode. injection Hnode as <- <-.
  split; [done|]. cbn [pos vscale fst snd].
  set (rlab := (measure_label label_).1).
  set (l := Z.of_nat (S i)).
  set (px := region_pixels rlab l).
  assert (Hne : px ≠ []) by (apply region_pixels_nonempty; lia).
  assert (Hin : ∀ p, p ∈ px → in_shape (shape_of label_) p).
  { intros p Hp. apply elem_of_region_pixels in Hp as [Hp _].
    unfold rlab in Hp. by rewrite shape_of_measure_label in Hp. }
  assert (Hrow : (0 <= Qsum (map (λ p : pixel, Qnat p.1) px) / Qnat (length px)
                  <= Qnat ((shape_of label_).1 - 1))%Q).
  { rewrite <- (length_map (λ p : pixel, Qnat p.1) px).
    apply Qmean_bounds; [by destruct px|].
    intros x Hx. apply list_elem_of_In, in_map_iff in Hx as (p & <- & Hp).
    apply list_elem_of_In, Hin in Hp as [Hp _].
    split; [apply Qnat_nonneg|apply Qnat_le; lia]. }
  assert (Hcol : (0 <= Qsum (map (λ p : pixel, Qnat p.2) px) / Qnat (length px)
                  <= Qnat ((shape_of label_).2 - 1))%Q).
  { rewrite <- (length_map (λ p : pixel, Qnat p.2) px).
    apply Qmean_bounds; [by destruct px|].
    intros x Hx. apply list_elem_of_In, in_map_iff in Hx as (p & <- & Hp).
    apply list_elem_of_In, Hin in Hp as [_ Hp].
    split; [apply Qnat_nonneg|apply Qnat_le; lia]. }
  cbn [centroid_0 centroid_1 region_row]. fold rlab l px.
  destruct Hrow as [Hr1 Hr2], Hcol as [Hc1 Hc2].
  split; [ring|]. split; split.
  - by apply Qmult_le_0_compat.
  - by apply Qmult_le_compat_r.
  - by apply Qmult_le_0_compat.
  - by apply Qmult_le_compat_r.
Qed.

Lemma atom_mask_to_graph_nodes_in_view_witness :
  ∃ g props n,
    atom_mask_to_graph Qnat two_atoms_mask two_atoms_image (1 # 10) 4 = Ok (g, props) ∧
    nx_nodes g !! 1%nat = Some (1%nat, n) ∧
    ((pos n).2 == 0)%Q ∧
    (0 <= (pos n).1.1 <= Qnat 10 * (1 # 10))%Q ∧
    (0 <= (pos n).1.2 <= Qnat 0 * (1 # 10))%Q.
Proof.
  do 3 eexists. split; [vm_compute; reflexivity|]. split; [reflexivity|].
  eapply (atom_mask_to_graph_nodes_in_view Qnat two_atoms_mask two_atoms_image
            (1 # 10) 4 _ _ 1 1).
  - vm_compute; reflexivity.
  - done.
  - reflexivity.
Defined.

(** ** Mask to graph: intensities *)

Lemma np_sum_Fin (qs : list Q) : foldr np_add (Fin 0) (Fin <$> qs) = Fin (Qsum qs).
Proof.
  induction qs as [|q qs IH]; [done|].
  cbn [fmap list_fmap foldr]. fold (Fin <$> qs). rewrite IH. done.
Qed.

Lemma np_mean_Fin (qs : list Q) :
  np_mean (Fin <$> qs) = Fin (Qsum qs / Qnat (length qs)).
Proof. unfold np_mean. by rewrite np_sum_Fin, length_fmap. Qed.

Lemma np_min_Fin (qs : list Q) :
  qs ≠ [] → ∃ a, np_min (Fin <$> qs) = Fin a ∧ a ∈ qs ∧ ∀ x, x ∈ qs → (a <= x)%Q.
Proof.
  induction qs as [|q qs IH]; [done|]. intros _.
  destruct qs as [|q' qs].
  - exists q. split; [done|]. split; [left|].
    intros x Hx. apply list_elem_of_singleton in Hx as ->. apply Qle_refl.
  - destruct IH as (a & Ha & Hin & Hle); [done|].
    unfold np_min in *. cbn [fmap list_fmap foldr] in *. rewrite Ha. cbn [np_min2].
    destruct (Qle_bool q a) eqn:Hqa.
    + apply Qle_bool_iff in Hqa. exists q. split; [done|]. split; [left|].
      intros x Hx. apply elem_of_cons in Hx as [->|Hx]; [apply Qle_refl|].
      eapply Qle_trans; [exact Hqa|by apply Hle].
    + exists a. split; [done|]. split; [by right|].
      intros x Hx. apply elem_of_cons in Hx as [->|Hx]; [|by apply Hle].
      apply Qlt_le_weak, Qnot_le_lt. intros Hc. apply Qle_bool_iff in Hc. congruence.
Qed.

Lemma np_max_Fin (qs : list Q) :
  qs ≠ [] → ∃ c, np_max (Fin <$> qs) = Fin c ∧ c ∈ qs ∧ ∀ x, x ∈ qs → (x <= c)%Q.
Proof.
  induction qs as [|q qs IH]; [done|]. intros _.
  destruct qs as [|q' qs].
  - exists q. split; [done|]. split; [left|].
    intros x Hx. apply list_elem_of_singleton in Hx as ->. apply Qle_refl.
  - destruct IH as (c & Hc & Hin & Hle); [done|].
    unfold np_max in *. cbn [fmap list_fmap foldr] in *. rewrite Hc. cbn [np_max2].
    destruct (Qle_bool q c) eqn:Hqc.
    + apply Qle_bool_iff in Hqc. exists c. split; [done|]. split; [by right|].
      intros x Hx. apply elem_of_cons in Hx as [->|Hx]; [done|by apply Hle].
    + exists q. split; [done|]. split; [left|].
      assert (Hcq : (c <= q)%Q).
      { apply Qlt_le_weak, Qnot_le_lt. intros Hc'. apply Qle_bool_iff in Hc'. congruence. }
      intros x Hx. apply elem_of_cons in Hx as [->|Hx]; [apply Qle_refl|].
      eapply Qle_trans; [by apply Hle|done].
Qed.

Lemma getitem_rectangular {A} (a : list (list A)) (p : pixel) :
  rectangular a → in_shape (shape_of a) p → is_Some (getitem a p).
Proof.
  unfold rectangular, in_shape, getitem. intros Hrect [H1 H2]. cbn [fst] in H1.
  destruct (lookup_lt_is_Some_2 a p.1 H1) as [row Hrow]. rewrite Hrow. cbn.
  apply lookup_lt_is_Some_2. rewrite Forall_lookup in Hrect.
  by rewrite (Hrect _ _ Hrow).
Qed.

(** The normalised intensities of a set of pixels, for a non-zero maximum. *)
Lemma normalised_values (im : image) (m : Q) (px : list pixel) :
  ¬ (m == 0)%Q →
  omap (getitem (image_div im m)) px
  = Fin <$> omap (λ p, (λ x, x / m)%Q <$> getitem im p) px.
Proof.
  intros Hm. induction px as [|p px IH]; [done|].
  cbn [omap list_omap]. fold (omap (getitem (image_div im m)) px).
  fold (omap (λ p, (λ x, x / m)%Q <$> getitem im p) px).
  rewrite getitem_image_div. destruct (getitem im p) as [x|]; cbn; [|done].
  rewrite IH, np_div_nonzero by done. done.
Qed.

Lemma region_row_stats (equivalent_diameter_of : nat → Q) (rlab : ndarray)
    (intensity_image : npimage) (l : Z) :
  let vals := omap (getitem intensity_image) (region_pixels rlab l) in
  min_intensity (region_row equivalent_diameter_of rlab intensity_image l) = np_min vals ∧
  mean_intensity (region_row equivalent_diameter_of rlab intensity_image l) = np_mean vals ∧
  max_intensity (region_row equivalent_diameter_of rlab intensity_image l) = np_max vals.
Proof. done. Qed.

(** X13. Node intensities are normalised: over a rectangular intensity
    image with positive maximum [m], every row of the region table has
    finite minimum, mean and maximum intensity; the minimum and the maximum
    are the normalised values [x / m] of two pixels of the component, with
    [min <= max <= 1]; and the node of that row carries the mean. *)
Theorem atom_mask_to_graph_intensity_normalised (equivalent_diameter_of : nat → Q)
    (label_ : ndarray) (image_ : image) (px_angstrom cutoff_angstrom m : Q)
    (g : nxGraph) (props : list props_row) (i : nat) (row : props_row) :
  atom_mask_to_graph equivalent_diameter_of label_ image_ px_angstrom cutoff_angstrom
    = Ok (g, props) →
  rectangular image_ →
  image_max image_ = Ok m → (0 < m)%Q →
  props !! i = Some row →
  ∃ a b c,
    min_intensity row = Fin a ∧ mean_intensity row = Fin b ∧
    max_intensity row = Fin c ∧ (a <= c)%Q ∧ (c <= 1)%Q ∧
    (∀ v, v = a ∨ v = c →
       ∃ p x, getitem (measure_label label_).1 p = Some (Z.of_nat (S i)) ∧
              getitem image_ p = Some x ∧ v = (x / m)%Q) ∧
    ∃ n, nx_nodes g !! i = Some (i, n) ∧ intensity n = Fin b.
Proof.
  intros Hrun Hrect Hmax Hm Hrow.
  pose proof (atom_mask_to_graph_Ok _ _ _ _ _ _ _ Hrun) as ->.
  apply atom_mask_to_graph_props in Hrun as (m' & Hmax' & Hshape & ->).
  rewrite Hmax in Hmax'. injection Hmax' as <-.
  change (map ?f ?l) with (f <$> l) in Hrow. rewrite list_lookup_fmap in Hrow.
  destruct (seq 0 (Z.to_nat (measure_label label_).2) !! i) as [k|] eqn:Hk; [|done].
  apply lookup_seq in Hk as [-> Hi]. cbn in Hrow. injection Hrow as <-.
  destruct Hshape as [Hzero|Hshape]; [rewrite Hzero in Hi; cbn in Hi; lia|].
  set (rlab := (measure_label label_).1).
  set (l := Z.of_nat (S i)).
  set (px := region_pixels rlab l).
  assert (Hm0 : ¬ (m == 0)%Q) by (intros H0; rewrite H0 in Hm; by apply Qlt_irrefl in Hm).
  set (qs := omap (λ p, (λ x, x / m)%Q <$> getitem image_ p) px).
  assert (Hvals : omap (getitem (image_div image_ m)) px = Fin <$> qs)
    by (by apply normalised_values).
  assert (Hpx : px ≠ []) by (apply region_pixels_nonempty; lia).
  assert (Hqs : qs ≠ []).
  { destruct px as [|p px'] eqn:Epx; [done|].
    assert (Hp : in_shape (shape_of image_) p).
    { assert (Hin : p ∈ region_pixels rlab l) by (fold px; rewrite Epx; left).
      apply elem_of_region_pixels in Hin as [Hin _].
      unfold rlab in Hin. by rewrite shape_of_measure_label, Hshape in Hin. }
    destruct (getitem_rectangular image_ p Hrect Hp) as [x Hx].
    unfold qs. cbn [omap list_omap]. by rewrite Hx. }
  assert (Hfrom : ∀ q, q ∈ qs →
            ∃ p x, getitem rlab p = Some l ∧ getitem image_ p = Some x ∧
                   q = (x / m)%Q).
  { intros q Hq. unfold qs in Hq. apply list_elem_of_omap in Hq as (p & Hp & Hq).
    destruct (getitem image_ p) as [x|] eqn:Hx; [|done]. cbn in Hq. injection Hq as <-.
    apply elem_of_region_pixels in Hp as [_ Hp]. by exists p, x. }
  assert (Hle1 : ∀ q, q ∈ qs → (q <= 1)%Q).
  { intros q Hq. destruct (Hfrom q Hq) as (p & x & _ & Hx & ->).
    pose proof (image_max_upper image_ m p x Hmax Hx) as Hxm.
    apply Qle_shift_div_r; [done|]. by rewrite Qmult_1_l. }
  destruct (np_min_Fin qs Hqs) as (a & Ha & Hain & Hamin).
  destruct (np_max_Fin qs Hqs) as (c & Hc & Hcin & Hcmax).
  exists a, (Qsum qs / Qnat (length qs))%Q, c.
  destruct (region_row_stats equivalent_diameter_of rlab (image_div image_ m) l)
    as (Hmin & Hmean & Hmaxi).
  fold px in Hmin, Hmean, Hmaxi. rewrite Hvals in Hmin, Hmean, Hmaxi.
  rewrite np_mean_Fin in Hmean. rewrite Ha in Hmin. rewrite Hc in Hmaxi.
  split; [done|]. split; [done|]. split; [done|].
  split; [by apply Hamin|]. split; [by apply Hle1|]. split.
  { intros v [->| ->]; by apply Hfrom. }
  eexists. split.
  - change (nx_nodes _) with (imap (node_of px_angstrom)
      ((λ k, region_row equivalent_diameter_of rlab (image_div image_ m)
               (Z.of_nat (S k))) <$> seq 0 (Z.to_nat (measure_label label_).2))).
    rewrite list_lookup_imap, list_lookup_fmap, lookup_seq_lt by done.
    reflexivity.
  - exact Hmean.
Qed.

Lemma atom_mask_to_graph_intensity_normalised_witness :
  ∃ g props row a b c n,
    atom_mask_to_graph Qnat two_atoms_mask two_atoms_image (1 # 10) 4 = Ok (g, props) ∧
    props !! 0%nat = Some row ∧
    min_intensity row = Fin a ∧ mean_intensity row = Fin b ∧
    max_intensity row = Fin c ∧ (a <= c)%Q ∧ (c <= 1)%Q ∧
    nx_nodes g !! 0%nat = Some (0%nat, n) ∧ intensity n = Fin b.
Proof.
  eassert (H1 : atom_mask_to_graph Qnat two_atoms_mask two_atoms_image (1 # 10) 4
                = Ok (_, _)) by (vm_compute; reflexivity).
  assert (Hrect : rectangular two_atoms_image) by (repeat constructor).
  match type of H1 with
  | _ = Ok (?g, ?props) =>
      eassert (H2 : props !! 0%nat = Some _) by reflexivity;
      match type of H2 with
      | _ = Some ?row =>
          exists g, props, row;
          destruct (atom_mask_to_graph_intensity_normalised Qnat two_atoms_mask
                      two_atoms_image (1 # 10) 4 1 g props 0 row H1 Hrect
                      eq_refl eq_refl H2)
            as (a & b & c & Ha & Hb & Hc & Hac & Hc1 & _ & n & Hn & Hi)
      end
  end.
  exists a, b, c, n. repeat (split; [try reflexivity; eassumption|]). exact Hi.
Defined.

(** ** The directed graph of a sample *)

Lemma elem_of_nx_neighbors (edges : list (nat * nat)) (u v : nat) :
  v ∈ nx_neighbors edges u ↔ (u, v) ∈ edges ∨ ((v, u) ∈ edges ∧ v ≠ u).
Proof.
  unfold nx_neighbors. rewrite list_elem_of_bind. split.
  - intros ([i j] & Hv & He). cbn [fst snd] in Hv.
    case_bool_decide as H1; [|case_bool_decide as H2].
    + apply list_elem_of_singleton in Hv. subst. by left.
    + apply list_elem_of_singleton in Hv. subst. right. split; [done|]. congruence.
    + inversion Hv.
  - intros [He|[He Hne]].
    + exists (u, v). split; [|done]. cbn [fst snd].
      rewrite bool_decide_eq_true_2 by done. left.
    + exists (v, u). split; [|done]. cbn [fst snd].
      rewrite bool_decide_eq_false_2, bool_decide_eq_true_2 by done. left.
Qed.

Lemma NoDup_nx_neighbors (edges : list (nat * nat)) (u : nat) :
  NoDup edges → (∀ i j, (i, j) ∈ edges → (i < j)%nat) →
  NoDup (nx_neighbors edges u).
Proof.
  intros Hnd Hlt. unfold nx_neighbors. apply NoDup_bind; [| |done].
  - intros [i1 j1] [i2 j2] v H1 H2 Hv1 Hv2. cbn [fst snd] in Hv1, Hv2.
    pose proof (Hlt _ _ H1). pose proof (Hlt _ _ H2).
    repeat case_bool_decide; try (by inversion Hv1); try (by inversion Hv2);
      apply list_elem_of_singleton in Hv1, Hv2; subst; try done; lia.
  - intros [i j] _. cbn [fst snd]. repeat case_bool_decide;
      try apply NoDup_singleton; apply NoDup_nil_2.
Qed.

Lemma elem_of_directed_graph (g : nxGraph) (u v : nat) :
  (u, v) ∈ dgl_edges (directed_graph g) ↔
  u ∈ (nx_nodes g).*1 ∧ v ∈ nx_neighbors (nx_edges g) u.
Proof.
  cbn [dgl_edges directed_graph]. rewrite list_elem_of_bind. split.
  - intros (u' & Hv & Hu). apply list_elem_of_bind in Hv as (v' & Hp & Hv).
    apply list_elem_of_singleton in Hp. injection Hp as -> ->. done.
  - intros [Hu Hv]. exists u. split; [|done].
    apply list_elem_of_bind. exists v. split; [left|done].
Qed.

Lemma vscale_vsub_opp (a b : vec3) (s : Q) :
  veq (vscale (vsub a b) s) (vopp (vscale (vsub b a) s)).
Proof.
  destruct a as [[a1 a2] a3], b as [[b1 b2] b3].
  unfold veq, vscale, vsub, vopp. cbn. repeat split; ring.
Qed.

Lemma fst_imap_node_of (px_angstrom : Q) (props : list props_row) :
  (imap (node_of px_angstrom) props).*1 = seq 0 (length props).
Proof.
  apply list_eq. intros i.
  rewrite list_lookup_fmap, list_lookup_imap.
  destruct (props !! i) as [row|] eqn:Hrow; cbn.
  - rewrite lookup_seq_lt by (by eapply lookup_lt_Some). done.
  - rewrite lookup_seq_ge; [done|]. by apply lookup_ge_None.
Qed.

Section SampleGraphShape.
Context {E : Externals}.

(** The directed edges are the two orientations of the undirected ones. *)
Lemma directed_graph_edges (px_angstrom cutoff_angstrom : Q)
    (props : list props_row) (u v : nat) :
  let g0 := {| graph_px_angstrom := px_angstrom;
               nx_nodes := imap (node_of px_angstrom) props;
               nx_edges := query_pairs (points_of px_angstrom props) cutoff_angstrom |} in
  (u, v) ∈ dgl_edges (directed_graph g0) ↔ has_edge g0 u v.
Proof.
  intros g0. rewrite elem_of_directed_graph, elem_of_nx_neighbors.
  unfold has_edge. cbn [nx_nodes nx_edges g0]. rewrite fst_imap_node_of, elem_of_seq.
  assert (Hlt : ∀ i j, (i, j) ∈ query_pairs (points_of px_angstrom props) cutoff_angstrom →
                       (i < j < length props)%nat).
  { intros i j Hin. apply elem_of_query_pairs in Hin as (Hij & a & b & _ & Hb & _).
    apply lookup_lt_Some in Hb. unfold points_of in Hb. rewrite length_map in Hb. lia. }
  split.
  - intros [_ [Huv|[Hvu _]]]; [by left|by right].
  - intros [Huv|Hvu].
    + pose proof (Hlt _ _ Huv). split; [lia|]. by left.
    + pose proof (Hlt _ _ Hvu). split; [lia|]. right. split; [done|lia].
Qed.

(** X14. The graph attached to a sample: the node features have one entry
    per node and the edge feature one entry per edge; the directed edges are
    the two orientations of the undirected edges that [atom_mask_to_graph]
    returns for its default pixel size 0.1 and cutoff 4, whatever the pixel
    scale of the dataset, so every edge has its reverse and there is no
    self-loop; each edge occurs once; and the stored vectors of an edge and
    of its reverse are opposite, each being [self.px_scale] times the
    difference of the node positions. *)
Theorem sample_graph_well_formed (self : Jarvis2dSTEMGraphDataset)
    (predicted_label : ndarray) (image_ : image) (g : DGLGraph) :
  sample_graph self predicted_label image_ = Ok g →
  (length (ndata_intensity g) = length (ndata_pos g) ∧
   length (ndata_r g) = length (ndata_pos g) ∧
   length (ndata_atom_features g) = length (ndata_pos g) ∧
   length (edata_r g) = length (dgl_edges g)) ∧
  (∃ nxg props,
     atom_mask_to_graph equivalent_diameter_of predicted_label image_ (1 # 10) 4
       = Ok (nxg, props) ∧
     ndata_pos g = (λ n : nat * node_attrs, pos n.2) <$> nx_nodes nxg ∧
     ∀ u v, (u, v) ∈ dgl_edges g ↔ has_edge nxg u v) ∧
  (∀ u v, (u, v) ∈ dgl_edges g → u ≠ v ∧ (v, u) ∈ dgl_edges g) ∧
  NoDup (dgl_edges g) ∧
  (∀ e e' u v, dgl_edges g !! e = Some (u, v) → dgl_edges g !! e' = Some (v, u) →
     ∃ r r', edata_r g !! e = Some r ∧ edata_r g !! e' = Some r' ∧
       r = vscale (vsub (ndata_pos g !!! v) (ndata_pos g !!! u)) (px_scale (base self)) ∧
       veq r' (vopp r)).
Proof.
  intros Hrun. pose proof Hrun as Hrun'. unfold sample_graph in Hrun'.
  destruct (atom_mask_to_graph _ _ _ _ _) as [[g0 props]|err] eqn:Hnx; [|done].
  pose proof (atom_mask_to_graph_Ok _ _ _ _ _ _ _ Hnx) as Hg0.
  cbn [mbind result_bind] in Hrun'. unfold from_networkx in Hrun'.
  destruct (nx_nodes g0) as [|n0 nodes] eqn:Hnodes; [done|].
  cbn [mbind result_bind] in Hrun'. injection Hrun' as Hg. symmetry in Hg.
  assert (Hedges : dgl_edges g = dgl_edges (directed_graph g0)) by (by rewrite Hg).
  assert (Hchar : ∀ u v, (u, v) ∈ dgl_edges g ↔ has_edge g0 u v).
  { intros u v. rewrite Hedges, Hg0. apply directed_graph_edges. }
  assert (Hlt : ∀ i j, (i, j) ∈ nx_edges g0 → (i < j)%nat).
  { intros i j Hin. rewrite Hg0 in Hin. cbn [nx_edges] in Hin.
    by apply elem_of_query_pairs in Hin as [? _]. }
  split; [|split; [|split; [|split]]].
  - rewrite Hg. cbn. unfold bond_vectors. cbn.
    rewrite length_zip_with, !length_map, length_zip_with, !length_map. lia.
  - exists g0, props. split; [done|]. split; [by rewrite Hg|exact Hchar].
  - intros u v Huv. apply Hchar in Huv. split.
    + intros ->. destruct Huv as [H|H]; apply Hlt in H; lia.
    + apply Hchar. unfold has_edge in *. tauto.
  - rewrite Hedges. cbn [dgl_edges directed_graph].
    apply NoDup_bind.
    + intros u1 u2 [a b] _ _ H1 H2.
      apply list_elem_of_bind in H1 as (v1 & Hp1 & _), H2 as (v2 & Hp2 & _).
      apply list_elem_of_singleton in Hp1, Hp2. congruence.
    + intros u _. apply NoDup_bind.
      * intros v1 v2 p _ _ H1 H2. apply list_elem_of_singleton in H1, H2. congruence.
      * intros v _. apply NoDup_singleton.
      * apply NoDup_nx_neighbors; [|exact Hlt].
        rewrite Hg0. apply NoDup_query_pairs.
    + rewrite Hg0. cbn [nx_nodes]. rewrite fst_imap_node_of. apply NoDup_seq.
  - intros e e' u v He He'.
    pose proof (sample_graph_edata self _ _ g e u v Hrun He) as Hr.
    pose proof (sample_graph_edata self _ _ g e' v u Hrun He') as Hr'.
    eexists _, _. split; [exact Hr|]. split; [exact Hr'|]. split; [done|].
    apply vscale_vsub_opp.
Qed.
End SampleGraphShape.

Lemma sample_graph_well_formed_witness :
  ∃ ds tg g,
    two_atoms_dataset = Ok (ds, tg) ∧
    sample_graph (E := example_externals) ds two_atoms_mask two_atoms_image = Ok g ∧
    dgl_edges g = [(0, 1); (1, 0)]%nat ∧
    (∀ u v, (u, v) ∈ dgl_edges g → u ≠ v ∧ (v, u) ∈ dgl_edges g) ∧
    NoDup (dgl_edges g).
Proof.
  eassert (H1 : two_atoms_dataset = Ok (_, _)) by (vm_compute; reflexivity).
  match type of H1 with
  | _ = Ok (?ds, ?tg) =>
      eassert (H2 : sample_graph (E := example_externals) ds two_atoms_mask
                      two_atoms_image = Ok _) by (vm_compute; reflexivity);
      exists ds, tg
  end.
  match type of H2 with _ = Ok ?g => exists g end.
  split; [exact H1|]. split; [exact H2|]. split; [reflexivity|].
  destruct (sample_graph_well_formed (E := example_externals) _ _ _ _ H2)
    as (_ & _ & Hsym & Hnd & _).
  by split.
Defined.

(** ** Stored indices, graph access *)

Section StoredIds.
Context {E : Externals}.

Lemma getitem_in_range (self : Jarvis2dSTEMDataset) (idx : nat) (gen : np_gen)
    (row : df_row Atoms) :
  df self !! idx = Some row →
  Jarvis2dSTEMDataset_getitem self idx gen ≠ Raise IndexError ∧
  (label_mode self ≠ "radius" → returns (Jarvis2dSTEMDataset_getitem self idx gen)).
Proof.
  intros Hrow.
  destruct (draw_augmentation self gen) as [[[rot shift] px] gen1] eqn:Hdraw.
  destruct (simulate_surface (atoms row) px (6 # 10) rot shift)
    as [[[image_ label_] pos_] nb] eqn:Hsim.
  rewrite (Jarvis2dSTEMDataset_getitem_unfold self idx gen gen1 row rot px shift
             image_ label_ pos_ nb Hrow Hdraw Hsim).
  case_bool_decide as Hmode; [|split; [done|by eexists]].
  split; [|done].
  destruct (atomic_radius_mask RADII (shape_of image_) pos_ nb px)
    as [lbl|e0] eqn:Hmask; [done|].
  apply radius_mask_loop_raises in Hmask as (k & -> & _). done.
Qed.

(** X15. The indices stored by the constructor index the dataset: the
    train, validation and test ids together are a permutation of
    [range(len(dataset))], so an access at a stored id never raises
    [IndexError], and in delta mode it returns a sample. *)
Theorem stored_ids_index_the_dataset (px_scale_ : Q) (label_mode_ : string)
    (image_data : option (list (df_row Atoms)))
    (rotation_degrees_ shift_angstrom_ zoom_pct_ : option Q)
    (to_tensor_ : option (image → image)) (fresh : Z) (gen gen' : torch_gen)
    (self : Jarvis2dSTEMDataset) :
  Jarvis2dSTEMDataset_init px_scale_ label_mode_ image_data rotation_degrees_
    shift_angstrom_ zoom_pct_ to_tensor_ fresh gen = Ok (self, gen') →
  (randperm (manual_seed 0) (Jarvis2dSTEMDataset_len self)).1
    ≡ₚ seq 0 (Jarvis2dSTEMDataset_len self) →
  train_ids self ++ val_ids self ++ test_ids self
    ≡ₚ seq 0 (Jarvis2dSTEMDataset_len self) ∧
  ∀ i g, i ∈ train_ids self ++ val_ids self ++ test_ids self →
    Jarvis2dSTEMDataset_getitem self i g ≠ Raise IndexError ∧
    (label_mode self = "delta" → returns (Jarvis2dSTEMDataset_getitem self i g)).
Proof.
  unfold Jarvis2dSTEMDataset_len. intros Hinit Hperm.
  pose proof (Jarvis2dSTEMDataset_init_split _ _ _ _ _ _ _ _ _ _ _ Hinit) as Hids.
  pose proof (Permutation_length Hperm) as Hlen. rewrite length_seq in Hlen.
  destruct (split_dataset_slices (df self) (1 # 10) (1 # 10) fresh gen)
    as (Hk & _ & _ & Hsplit); [done|done|done|done|].
  set (k := Z.to_nat (Qfloor (Qnat (length (df self)) * (1 # 10)))) in *.
  set (shuf := (randperm (manual_seed 0) (length (df self))).1) in *.
  rewrite Hsplit in Hids. cbn [fst] in Hids.
  assert (Hcat : train_ids self ++ val_ids self ++ test_ids self = shuf).
  { injection Hids as -> -> ->. apply take_three_gen. lia. }
  rewrite Hcat. split; [done|].
  intros i g Hi. rewrite Hperm in Hi. apply elem_of_seq in Hi.
  destruct (lookup_lt_is_Some_2 (df self) i) as [row Hrow]; [lia|].
  destruct (getitem_in_range self i g row Hrow) as [H1 H2].
  split; [done|]. intros Hmode. apply H2. by rewrite Hmode.
Qed.
End StoredIds.

Lemma stored_ids_index_the_dataset_witness :
  ∃ self tg,
    radius_dataset = Ok (self, tg) ∧
    train_ids self ++ val_ids self ++ test_ids self ≡ₚ seq 0 2 ∧
    ∀ i g, i ∈ train_ids self ++ val_ids self ++ test_ids self →
      Jarvis2dSTEMDataset_getitem (E := atoms_externals) self i g ≠ Raise IndexError ∧
      (label_mode self = "delta" →
       returns (Jarvis2dSTEMDataset_getitem (E := atoms_externals) self i g)).
Proof.
  eassert (H1 : radius_dataset = Ok (_, _)) by (vm_compute; reflexivity).
  match type of H1 with _ = Ok (?ds, ?tg) => exists ds, tg end.
  split; [exact H1|].
  eapply (stored_ids_index_the_dataset (E := atoms_externals)); [exact H1|].
  symmetry. apply Permutation_rev.
Defined.

Section GraphAccess.
Context {E : Externals}.

(** X16. Graph access extends base access: an exception of the base
    [__getitem__] is raised unchanged; when the base access returns but the
    dataset has neither [debug] nor a pixel classifier (the constructor's
    defaults) the access raises [TypeError]; and a returned sample has the
    image, label, id, pixel scale and crystal system of the base sample,
    with a graph attached. *)
Theorem graph_getitem_extends_base (self : Jarvis2dSTEMGraphDataset) (idx : nat)
    (gen : np_gen) :
  (∀ e, Jarvis2dSTEMDataset_getitem (base self) idx gen = Raise e →
        Jarvis2dSTEMGraphDataset_getitem self idx gen = Raise e) ∧
  (returns (Jarvis2dSTEMDataset_getitem (base self) idx gen) →
   debug self = false → pixel_classifier self = None →
   Jarvis2dSTEMGraphDataset_getitem self idx gen = Raise TypeError) ∧
  (∀ smp gen', Jarvis2dSTEMGraphDataset_getitem self idx gen = Ok (smp, gen') →
     ∃ smp0 g, Jarvis2dSTEMDataset_getitem (base self) idx gen = Ok (smp0, gen') ∧
       s_g smp = Some g ∧
       s_image smp = s_image smp0 ∧ s_label smp = s_label smp0 ∧
       s_id smp = s_id smp0 ∧ s_px_scale smp = s_px_scale smp0 ∧
       s_crys smp = s_crys smp0).
Proof.
  unfold Jarvis2dSTEMGraphDataset_getitem.
  destruct (Jarvis2dSTEMDataset_getitem (base self) idx gen) as [[smp0 gen0]|e0].
  - cbn [mbind result_bind]. split; [done|]. split.
    + intros _ -> ->. done.
    + intros smp gen'.
      destruct (if debug self then _ else _) as [mask|e]; [|done].
      cbn [mbind result_bind].
      destruct (sample_graph self mask (s_image smp0)) as [g|e]; [|done].
      cbn. intros [= <- <-]. by exists smp0, g.
  - cbn [mbind result_bind]. split; [by intros e [= <-]|].
    split; [intros [a Ha]; discriminate Ha|done].
Qed.
End GraphAccess.

Lemma graph_getitem_extends_base_witness :
  ∃ ds tg,
    default_graph_dataset = Ok (ds, tg) ∧
    Jarvis2dSTEMGraphDataset_getitem (E := example_externals) ds 0 0%Z = Raise TypeError ∧
    Jarvis2dSTEMGraphDataset_getitem (E := example_externals) ds 1 0%Z = Raise IndexError.
Proof.
  eassert (H1 : default_graph_dataset = Ok (_, _)) by (vm_compute; reflexivity).
  match type of H1 with _ = Ok (?ds, ?tg) => exists ds, tg end.
  split; [exact H1|]. split.
  - apply (graph_getitem_extends_base (E := example_externals)); [|done|done].
    eexists. vm_compute. reflexivity.
  - apply (graph_getitem_extends_base (E := example_externals)). reflexivity.
Defined.

Lemma getitem_radius_mode_witness :
  ∃ self tg,
    radius_dataset = Ok (self, tg) ∧
    (∃ k, Jarvis2dSTEMDataset_getitem (E := atoms_externals) self 1 0%Z
            = Raise (KeyError k) ∧ k ∈ [6; 99]%Z ∧ example_RADII !! k = None) ∧
    (∃ smp, Jarvis2dSTEMDataset_getitem (E := atoms_externals) self 0 0%Z
              = Ok (smp, 0%Z) ∧ s_px_scale smp = 1%Q ∧
       ∀ p, in_shape (9, 9)%nat p →
         (getitem (s_label smp) p = Some 1%Z ↔
            ∃ a, a ∈ [((2, 2)%Q, 6%Z); ((6, 6)%Q, 8%Z)] ∧
                 covers example_RADII (9, 9)%nat 1 a p) ∧
         (getitem (s_label smp) p = Some 0%Z ↔
            ∀ a, a ∈ [((2, 2)%Q, 6%Z); ((6, 6)%Q, 8%Z)] →
                 ¬ covers example_RADII (9, 9)%nat 1 a p)).
Proof.
  eassert (H1 : radius_dataset = Ok (_, _)) by (vm_compute; reflexivity).
  match type of H1 with
  | _ = Ok (?ds, ?tg) =>
      exists ds, tg; split; [exact H1|]; split;
      [ eapply (proj1 (getitem_radius_mode (E := atoms_externals) ds 1 0%Z 0%Z
                         unknown_species_row 0 1 (0, 0)%Q _ _ _ _
                         eq_refl eq_refl eq_refl eq_refl eq_refl))
      | eapply (proj2 (getitem_radius_mode (E := atoms_externals) ds 0 0%Z 0%Z
                         carbon_oxygen_row 0 1 (0, 0)%Q _ _ _ _
                         eq_refl eq_refl eq_refl eq_refl eq_refl)) ]
  end.
  - exists 99%Z. split; [right; left|reflexivity].
  - intros n Hn. apply elem_of_cons in Hn as [->|Hn]; [by split; [eexists|]|].
    apply list_elem_of_singleton in Hn as ->. by split; [eexists|].
Defined.
